(** * InvoiceTranslator: dictionary-based find/replace over a word-processor
      document, verified against its Python sources

    The development embeds the two scripts of the repository,

    - [translate.py]                  (module [Translate]), and
    - [pdf_translator_structured.py]  (module [Structured]),

    together with the small part of Python and of the document library
    they rely on:

    - [Str]   Python's [str]: a sequence of Unicode code points, with
              [in], [str.replace], [str.strip] and [str.split(sep, 1)];
    - [Dict]  Python's insertion-ordered [dict] from [str] to [str];
    - [Exc]   the exceptions that cross function boundaries, and
              statements that change an object in place and may raise;
    - [Docx]  the object model the scripts walk: paragraphs made of runs
              and hyperlinks, tables, headers and footers, and what
              assigning to the text of a run does;
    - [Os]    the files the scripts read and write and the console.

    Definitions come first, then the lemmas about them. *)

From Stdlib Require Import List NArith Bool Arith Lia String Ascii.
Import ListNotations.

(* ================================================================== *)
(** ** Python strings                                                  *)
(* ================================================================== *)

Module Str.

(** A Python [str] is a sequence of code points. *)
Definition char := N.
Definition str := list char.

(** String literals of the sources (ASCII only). *)
Definition lit (s : string) : str :=
  map N_of_ascii (list_ascii_of_string s).

Definition LF : char := 10%N.
Definition CR : char := 13%N.

Fixpoint eqb (a b : str) : bool :=
  match a, b with
  | [], [] => true
  | c :: a', d :: b' => N.eqb c d && eqb a' b'
  | _, _ => false
  end.

(** [s.startswith(p)]. *)
Fixpoint startswith (s p : str) : bool :=
  match p, s with
  | [], _ => true
  | c :: p', d :: s' => N.eqb c d && startswith s' p'
  | _ :: _, [] => false
  end.

(** [sub in s]: [sub] occurs in [s] as a contiguous block.  The empty
    string occurs in every string. *)
Fixpoint str_in (sub s : str) : bool :=
  startswith s sub ||
  match s with
  | [] => false
  | _ :: s' => str_in sub s'
  end.

(** [s.replace(old, new)] for a non-empty [old]: the occurrences of [old]
    are found from left to right and do not overlap; [skip] counts the
    characters of the current occurrence still to be dropped. *)
Fixpoint replace_from (skip : nat) (s old new : str) : str :=
  match s with
  | [] => []
  | c :: s' =>
      match skip with
      | S k => replace_from k s' old new
      | O =>
          if startswith s old
          then new ++ replace_from (List.length old - 1) s' old new
          else c :: replace_from 0 s' old new
      end
  end.

(** [s.replace(old, new)].  With an empty [old], Python puts [new] before
    every character and at the end: the empty string replaced by ["-"]
    in ["ab"] gives ["-a-b-"]. *)
Definition replace (s old new : str) : str :=
  match old with
  | [] => new ++ flat_map (fun c => c :: new) s
  | _ :: _ => replace_from 0 s old new
  end.

(** [c.isspace()] as [str.strip()] uses it: the Unicode white space of
    CPython's [_PyUnicode_IsWhitespace]. *)
Definition isspace (c : char) : bool :=
  ((9 <=? c) && (c <=? 13) ||
   (28 <=? c) && (c <=? 32) ||
   (c =? 133) || (c =? 160) || (c =? 5760) ||
   (8192 <=? c) && (c <=? 8202) ||
   (c =? 8232) || (c =? 8233) || (c =? 8239) || (c =? 8287) ||
   (c =? 12288))%N.

Fixpoint lstrip (s : str) : str :=
  match s with
  | [] => []
  | c :: s' => if isspace c then lstrip s' else s
  end.

Definition rstrip (s : str) : str := rev (lstrip (rev s)).

(** [s.strip()]. *)
Definition strip (s : str) : str := rstrip (lstrip s).

(** [s.partition(sep)] for a one-character [sep]: the text before the
    first [sep] and the text after it, when there is one. *)
Fixpoint partition (s : str) (sep : char) : option (str * str) :=
  match s with
  | [] => None
  | c :: s' =>
      if N.eqb c sep then Some ([], s')
      else match partition s' sep with
           | Some (a, b) => Some (c :: a, b)
           | None => None
           end
  end.

(** [s.split(sep, 1)] for a one-character [sep]: at most one split, at
    the first [sep]; a list of one or two strings. *)
Definition split1 (s : str) (sep : char) : list str :=
  match partition s sep with
  | Some (a, b) => [a; b]
  | None => [s]
  end.

(** Text-mode reading with universal newlines: ["\r\n"] and a lone
    ["\r"] are read as ["\n"]. *)
Fixpoint universal_newlines (after_cr : bool) (s : str) : str :=
  match s with
  | [] => []
  | c :: s' =>
      if N.eqb c CR then LF :: universal_newlines true s'
      else if N.eqb c LF && after_cr then universal_newlines false s'
      else c :: universal_newlines false s'
  end.

(** The lines a file iterator yields: each keeps its ["\n"]; a last line
    without one is yielded as it is.  [cur] is the line read so far,
    reversed. *)
Fixpoint lines_from (cur : str) (s : str) : list str :=
  match s with
  | [] => match cur with [] => [] | _ :: _ => [rev cur] end
  | c :: s' =>
      if N.eqb c LF then rev (c :: cur) :: lines_from [] s'
      else lines_from (c :: cur) s'
  end.

Definition readlines (content : str) : list str :=
  lines_from [] (universal_newlines false content).

(** Python truthiness of a string. *)
Definition truthy (s : str) : bool :=
  match s with [] => false | _ :: _ => true end.

End Str.

Import Str.

(* ================================================================== *)
(** ** Python dictionaries from [str] to [str]                          *)
(* ================================================================== *)

Module Dict.

(** A [dict] keeps its keys in insertion order; the list holds every key
    once. *)
Definition dict := list (str * str).

Definition empty : dict := [].

(** [d[k] = v]: a key already present keeps its place and takes the new
    value; a new key goes to the end. *)
Fixpoint setitem (d : dict) (k v : str) : dict :=
  match d with
  | [] => [(k, v)]
  | (k', v') :: d' =>
      if Str.eqb k' k then (k', v) :: d'
      else (k', v') :: setitem d' k v
  end.

(** [d.get(k)]. *)
Fixpoint get (d : dict) (k : str) : option str :=
  match d with
  | [] => None
  | (k', v') :: d' => if Str.eqb k' k then Some v' else get d' k
  end.

(** [d.items()], in insertion order. *)
Definition items (d : dict) : list (str * str) := d.

Definition keys (d : dict) : list str := map fst d.
Definition values (d : dict) : list str := map snd d.

End Dict.

Import Dict.



(* ================================================================== *)
(** ** Exceptions, and statements that change an object                *)
(* ================================================================== *)

Module Exc.

(** The exceptions, all of them subclasses of [Exception]. *)
Inductive exn :=
| FileNotFoundError
| FileExistsError
| IsADirectoryError
| NotADirectoryError
| UnicodeDecodeError
| UnicodeEncodeError
| ValueError
| BadZipFile
| ConverterError (code : nat).

Inductive outcome (A : Type) :=
| Return (a : A)
| Raise (e : exn).
Arguments Return {A} a.
Arguments Raise {A} e.

(** A statement that changes an object in place and may raise: the
    object as the statement leaves it, and the exception if one was
    raised.  What was changed before the exception stays changed. *)
Definition upd (A : Type) := A -> A * option exn.

Definition skip {A} : upd A := fun a => (a, None).

(** [s1; s2]. *)
Definition seq {A} (s1 s2 : upd A) : upd A :=
  fun a =>
    match s1 a with
    | (a', None) => s2 a'
    | (a', Some e) => (a', Some e)
    end.

(** A statement on a part of an object. *)
Definition field {A B} (get : A -> B) (set : A -> B -> A) (s : upd B)
  : upd A :=
  fun a => let (b, e) := s (get a) in (set a b, e).

(** [for x in xs: body(x)], each [x] changed in place: an exception
    ends the loop and leaves the later elements as they were. *)
Fixpoint each {A} (body : upd A) (xs : list A) : list A * option exn :=
  match xs with
  | [] => ([], None)
  | x :: xs' =>
      match body x with
      | (x', None) => let (ys, e) := each body xs' in (x' :: ys, e)
      | (x', Some e) => (x' :: xs', Some e)
      end
  end.

(** [for src, dst in mapping.items(): body(src, dst)] on an object. *)
Fixpoint for_items {A} (entries : list (str * str))
         (body : str -> str -> upd A) (a : A) : A * option exn :=
  match entries with
  | [] => (a, None)
  | (src, dst) :: entries' =>
      match body src dst a with
      | (a', None) => for_items entries' body a'
      | (a', Some e) => (a', Some e)
      end
  end.

End Exc.

Import Exc.

(* ================================================================== *)
(** ** The document object model                                       *)
(* ================================================================== *)

(** The scripts walk the object model of the document library: a document
    holds top-level paragraphs and tables and a list of sections, each
    with a header and a footer; a table is rows of cells of paragraphs.

    A paragraph is a sequence of runs and hyperlinks; a hyperlink holds
    runs of its own.  [paragraph.runs] lists the runs that stand in the
    paragraph itself, not those inside a hyperlink, while
    [paragraph.text] is the text of the runs and of the hyperlinks, in
    their order.  (A version of the library without hyperlinks shows the
    paragraphs that have none.)

    A run owns a text and a formatting.  Assigning to [run.text] keeps
    the formatting, clears the content of the run and appends the new
    text piece by piece: a tab and a line break become elements of their
    own, and the text between them goes into a text element, which the
    XML library refuses when it holds a character XML cannot hold.

    The document is taken as a tree: a cell or a header that the library
    would list more than once (a merged cell, a header linked to the one
    before) counts once. *)

Module Docx.

Record run := { run_text : str; run_style : nat }.

Definition TAB : char := 9%N.

(** The characters the XML library takes in a text: tab, line feed,
    carriage return and everything from the space on, but for U+FFFE
    and U+FFFF. *)
Definition xml_char (c : char) : bool :=
  ((c =? 9) || (c =? 10) || (c =? 13) || (32 <=? c))%N
  && negb (c =? 65534)%N && negb (c =? 65535)%N.

(** A surrogate code point cannot be encoded as UTF-8. *)
Definition surrogate (c : char) : bool :=
  ((55296 <=? c) && (c <=? 57343))%N.

(** The exception of the text element given the text [t], if any. *)
Definition text_error (t : str) : option exn :=
  if existsb surrogate t then Some UnicodeEncodeError
  else if forallb xml_char t then None
  else Some ValueError.

(** The text gathered so far, [buf], goes into a new text element
    after [content], unless it is empty. *)
Definition flush (content buf : str) : str * option exn :=
  match buf with
  | [] => (content, None)
  | _ :: _ =>
      match text_error buf with
      | None => (content ++ buf, None)
      | Some e => (content, Some e)
      end
  end.

(** The characters of [t] are appended one by one: a tab flushes the
    text gathered and adds a tab element; a line feed and a carriage
    return flush it and add a break, which reads as a line feed; any
    other character is gathered. *)
Fixpoint append_text (content buf t : str) : str * option exn :=
  match t with
  | [] => flush content buf
  | c :: t' =>
      if (c =? TAB)%N then
        match flush content buf with
        | (content', None) => append_text (content' ++ [TAB]) [] t'
        | (content', Some e) => (content', Some e)
        end
      else if ((c =? LF) || (c =? CR))%N then
        match flush content buf with
        | (content', None) => append_text (content' ++ [LF]) [] t'
        | (content', Some e) => (content', Some e)
        end
      else append_text content (buf ++ [c]) t'
  end.

(** What a run reads as after [run.text = t], and the exception if the
    assignment raised. *)
Definition written (t : str) : str * option exn := append_text [] [] t.

(** [run.text = t]. *)
Definition set_text (t : str) : upd run :=
  fun r =>
    let (t', e) := written t in
    ({| run_text := t'; run_style := run_style r |}, e).

Record hyperlink := { link_runs : list run }.

Inductive item :=
| Text_run (r : run)
| Link (h : hyperlink).

Record paragraph := { children : list item }.

Definition set_children (p : paragraph) (its : list item) : paragraph :=
  {| children := its |}.

(** [paragraph.runs]. *)
Fixpoint direct_runs (its : list item) : list run :=
  match its with
  | [] => []
  | Text_run r :: its' => r :: direct_runs its'
  | Link _ :: its' => direct_runs its'
  end.

Definition runs (p : paragraph) : list run := direct_runs (children p).

Definition hyperlink_text (h : hyperlink) : str :=
  List.concat (map run_text (link_runs h)).

Definition item_text (it : item) : str :=
  match it with
  | Text_run r => run_text r
  | Link h => hyperlink_text h
  end.

(** [paragraph.text]. *)
Definition paragraph_text (p : paragraph) : str :=
  List.concat (map item_text (children p)).

(** A statement on the runs of [paragraph.runs], each with its index:
    [body i] is what is done to [paragraph.runs[i]].  The runs are
    taken in their order, from the index [i] on; the hyperlinks are
    passed over. *)
Fixpoint on_runs_from (i : nat) (body : nat -> upd run) (its : list item)
  : list item * option exn :=
  match its with
  | [] => ([], None)
  | Link h :: its' =>
      let (rest, e) := on_runs_from i body its' in (Link h :: rest, e)
  | Text_run r :: its' =>
      match body i r with
      | (r', None) =>
          let (rest, e) := on_runs_from (S i) body its' in
          (Text_run r' :: rest, e)
      | (r', Some e) => (Text_run r' :: its', Some e)
      end
  end.

Definition on_runs (body : nat -> upd run) : upd paragraph :=
  field children set_children (on_runs_from 0 body).

(** [for run in paragraph.runs: body(run)]. *)
Definition for_runs (body : upd run) : upd paragraph :=
  on_runs (fun _ => body).

(** [body(paragraph.runs[0])], for a paragraph that has a run. *)
Definition first_run (body : upd run) : upd paragraph :=
  on_runs (fun i => match i with O => body | S _ => skip end).

(** [for run in paragraph.runs[1:]: body(run)]. *)
Definition other_runs (body : upd run) : upd paragraph :=
  on_runs (fun i => match i with O => skip | S _ => body end).

(** [paragraph.add_run(t)]: a new run with the default formatting is
    put at the end of the paragraph; its text is set when [t] is not
    empty. *)
Definition add_run (t : str) : upd paragraph :=
  fun p =>
    let r := {| run_text := []; run_style := 0 |} in
    let (r', e) := if truthy t then set_text t r else (r, None) in
    ({| children := children p ++ [Text_run r'] |}, e).

Record cell := { cell_paragraphs : list paragraph }.
Record row := { cells : list cell }.
Record table := { rows : list row }.

Record header_footer :=
  { hf_paragraphs : list paragraph; hf_tables : list table }.

Record section := { header : header_footer; footer : header_footer }.

Record document :=
  { paragraphs : list paragraph;
    tables : list table;
    sections : list section }.

(** The parts of these objects, as places a statement can change. *)
Definition set_cell_paragraphs (c : cell) (ps : list paragraph) : cell :=
  {| cell_paragraphs := ps |}.
Definition set_cells (r : row) (cs : list cell) : row := {| cells := cs |}.
Definition set_rows (t : table) (rs : list row) : table := {| rows := rs |}.
Definition set_hf_paragraphs (hf : header_footer) (ps : list paragraph)
  : header_footer :=
  {| hf_paragraphs := ps; hf_tables := hf_tables hf |}.
Definition set_hf_tables (hf : header_footer) (ts : list table)
  : header_footer :=
  {| hf_paragraphs := hf_paragraphs hf; hf_tables := ts |}.
Definition set_header (s : section) (hf : header_footer) : section :=
  {| header := hf; footer := footer s |}.
Definition set_footer (s : section) (hf : header_footer) : section :=
  {| header := header s; footer := hf |}.
Definition set_paragraphs (d : document) (ps : list paragraph) : document :=
  {| paragraphs := ps; tables := tables d; sections := sections d |}.
Definition set_tables (d : document) (ts : list table) : document :=
  {| paragraphs := paragraphs d; tables := ts; sections := sections d |}.
Definition set_sections (d : document) (ss : list section) : document :=
  {| paragraphs := paragraphs d; tables := tables d; sections := ss |}.

End Docx.

Import Docx.


(* ================================================================== *)
(** ** Paths, files and the console                                    *)
(* ================================================================== *)

Module Os.

(** A [pathlib.Path], as the list of its components.  Two paths name
    the same file when their components are the same. *)
Definition path := list str.

Fixpoint path_eqb (p q : path) : bool :=
  match p, q with
  | [], [] => true
  | a :: p', b :: q' => Str.eqb a b && path_eqb p' q'
  | _, _ => false
  end.

(** [p.name], [p.parent] and [p / n]. *)
Definition name (p : path) : str := last p [].
Definition parent (p : path) : path := removelast p.
Definition joinpath (p : path) (n : str) : path := p ++ [n].

Definition DOT : char := 46%N.

(** [name.rfind('.')], as the pair of [name[:i]] and [name[i+1:]]. *)
Definition rsplit_dot (n : str) : option (str * str) :=
  match partition (rev n) DOT with
  | Some (a, b) => Some (rev b, rev a)
  | None => None
  end.

(** [p.stem] and [p.suffix]: the name is cut at its last dot when
    [0 < i < len(name) - 1]. *)
Definition stem (p : path) : str :=
  match rsplit_dot (name p) with
  | Some (a, b) => if truthy a && truthy b then a else name p
  | None => name p
  end.

Definition suffix (p : path) : str :=
  match rsplit_dot (name p) with
  | Some (a, b) => if truthy a && truthy b then DOT :: b else []
  | None => []
  end.

(** [name.endswith(ext)], the test behind [glob('*' + ext)]. *)
Definition endswith (n ext : str) : bool := startswith (rev n) (rev ext).

(** What a file holds: a word-processor package with its document tree,
    a text that decodes as UTF-8, or other bytes.  A text and other
    bytes are no archive. *)
Inductive content :=
| Docx (d : document)
| Text (s : str)
| Other (bytes : list N).

Inductive node :=
| Dir
| File (c : content).

(** The file system: the entries that exist, in the order in which the
    system lists them. *)
Definition filesystem := list (path * node).

Fixpoint lookup (f : filesystem) (p : path) : option node :=
  match f with
  | [] => None
  | (q, n) :: f' => if path_eqb q p then Some n else lookup f' p
  end.

Fixpoint store (f : filesystem) (p : path) (n : node) : filesystem :=
  match f with
  | [] => [(p, n)]
  | (q, m) :: f' =>
      if path_eqb q p then (q, n) :: f' else (q, m) :: store f' p n
  end.

Fixpoint remove (f : filesystem) (p : path) : filesystem :=
  match f with
  | [] => []
  | (q, m) :: f' =>
      if path_eqb q p then remove f' p else (q, m) :: remove f' p
  end.

(** The path without components is the working directory. *)
Definition is_dir (f : filesystem) (p : path) : bool :=
  match p with
  | [] => true
  | _ :: _ => match lookup f p with Some Dir => true | _ => false end
  end.

Definition exists_ (f : filesystem) (p : path) : bool :=
  match p with
  | [] => true
  | _ :: _ => match lookup f p with Some _ => true | None => false end
  end.

(** [d.glob('*' + ext)]: the entries of [d] whose name ends in [ext]. *)
Definition glob (f : filesystem) (d : path) (ext : str) : list path :=
  map fst
    (filter (fun e => match fst e with
                      | [] => false
                      | _ :: _ => path_eqb (parent (fst e)) d
                                  && endswith (name (fst e)) ext
                      end) f).

(** What the raw-markup pass reports: a node whose [text] or [tail]
    could not be set, with its tag, or the end of the pass, each with
    the text of the exception. *)
Inductive warning :=
| TextWarning (tag e : str)
| TailWarning (tag e : str)
| XmlWarning (e : str).

(** The lines the scripts print. *)
Inductive msg :=
| MsgConverted (docx_path : path)
| MsgConvertError (e : exn)
| MsgTextWarning (tag e : str)
| MsgTailWarning (tag e : str)
| MsgXmlWarning (e : str)
| MsgFinalWarning (e : exn)
| MsgSaved (output_path : path)
| MsgProcessingPdf (pdf_path : path)
| MsgStep1
| MsgConvertFailed
| MsgStep2
| MsgLoaded (n : nat)
| MsgStep3
| MsgCleanedUp
| MsgNoPdf
| MsgFound (n : nat)
| MsgRule
| MsgProcessing (name : str)
| MsgSuccess (name result_name : str)
| MsgFailed (name : str)
| MsgError (name : str) (e : exn).

Definition warning_msg (x : warning) : msg :=
  match x with
  | TextWarning tag e => MsgTextWarning tag e
  | TailWarning tag e => MsgTailWarning tag e
  | XmlWarning e => MsgXmlWarning e
  end.

Record world := { files : filesystem; console : list msg }.

(** An action reads and changes the world and returns or raises; what
    it did before raising stays done. *)
Definition io (A : Type) := world -> world * outcome A.

Definition ret {A} (a : A) : io A := fun w => (w, Return a).

Definition raise {A} (e : exn) : io A := fun w => (w, Raise e).

Definition bind {A B} (m : io A) (k : A -> io B) : io B :=
  fun w =>
    match m w with
    | (w', Return a) => k a w'
    | (w', Raise e) => (w', Raise e)
    end.

(** [try: m  except Exception as e: h e]. *)
Definition try_except {A} (m : io A) (h : exn -> io A) : io A :=
  fun w =>
    match m w with
    | (w', Return a) => (w', Return a)
    | (w', Raise e) => h e w'
    end.

(** [print(...)]. *)
Definition print (m : msg) : io unit :=
  fun w => ({| files := files w; console := console w ++ [m] |}, Return tt).

Definition get_files : io filesystem := fun w => (w, Return (files w)).

Definition put_files (f : filesystem) : io unit :=
  fun w => ({| files := f; console := console w |}, Return tt).

(** A pure computation that may raise, run as an action. *)
Definition lift {A} (o : outcome A) : io A := fun w => (w, o).

(** A statement on an object of the program, run as an action: the
    action returns the object as changed, or raises what the statement
    raised, and the object is out of reach. *)
Definition changed {A} (r : A * option exn) : io A :=
  fun w =>
    match r with
    | (a, None) => (w, Return a)
    | (_, Some e) => (w, Raise e)
    end.

(** [for x in xs: body x]: an exception ends the loop. *)
Fixpoint for_each {A} (xs : list A) (body : A -> io unit) : io unit :=
  match xs with
  | [] => ret tt
  | x :: xs' => bind (body x) (fun _ => for_each xs' body)
  end.

(** [p.mkdir(parents=True, exist_ok=True)]: the missing directories
    are made from the top; an existing directory is kept; a file in
    the way raises.  [done] is the part of the path already there. *)
Fixpoint mkdir_from (done todo : path) (f : filesystem)
  : filesystem * outcome unit :=
  match todo with
  | [] => (f, Return tt)
  | c :: todo' =>
      let q := done ++ [c] in
      match lookup f q with
      | None => mkdir_from q todo' (store f q Dir)
      | Some Dir => mkdir_from q todo' f
      | Some (File _) =>
          (f, Raise match todo' with
                    | [] => FileExistsError
                    | _ :: _ => NotADirectoryError
                    end)
      end
  end.

Definition mkdir (p : path) : io unit :=
  fun w =>
    let (f, o) := mkdir_from [] p (files w) in
    ({| files := f; console := console w |}, o).

(** [Document(p)] for a [Path]: the library hands the path to
    [zipfile.ZipFile], which opens the file and looks for an archive
    in it. *)
Definition Document (p : path) : io document :=
  fun w =>
    match p with
    | [] => (w, Raise IsADirectoryError)
    | _ :: _ =>
        match lookup (files w) p with
        | None => (w, Raise FileNotFoundError)
        | Some Dir => (w, Raise IsADirectoryError)
        | Some (File (Docx d)) => (w, Return d)
        | Some (File _) => (w, Raise BadZipFile)
        end
    end.

(** [doc.save(p)]: the directory of [p] must be there and [p] must not
    be a directory. *)
Definition save (d : document) (p : path) : io unit :=
  fun w =>
    match p with
    | [] => (w, Raise IsADirectoryError)
    | _ :: _ =>
        if is_dir (files w) (parent p) then
          match lookup (files w) p with
          | Some Dir => (w, Raise IsADirectoryError)
          | _ => ({| files := store (files w) p (File (Docx d));
                     console := console w |}, Return tt)
          end
        else (w, Raise FileNotFoundError)
    end.

(** [p.open('r', encoding='utf-8')] and the reading of the text. *)
Definition read_text (p : path) : io str :=
  fun w =>
    match p with
    | [] => (w, Raise IsADirectoryError)
    | _ :: _ =>
        match lookup (files w) p with
        | None => (w, Raise FileNotFoundError)
        | Some Dir => (w, Raise IsADirectoryError)
        | Some (File (Text s)) => (w, Return s)
        | Some (File _) => (w, Raise UnicodeDecodeError)
        end
    end.

(** [p.unlink()]. *)
Definition unlink (p : path) : io unit :=
  fun w =>
    match p with
    | [] => (w, Raise IsADirectoryError)
    | _ :: _ =>
        match lookup (files w) p with
        | None => (w, Raise FileNotFoundError)
        | Some Dir => (w, Raise IsADirectoryError)
        | Some (File _) =>
            ({| files := remove (files w) p; console := console w |},
             Return tt)
        end
    end.

End Os.

Import Os.

Notation "x <- m ;; k" := (bind m (fun x => k))
  (at level 61, m at next level, right associativity).
Notation "m ;;; k" := (bind m (fun _ => k))
  (at level 61, right associativity).

(** The mapping applied to one string, entry after entry in the order of
    [mapping.items()]: the loop

      [for src, dst in mapping.items(): new_text = new_text.replace(src, dst)]

    of the rebuild pass. *)
Definition replace_all (text : str) (mapping : dict) : str :=
  fold_left (fun t e => replace t (fst e) (snd e)) (items mapping) text.

(** The scan of the raw-markup pass and of the final pass:

      [for src, dst in mapping.items():
           if src in original_text:
               original_text = original_text.replace(src, dst)
               modified = True]  *)
Definition scan_step (st : str * bool) (e : str * str) : str * bool :=
  if str_in (fst e) (fst st)
  then (replace (fst st) (fst e) (snd e), true)
  else st.

Definition scan (text : str) (mapping : dict) : str * bool :=
  fold_left scan_step (items mapping) (text, false).


(* ================================================================== *)
(** ** The mapping loader                                              *)
(* ================================================================== *)

(** [load_mapping] is the same function in both scripts.  Its loop over
    the lines of the file is [load_lines]; opening the file is left to
    each script's [load_mapping]. *)

Definition EQUALS : char := 61%N.

(** One turn of [for line in f].  The unpacking [src, dst = ...] raises
    [ValueError] when the split does not give two strings. *)
Definition load_line (mapping : dict) (line : str) : outcome dict :=
  let line := strip line in
  if negb (truthy line) || negb (str_in (lit "=") line)
  then Return mapping
  else match split1 line EQUALS with
       | [src; dst] => Return (setitem mapping src dst)
       | _ => Raise ValueError
       end.

Fixpoint load_lines (mapping : dict) (lines : list str) : outcome dict :=
  match lines with
  | [] => Return mapping
  | line :: lines' =>
      match load_line mapping line with
      | Return mapping' => load_lines mapping' lines'
      | Raise e => Raise e
      end
  end.

(** The loader on the text of the mapping file. *)
Definition load_text (content : str) : outcome dict :=
  load_lines empty (readlines content).

(** The name of the output file:
    [f"{doc_path.stem}_translated{doc_path.suffix}"]. *)
Definition translated_name (doc_path : path) : str :=
  stem doc_path ++ lit "_translated" ++ suffix doc_path.

(* ================================================================== *)
(** ** The substitution engine of [translate.py]                       *)
(* ================================================================== *)

Module Translate.

(** The body of [for run in paragraph.runs]. *)
Definition replace_in_run (src dst : str) : upd run :=
  fun r =>
    if str_in src (run_text r)
    then set_text (replace (run_text r) src dst) r
    else (r, None).

(** The body of [for src, dst in mapping.items()]. *)
Definition replace_entry (src dst : str) : upd paragraph :=
  fun p =>
    if str_in src (paragraph_text p)
    then for_runs (replace_in_run src dst) p
    else (p, None).

Definition replace_in_paragraph (p : paragraph) (mapping : dict)
  : paragraph * option exn :=
  for_items (items mapping) replace_entry p.

Definition replace_in_cell (mapping : dict) : upd cell :=
  field cell_paragraphs set_cell_paragraphs
    (each (fun p => replace_in_paragraph p mapping)).

Definition replace_in_row (mapping : dict) : upd row :=
  field cells set_cells (each (replace_in_cell mapping)).

Definition replace_in_table (t : table) (mapping : dict)
  : table * option exn :=
  field rows set_rows (each (replace_in_row mapping)) t.

Definition replace_in_header_footer (hf : header_footer) (mapping : dict)
  : header_footer * option exn :=
  seq (field hf_paragraphs set_hf_paragraphs
         (each (fun p => replace_in_paragraph p mapping)))
      (field hf_tables set_hf_tables
         (each (fun t => replace_in_table t mapping)))
      hf.

(** The body of [for section in doc.sections]. *)
Definition replace_in_section (mapping : dict) : upd section :=
  seq (field header set_header
         (fun hf => replace_in_header_footer hf mapping))
      (field footer set_footer
         (fun hf => replace_in_header_footer hf mapping)).

(** The three loops of [translate_document], between loading and
    saving. *)
Definition translate_tree (doc : document) (mapping : dict)
  : document * option exn :=
  seq (field paragraphs set_paragraphs
         (each (fun p => replace_in_paragraph p mapping)))
      (seq (field tables set_tables
              (each (fun t => replace_in_table t mapping)))
           (field sections set_sections
              (each (replace_in_section mapping))))
      doc.

(** [load_mapping(mapping_file)]. *)
Definition load_mapping (mapping_file : path) : io dict :=
  content <- read_text mapping_file ;;
  lift (load_text content).

Definition translate_document
  (doc_path : path) (mapping : dict) (output_dir : path) : io path :=
  doc <- Document doc_path ;;
  doc <- changed (translate_tree doc mapping) ;;
  mkdir output_dir ;;;
  let output_path := joinpath output_dir (translated_name doc_path) in
  save doc output_path ;;;
  ret output_path.

(** The loop of [main] over the files found. *)
Definition main_loop (docs : list path) (mapping : dict) (output_dir : path)
  : io unit :=
  for_each docs
    (fun doc_path =>
       translate_document doc_path mapping output_dir ;;; ret tt).

Definition main : io unit :=
  let input_dir := [lit "invoice"] in
  let output_dir := [lit "translated"] in
  let mapping_file := [lit "words.txt"] in
  f <- get_files ;;
  if negb (exists_ f input_dir) then raise FileNotFoundError
  else
    mapping <- load_mapping mapping_file ;;
    f <- get_files ;;
    main_loop (glob f input_dir (lit ".docx")) mapping output_dir.

End Translate.

(* ================================================================== *)
(** ** The substitution engine of [pdf_translator_structured.py]       *)
(* ================================================================== *)

Module Structured.

(** The write of the rebuild pass: the new text goes to the first run
    and the other runs are blanked; a paragraph without runs is left as
    it is ([if paragraph.runs:]). *)
Definition rebuild (new_text : str) : upd paragraph :=
  fun p =>
    match runs p with
    | [] => (p, None)
    | _ :: _ =>
        seq (first_run (set_text new_text)) (other_runs (set_text [])) p
    end.

(** The body of the second [for src, dst in mapping.items()]: the inner
    loop runs over the whole mapping again. *)
Definition rebuild_entry (mapping : dict) (src dst : str) : upd paragraph :=
  fun p =>
    if str_in src (paragraph_text p)
    then rebuild (replace_all (paragraph_text p) mapping) p
    else (p, None).

(** The run-local loop, the same as in [translate.py], then the rebuild
    loop. *)
Definition replace_in_paragraph (p : paragraph) (mapping : dict)
  : paragraph * option exn :=
  seq (for_items (items mapping) Translate.replace_entry)
      (for_items (items mapping) (rebuild_entry mapping))
      p.

Definition replace_in_cell (mapping : dict) : upd cell :=
  field cell_paragraphs set_cell_paragraphs
    (each (fun p => replace_in_paragraph p mapping)).

Definition replace_in_row (mapping : dict) : upd row :=
  field cells set_cells (each (replace_in_cell mapping)).

Definition replace_in_table (t : table) (mapping : dict)
  : table * option exn :=
  field rows set_rows (each (replace_in_row mapping)) t.

(** The objects of the document library have no [shapes] attribute, so
    the [hasattr(..., 'shapes')] branches do not run. *)
Definition replace_in_header_footer (hf : header_footer) (mapping : dict)
  : header_footer * option exn :=
  seq (field hf_paragraphs set_hf_paragraphs
         (each (fun p => replace_in_paragraph p mapping)))
      (field hf_tables set_hf_tables
         (each (fun t => replace_in_table t mapping)))
      hf.

(** The body of [for section in doc.sections]. *)
Definition replace_in_section (mapping : dict) : upd section :=
  seq (field header set_header
         (fun hf => replace_in_header_footer hf mapping))
      (field footer set_footer
         (fun hf => replace_in_header_footer hf mapping)).

(** The body of the final pass for one paragraph. *)
Definition final_pass_paragraph (mapping : dict) : upd paragraph :=
  fun p =>
    if truthy (paragraph_text p) then
      let (original_text, modified) := scan (paragraph_text p) mapping in
      if modified then
        seq (for_runs (set_text []))
            (fun p =>
               match runs p with
               | _ :: _ => first_run (set_text original_text) p
               | [] => add_run original_text p
               end)
            p
      else (p, None)
    else (p, None).

(** The substitution engine on one top-level paragraph, without the
    raw-markup pass: [replace_in_paragraph], then the final pass. *)
Definition substitute (p : paragraph) (mapping : dict)
  : paragraph * option exn :=
  seq (fun p => replace_in_paragraph p mapping)
      (final_pass_paragraph mapping)
      p.

(** The loops of [translate_document_preserve_formatting] over the
    paragraphs, the tables and the sections of the document. *)
Definition substitute_tree (doc : document) (mapping : dict)
  : document * option exn :=
  seq (field paragraphs set_paragraphs
         (each (fun p => replace_in_paragraph p mapping)))
      (seq (field tables set_tables
              (each (fun t => replace_in_table t mapping)))
           (field sections set_sections
              (each (replace_in_section mapping))))
      doc.

(** The loop of the final pass, over the top-level paragraphs. *)
Definition final_pass_loop (mapping : dict) : upd document :=
  field paragraphs set_paragraphs (each (final_pass_paragraph mapping)).

(** The final pass: its exception is caught and reported, and the
    document stays as the loop left it. *)
Definition final_pass (doc : document) (mapping : dict) : io document :=
  match final_pass_loop mapping doc with
  | (doc', None) => ret doc'
  | (doc', Some e) => print (MsgFinalWarning e) ;;; ret doc'
  end.

Section Collaborators.

(** The converter of the PDF library: [Converter(pdf).convert(docx)]
    and [close()], on the files alone. *)
Variable Converter : path -> path -> filesystem -> filesystem * outcome unit.

(** The raw-markup pass walks the XML tree that the document library
    keeps under the document, with the iterator of the XML library,
    and reads and sets [text] and [tail] as the nodes of that tree
    answer them.  It is taken as it comes: the document after the
    pass and the warnings printed on the way.  The pass catches
    every exception, so it returns. *)
Variable markup_pass : document -> dict -> document * list warning.

Definition convert_pdf_to_docx_preserve_structure
  (pdf_path docx_path : path) : io bool :=
  try_except
    (f <- get_files ;;
     let (f', o) := Converter pdf_path docx_path f in
     put_files f' ;;;
     lift o ;;;
     print (MsgConverted docx_path) ;;;
     ret true)
    (fun e => print (MsgConvertError e) ;;; ret false).

(** The raw-markup pass over the whole document. *)
Definition raw_markup_pass (doc : document) (mapping : dict)
  : io document :=
  let (doc', warnings) := markup_pass doc mapping in
  for_each warnings (fun x => print (warning_msg x)) ;;;
  ret doc'.

Definition translate_document_preserve_formatting
  (doc_path : path) (mapping : dict) (output_dir : path) : io path :=
  doc <- Document doc_path ;;
  doc <- changed (substitute_tree doc mapping) ;;
  doc <- raw_markup_pass doc mapping ;;
  doc <- final_pass doc mapping ;;
  mkdir output_dir ;;;
  let output_path := joinpath output_dir (translated_name doc_path) in
  save doc output_path ;;;
  print (MsgSaved output_path) ;;;
  ret output_path.

(** [load_mapping(mapping_file)]. *)
Definition load_mapping (mapping_file : path) : io dict :=
  content <- read_text mapping_file ;;
  lift (load_text content).

Definition process_pdf_to_structured_docx
  (pdf_path mapping_file output_dir : path) : io (option path) :=
  print (MsgProcessingPdf pdf_path) ;;;
  print MsgStep1 ;;;
  let temp_docx_path :=
    joinpath output_dir (stem pdf_path ++ lit "_structured.docx") in
  ok <- convert_pdf_to_docx_preserve_structure pdf_path temp_docx_path ;;
  if negb ok then
    print MsgConvertFailed ;;; ret None
  else
    print MsgStep2 ;;;
    mapping <- load_mapping mapping_file ;;
    print (MsgLoaded (List.length mapping)) ;;;
    print MsgStep3 ;;;
    translated_path <-
      translate_document_preserve_formatting
        temp_docx_path mapping output_dir ;;
    try_except
      (unlink temp_docx_path ;;; print MsgCleanedUp)
      (fun _ => ret tt) ;;;
    ret (Some translated_path).

(** One turn of the loop of [main]. *)
Definition main_step (mapping_file output_dir pdf_path : path) : io unit :=
  print MsgRule ;;;
  print (MsgProcessing (name pdf_path)) ;;;
  print MsgRule ;;;
  try_except
    (result <-
       process_pdf_to_structured_docx pdf_path mapping_file output_dir ;;
     match result with
     | Some r => print (MsgSuccess (name pdf_path) (name r))
     | None => print (MsgFailed (name pdf_path))
     end)
    (fun e => print (MsgError (name pdf_path) e)).

Definition main_loop (pdf_files : list path)
  (mapping_file output_dir : path) : io unit :=
  for_each pdf_files (main_step mapping_file output_dir).

Definition main : io unit :=
  let input_dir := [lit "invoice"] in
  let output_dir := [lit "translated"] in
  let mapping_file := [lit "words.txt"] in
  f <- get_files ;;
  if negb (exists_ f input_dir) then raise FileNotFoundError
  else if negb (exists_ f mapping_file) then raise FileNotFoundError
  else
    let pdf_files := glob f input_dir (lit ".pdf") in
    match pdf_files with
    | [] => print MsgNoPdf
    | _ :: _ =>
        print (MsgFound (List.length pdf_files)) ;;;
        main_loop pdf_files mapping_file output_dir
    end.

End Collaborators.

End Structured.


(* ================================================================== *)
(** ** Mappings whose targets do not bring a source back               *)
(* ================================================================== *)

(** No target of the mapping contains a source of the mapping. *)
Definition no_target_contains_source (mapping : dict) : Prop :=
  forall src dst,
    In src (keys mapping) -> In dst (values mapping) -> str_in src dst = false.

(** No target contains or creates a source: replacing the source of an
    entry by its target, in any text, leaves no occurrence of that source
    and brings no source of the mapping into a text that had none. *)
Definition no_reintroduction (mapping : dict) : Prop :=
  forall src dst, In (src, dst) (items mapping) ->
  forall src', In src' (keys mapping) ->
  forall s, src' = src \/ str_in src' s = false ->
    str_in src' (replace s src dst) = false.

(** A test that is enough for [no_reintroduction]: the target is not
    empty, the source does not occur in it, and neither its first nor its
    last character occurs in the source. *)
Definition clean_pair (src dst : str) : bool :=
  truthy dst
  && negb (str_in src dst)
  && negb (existsb (N.eqb (hd 0%N dst)) src)
  && negb (existsb (N.eqb (last dst 0%N)) src).

Definition separated (mapping : dict) : bool :=
  forallb (fun src => forallb (clean_pair src) (values mapping))
          (keys mapping).

(** The entry a line of the mapping file stands for, if any: the line is
    stripped and cut at its first ['=']. *)
Definition line_entry (line : str) : list (str * str) :=
  match partition (strip line) EQUALS with
  | Some (src, dst) => [(src, dst)]
  | None => []
  end.

(** The entries of a text, in the order of its lines, set one after the
    other. *)
Definition set_entries (mapping : dict) (entries : list (str * str)) : dict :=
  fold_left (fun m e => setitem m (fst e) (snd e)) entries mapping.

(** Plain runs, paragraphs and entries for the examples. *)
Definition plain (s : string) : run :=
  {| run_text := lit s; run_style := 0 |}.
Definition para (l : list string) : paragraph :=
  {| children := map (fun s => Text_run (plain s)) l |}.

(** A paragraph with a hyperlink between two runs: its text is
    ["See Invoice now"], and [paragraph.runs] lists the runs ["See "]
    and [" now"]. *)
Definition linked : paragraph :=
  {| children :=
       [ Text_run (plain "See ");
         Link {| link_runs := [plain "Invoice"] |};
         Text_run (plain " now") ] |}.
Definition entry (src dst : string) : str * str := (lit src, lit dst).

(** No source of the mapping occurs in the text. *)
Definition source_free (mapping : dict) (s : str) : Prop :=
  forall src, In src (keys mapping) -> str_in src s = false.

(** The strings a run keeps as they are: [run.text = t] returns and the
    run then reads [t].  They hold no carriage return, which the run
    would read back as a line feed, no character that XML cannot hold
    and no surrogate. *)
Definition verbatim_char (c : char) : bool :=
  xml_char c && negb (surrogate c) && negb (c =? CR)%N.

Definition verbatim (t : str) : bool := forallb verbatim_char t.

(** Every target of the mapping is such a string. *)
Definition verbatim_mapping (mapping : dict) : Prop :=
  forall dst, In dst (values mapping) -> verbatim dst = true.

(** So is the text of every run of [paragraph.runs]. *)
Definition verbatim_paragraph (p : paragraph) : Prop :=
  forall r, In r (runs p) -> verbatim (run_text r) = true.

(** The paragraph has no hyperlink: all its text is in the runs of
    [paragraph.runs]. *)
Definition no_links (p : paragraph) : Prop :=
  children p = map Text_run (runs p).

(** A run with its text changed by [f], and a paragraph with the text
    of every run of [paragraph.runs] changed by [f]. *)
Definition retext (f : str -> str) (r : run) : run :=
  {| run_text := f (run_text r); run_style := run_style r |}.

Definition on_run (g : run -> run) (it : item) : item :=
  match it with
  | Text_run r => Text_run (g r)
  | Link h => Link h
  end.

Definition map_runs (g : run -> run) (p : paragraph) : paragraph :=
  {| children := map (on_run g) (children p) |}.

(** The first run of [paragraph.runs] changed by [g], and the runs
    after the first changed by [g]. *)
Fixpoint on_first (g : run -> run) (its : list item) : list item :=
  match its with
  | [] => []
  | Link h :: its' => Link h :: on_first g its'
  | Text_run r :: its' => Text_run (g r) :: its'
  end.

Fixpoint on_others (g : run -> run) (its : list item) : list item :=
  match its with
  | [] => []
  | Link h :: its' => Link h :: on_others g its'
  | Text_run r :: its' => Text_run r :: map (on_run g) its'
  end.

(** A run with its text blanked. *)
Definition blank (r : run) : run := retext (fun _ => []) r.

(** The text of a paragraph through the rebuild loop: at every entry
    whose source occurs in the text, the whole mapping is swept over the
    text. *)
Definition rebuild_text (mapping : dict) (text : str) : str :=
  fold_left
    (fun t e => if str_in (fst e) t then replace_all t mapping else t)
    (items mapping) text.

(** Two paragraphs with the same runs and hyperlinks, but for what [R]
    allows between a run and the run in its place. *)
Definition item_rel (R : run -> run -> Prop) (a b : item) : Prop :=
  match a, b with
  | Text_run r, Text_run r' => R r r'
  | Link h, Link h' => h = h'
  | _, _ => False
  end.

Definition paragraph_rel (R : run -> run -> Prop) (p p' : paragraph) : Prop :=
  Forall2 (item_rel R) (children p) (children p').

(** The document [translate_document_preserve_formatting] saves, from the
    document it loaded, when the loops over the document return. *)
Definition structured_result
  (markup_pass : document -> dict -> document * list warning)
  (doc : document) (mapping : dict) : document :=
  let doc1 := fst (Structured.substitute_tree doc mapping) in
  let doc2 := fst (markup_pass doc1 mapping) in
  fst (Structured.final_pass_loop mapping doc2).

(** The lines [main] of [pdf_translator_structured.py] prints for a
    file: the line that names it and the line of its outcome. *)
Definition is_loop_msg (m : msg) : bool :=
  match m with
  | MsgProcessing _ | MsgSuccess _ _ | MsgFailed _ | MsgError _ _ => true
  | _ => false
  end.

(** [m] is a line of outcome for the file [pdf_path]. *)
Definition reports (pdf_path : path) (m : msg) : Prop :=
  (exists r, m = MsgSuccess (name pdf_path) r)
  \/ m = MsgFailed (name pdf_path)
  \/ (exists e, m = MsgError (name pdf_path) e).

Fixpoint loop_lines (pdf_files : list path) (outcomes : list msg)
  : list msg :=
  match pdf_files, outcomes with
  | p :: ps, o :: os => MsgProcessing (name p) :: o :: loop_lines ps os
  | _, _ => []
  end.

(** The line of outcome for a file, from the way its job ended. *)
Definition job_line (pdf_path : path) (res : outcome (option path)) : msg :=
  match res with
  | Return (Some r) => MsgSuccess (name pdf_path) (name r)
  | Return None => MsgFailed (name pdf_path)
  | Raise e => MsgError (name pdf_path) e
  end.

(** The console with one more line. *)
Definition say (w : world) (m : msg) : world :=
  {| files := files w; console := console w ++ [m] |}.

(** The world after the turn of the loop of [main] for one file: the
    three lines that announce the file, the job of the file, and the
    line of its outcome. *)
Definition after_job
  (Converter : path -> path -> filesystem -> filesystem * outcome unit)
  (markup_pass : document -> dict -> document * list warning)
  (mapping_file output_dir : path) (w : world) (pdf_path : path) : world :=
  let w0 := say (say (say w MsgRule) (MsgProcessing (name pdf_path)))
                MsgRule in
  let (w1, res) :=
    Structured.process_pdf_to_structured_docx
      Converter markup_pass pdf_path mapping_file output_dir w0 in
  say w1 (job_line pdf_path res).

(** An action is quiet when it prints none of the lines of the loop of
    [main]. *)
Definition quiet {A : Type} (m : io A) : Prop :=
  forall w w' o,
    m w = (w', o) ->
    exists l, console w' = console w ++ l
              /\ Forall (fun x => is_loop_msg x = false) l.

(** A small world for the examples: a directory [invoice] with a file
    that is no document and a document, and the mapping file. *)
Definition sample_doc : document :=
  {| paragraphs := [para ["Inv"; "oice #123"]%string];
     tables := [];
     sections := [] |}.

Definition sample_mapping : dict := [entry "Invoice" "Factura"].

Definition sample_world : world :=
  {| files :=
       [ ([lit "invoice"], Dir);
         ([lit "invoice"; lit "broken.docx"], File (Other []));
         ([lit "invoice"; lit "invoice_2024.docx"], File (Docx sample_doc));
         ([lit "words.txt"],
          File (Text (lit "Invoice=Factura" ++ [LF]))) ];
     console := [] |}.

(** A raw-markup pass for the examples: it changes nothing. *)
Definition no_markup (d : document) (mapping : dict)
  : document * list warning := (d, []).


(* ================================================================== *)
(** ** Notions for the further properties                              *)
(* ================================================================== *)

(** The target of the last entry whose source is [k], if there is one. *)
Fixpoint last_target (entries : list (str * str)) (k : str) : option str :=
  match entries with
  | [] => None
  | (a, b) :: entries' =>
      match last_target entries' k with
      | Some v => Some v
      | None => if Str.eqb a k then Some b else None
      end
  end.

(** [k] is one of [seen]. *)
Definition mem (k : str) (seen : list str) : bool :=
  existsb (fun k' => Str.eqb k' k) seen.

(** The strings of [l] that are not in [seen], each at its first
    occurrence. *)
Fixpoint first_occurrences (l : list str) (seen : list str) : list str :=
  match l with
  | [] => []
  | a :: l' =>
      if mem a seen then first_occurrences l' seen
      else a :: first_occurrences l' (a :: seen)
  end.

(** The formatting of a document: what is left of it without the texts
    of the runs of [paragraph.runs].  A hyperlink counts whole. *)
Definition item_format (it : item) : nat + hyperlink :=
  match it with
  | Text_run r => inl (run_style r)
  | Link h => inr h
  end.

Definition paragraph_format (p : paragraph) : list (nat + hyperlink) :=
  map item_format (children p).

Definition table_format (t : table) :=
  map (fun r => map (fun c => map paragraph_format (cell_paragraphs c))
                    (cells r))
      (rows t).

Definition header_footer_format (hf : header_footer) :=
  (map paragraph_format (hf_paragraphs hf), map table_format (hf_tables hf)).

Definition document_format (doc : document) :=
  (map paragraph_format (paragraphs doc),
   map table_format (tables doc),
   map (fun s => (header_footer_format (header s),
                  header_footer_format (footer s)))
       (sections doc)).

(** The paragraphs the scripts visit: those of the body, of the cells of
    the tables, and of the headers and footers with their tables. *)
Definition table_paragraphs (t : table) : list paragraph :=
  flat_map (fun r => flat_map cell_paragraphs (cells r)) (rows t).

Definition header_footer_paragraphs (hf : header_footer) : list paragraph :=
  hf_paragraphs hf ++ flat_map table_paragraphs (hf_tables hf).

Definition all_paragraphs (doc : document) : list paragraph :=
  paragraphs doc
  ++ flat_map table_paragraphs (tables doc)
  ++ flat_map (fun s => header_footer_paragraphs (header s)
                        ++ header_footer_paragraphs (footer s))
              (sections doc).

(** A character that a text element refuses. *)
Definition refused (c : char) : bool := negb (xml_char c) || surrogate c.

(** The walk both scripts make over a document, with the statement [f]
    on every paragraph they visit: the paragraphs of the body, then the
    tables, then the header and the footer of every section. *)
Definition walk_table (f : upd paragraph) : upd table :=
  field rows set_rows
    (each (field cells set_cells
             (each (field cell_paragraphs set_cell_paragraphs (each f))))).

Definition walk_header_footer (f : upd paragraph) : upd header_footer :=
  seq (field hf_paragraphs set_hf_paragraphs (each f))
      (field hf_tables set_hf_tables (each (walk_table f))).

Definition walk_section (f : upd paragraph) : upd section :=
  seq (field header set_header (walk_header_footer f))
      (field footer set_footer (walk_header_footer f)).

Definition walk (f : upd paragraph) : upd document :=
  seq (field paragraphs set_paragraphs (each f))
      (seq (field tables set_tables (each (walk_table f)))
           (field sections set_sections (each (walk_section f)))).

(** A document with every paragraph the scripts visit changed by [g]. *)
Definition map_table (g : paragraph -> paragraph) (t : table) : table :=
  {| rows :=
       map (fun r =>
              {| cells :=
                   map (fun c =>
                          {| cell_paragraphs := map g (cell_paragraphs c) |})
                       (cells r) |})
           (rows t) |}.

Definition map_header_footer (g : paragraph -> paragraph)
           (hf : header_footer) : header_footer :=
  {| hf_paragraphs := map g (hf_paragraphs hf);
     hf_tables := map (map_table g) (hf_tables hf) |}.

Definition map_document (g : paragraph -> paragraph) (doc : document)
  : document :=
  {| paragraphs := map g (paragraphs doc);
     tables := map (map_table g) (tables doc);
     sections :=
       map (fun s => {| header := map_header_footer g (header s);
                        footer := map_header_footer g (footer s) |})
           (sections doc) |}.

(** The temporary document of [process_pdf_to_structured_docx]. *)
Definition temp_docx (pdf_path output_dir : path) : path :=
  joinpath output_dir (stem pdf_path ++ lit "_structured.docx").

(** A converter for the examples: it fails on [bad.pdf] and writes a
    document for any other file. *)
Definition sample_converter (pdf_path docx_path : path) (f : filesystem)
  : filesystem * outcome unit :=
  if Str.eqb (name pdf_path) (lit "bad.pdf")
  then (f, Raise (ConverterError 1))
  else (store f docx_path (File (Docx sample_doc)), Return tt).


(* ================================================================== *)
(** ** Lemmas on strings                                               *)
(* ================================================================== *)

Section StrFacts.

Lemma eqb_eq (a b : str) : Str.eqb a b = true <-> a = b.
Proof.
  revert b; induction a as [|c a IH]; intros [|d b]; simpl;
    try (split; [discriminate | discriminate]); try tauto.
  rewrite andb_true_iff, N.eqb_eq, IH.
  split; [intros [-> ->]; reflexivity | intros H; inversion H; auto].
Qed.

Lemma eqb_refl (a : str) : Str.eqb a a = true.
Proof. apply eqb_eq; reflexivity. Qed.

Lemma eqb_neq (a b : str) : Str.eqb a b = false <-> a <> b.
Proof.
  split.
  - intros H E. apply eqb_eq in E. congruence.
  - intros H. destruct (Str.eqb a b) eqn:E; auto.
    apply eqb_eq in E. contradiction.
Qed.

Lemma startswith_nil (s : str) : startswith s [] = true.
Proof. destruct s; reflexivity. Qed.

Lemma startswith_app (s p : str) :
  startswith s p = true <-> exists v, s = p ++ v.
Proof.
  revert s; induction p as [|c p IH]; intros s; simpl.
  - rewrite startswith_nil. split; eauto.
  - destruct s as [|d s].
    + split; [discriminate | intros [v H]; discriminate].
    + simpl. rewrite andb_true_iff, N.eqb_eq, IH. split.
      * intros [-> [v ->]]. eauto.
      * intros [v H]. inversion H; subst. eauto.
Qed.

Lemma str_in_nil (s : str) : str_in [] s = true.
Proof. destruct s; reflexivity. Qed.

Lemma str_in_app (p s : str) :
  str_in p s = true <-> exists u v, s = u ++ p ++ v.
Proof.
  induction s as [|c s IH]; cbn [str_in].
  - rewrite orb_false_r, startswith_app. split.
    + intros [v H]. exists [], v. exact H.
    + intros [u [v H]]. destruct u; simpl in H.
      * eauto.
      * discriminate.
  - rewrite orb_true_iff, startswith_app, IH. split.
    + intros [[v H] | [u [v H]]].
      * exists [], v. exact H.
      * exists (c :: u), v. simpl. congruence.
    + intros [u [v H]]. destruct u as [|d u]; simpl in H.
      * left. eauto.
      * right. inversion H; subst. eauto.
Qed.

(** A string that occurs in a part occurs in the whole. *)
Lemma str_in_middle (p a s b : str) :
  str_in p s = true -> str_in p (a ++ s ++ b) = true.
Proof.
  rewrite !str_in_app. intros [u [v ->]].
  exists (a ++ u), (v ++ b). now rewrite <- !app_assoc.
Qed.

Lemma str_in_skipn (p s : str) (k : nat) :
  str_in p (skipn k s) = true -> str_in p s = true.
Proof.
  intros H. rewrite <- (firstn_skipn k s).
  apply (str_in_middle p (firstn k s) (skipn k s) []) in H.
  now rewrite app_nil_r in H.
Qed.

Lemma str_in_cons_false (p : str) (c : char) (s : str) :
  str_in p (c :: s) = false ->
  startswith (c :: s) p = false /\ str_in p s = false.
Proof. cbn [str_in]. now rewrite orb_false_iff. Qed.

Lemma str_in_self (p : str) : str_in p p = true.
Proof. apply str_in_app. exists [], []. now rewrite app_nil_r. Qed.

(** ** [replace] with a source that is not empty *)

Lemma replace_from_skip (old new : str) (k : nat) (s : str) :
  replace_from k s old new = replace_from 0 (skipn k s) old new.
Proof.
  revert k; induction s as [|c s IH]; intros [|k]; try reflexivity.
  simpl skipn. rewrite <- IH. reflexivity.
Qed.

Lemma replace_cons_hit (o : char) (old new s : str) :
  startswith s (o :: old) = true ->
  replace s (o :: old) new
  = new ++ replace (skipn (List.length (o :: old)) s) (o :: old) new.
Proof.
  intros H. destruct s as [|c s]; [discriminate|].
  unfold replace. cbn [replace_from]. rewrite H.
  rewrite replace_from_skip. simpl. now rewrite Nat.sub_0_r.
Qed.

Lemma replace_cons_miss (o : char) (old new : str) (c : char) (s : str) :
  startswith (c :: s) (o :: old) = false ->
  replace (c :: s) (o :: old) new = c :: replace s (o :: old) new.
Proof.
  intros H. unfold replace. cbn [replace_from]. now rewrite H.
Qed.

(** The cases of [replace] as an induction principle. *)
Lemma replace_ind (o : char) (old new : str) (P : str -> str -> Prop) :
  P [] [] ->
  (forall s r,
      startswith s (o :: old) = true ->
      P (skipn (List.length (o :: old)) s) r -> P s (new ++ r)) ->
  (forall c s r,
      startswith (c :: s) (o :: old) = false ->
      P s r -> P (c :: s) (c :: r)) ->
  forall s, P s (replace s (o :: old) new).
Proof.
  intros Hnil Hhit Hmiss s.
  remember (List.length s) as n eqn:En.
  revert s En. induction n as [n IH] using lt_wf_ind. intros s En.
  destruct s as [|c s]; [exact Hnil|].
  destruct (startswith (c :: s) (o :: old)) eqn:E.
  - rewrite (replace_cons_hit _ _ _ _ E). apply Hhit; [exact E|].
    eapply IH; [|reflexivity]. subst n. simpl.
    pose proof (length_skipn (List.length old) s). lia.
  - rewrite (replace_cons_miss _ _ _ _ _ E). apply Hmiss; [exact E|].
    eapply IH; [|reflexivity]. subst n. simpl. lia.
Qed.

(** Replacing a source that does not occur changes nothing. *)
Lemma replace_absent (s old new : str) :
  str_in old s = false -> replace s old new = s.
Proof.
  destruct old as [|o old]; [now rewrite str_in_nil|].
  induction s as [|c s IH]; intros H; [reflexivity|].
  apply str_in_cons_false in H as [H1 H2].
  rewrite (replace_cons_miss _ _ _ _ _ H1), IH; auto.
Qed.

End StrFacts.


(* ================================================================== *)
(** ** Replacement that brings no source back                          *)
(* ================================================================== *)

Section Separation.

Lemma existsb_eqb_false (c : char) (p : str) :
  existsb (N.eqb c) p = false -> ~ In c p.
Proof.
  intros H Hin.
  assert (existsb (N.eqb c) p = true) as E.
  { apply existsb_exists. exists c. split; [exact Hin | apply N.eqb_refl]. }
  congruence.
Qed.

(** A prefix of [a ++ b] that is not a prefix of [a] runs over the end
    of [a]. *)
Lemma startswith_straddle (a b p : str) (d : char) :
  a <> [] ->
  startswith (a ++ b) p = true -> startswith a p = false ->
  In (last a d) p.
Proof.
  revert p; induction a as [|c a IH]; intros p Ha H1 H2; [contradiction|].
  destruct p as [|c' p]; [now rewrite startswith_nil in H2|].
  simpl in H1, H2. apply andb_true_iff in H1 as [Hc H1].
  rewrite Hc in H2. simpl in H2.
  apply N.eqb_eq in Hc; subst c'.
  destruct a as [|c2 a].
  - left; reflexivity.
  - right. change (last (c :: c2 :: a) d) with (last (c2 :: a) d).
    apply IH; auto. discriminate.
Qed.

(** An occurrence in [a ++ b] that lies neither in [a] nor in [b] runs
    over the end of [a]. *)
Lemma str_in_straddle (a b p : str) (d : char) :
  a <> [] ->
  str_in p (a ++ b) = true -> str_in p a = false -> str_in p b = false ->
  In (last a d) p.
Proof.
  induction a as [|c a IH]; intros Ha H1 H2 H3; [contradiction|].
  apply str_in_cons_false in H2 as [H2 H2'].
  change ((c :: a) ++ b) with (c :: (a ++ b)) in H1.
  cbn [str_in] in H1. apply orb_true_iff in H1 as [H1|H1].
  - apply (startswith_straddle (c :: a) b p d); auto.
  - destruct a as [|c2 a].
    + simpl in H1. congruence.
    + change (last (c :: c2 :: a) d) with (last (c2 :: a) d).
      apply IH; auto. discriminate.
Qed.

(** A prefix of the replaced text that avoids the first character of
    the target was a prefix before. *)
Lemma startswith_replace (o : char) (old new : str) :
  new <> [] ->
  forall s p,
    ~ In (hd 0%N new) p ->
    startswith (replace s (o :: old) new) p = true ->
    startswith s p = true.
Proof.
  intros Hnew s.
  apply (replace_ind o old new
           (fun s r => forall p, ~ In (hd 0%N new) p ->
                                 startswith r p = true ->
                                 startswith s p = true)).
  - auto.
  - intros s0 r _ _ p Hp H. destruct p as [|c p]; [apply startswith_nil|].
    destruct new as [|n new]; [contradiction|].
    simpl in H. apply andb_true_iff in H as [Hc _].
    apply N.eqb_eq in Hc. subst. exfalso. apply Hp. left. reflexivity.
  - intros c s0 r _ IH p Hp H. destruct p as [|c' p]; [reflexivity|].
    simpl in *. apply andb_true_iff in H as [Hc H]. rewrite Hc. simpl.
    apply IH; auto.
Qed.

Lemma clean_pair_inv (p new : str) :
  clean_pair p new = true ->
  new <> [] /\ str_in p new = false
  /\ ~ In (hd 0%N new) p /\ ~ In (last new 0%N) p.
Proof.
  unfold clean_pair. rewrite !andb_true_iff, !negb_true_iff.
  intros [[[H1 H2] H3] H4]. repeat split; auto using existsb_eqb_false.
  destruct new; [discriminate | discriminate].
Qed.

(** The source [p] does not occur after [o :: old] was replaced by a
    target that is clean for [p], when [p] is the source replaced or
    did not occur before. *)
Lemma str_in_replace_clean (o : char) (old new p : str) :
  clean_pair p new = true ->
  forall s,
    p = o :: old \/ str_in p s = false ->
    str_in p (replace s (o :: old) new) = false.
Proof.
  intros Hclean s.
  apply clean_pair_inv in Hclean as (Hnew & Hin & Hhd & Hlast).
  apply (replace_ind o old new
           (fun s r => r = replace s (o :: old) new /\
                       (p = o :: old \/ str_in p s = false ->
                        str_in p r = false))).
  - split; [reflexivity|]. intros [-> | H]; [reflexivity | exact H].
  - intros s0 r Hs [Er IH]. split.
    + rewrite (replace_cons_hit _ _ _ _ Hs). now rewrite <- Er.
    + intros H.
      assert (str_in p r = false) as Hr.
      { apply IH. destruct H as [H|H]; [now left | right].
        destruct (str_in p (skipn _ s0)) eqn:E; [|reflexivity].
        apply str_in_skipn in E. congruence. }
      destruct (str_in p (new ++ r)) eqn:E; [|reflexivity].
      exfalso. apply Hlast.
      apply (str_in_straddle new r p 0%N); auto.
  - intros c s0 r Hs [Er IH]. split.
    + rewrite (replace_cons_miss _ _ _ _ _ Hs). now rewrite <- Er.
    + intros H.
      assert (str_in p r = false) as Hr.
      { apply IH. destruct H as [H|H]; [now left | right].
        now apply str_in_cons_false in H. }
      cbn [str_in]. rewrite Hr, orb_false_r.
      destruct (startswith (c :: r) p) eqn:E; [|reflexivity].
      assert (startswith (c :: s0) p = true) as E'.
      { apply (startswith_replace o old new Hnew (c :: s0) p Hhd).
        rewrite (replace_cons_miss _ _ _ _ _ Hs). now rewrite <- Er. }
      destruct H as [H|H].
      * subst p. congruence.
      * apply str_in_cons_false in H as [H _]. congruence.
Qed.

(** The test [separated] is enough for [no_reintroduction]. *)
Lemma separated_no_reintroduction (mapping : dict) :
  separated mapping = true -> no_reintroduction mapping.
Proof.
  unfold separated, no_reintroduction, items, keys, values.
  intros Hsep src dst Hin src' Hsrc' s H.
  rewrite forallb_forall in Hsep.
  assert (In dst (map snd mapping)) as Hdst
      by (apply in_map_iff; exists (src, dst); auto).
  assert (In src (map fst mapping)) as Hsrc
      by (apply in_map_iff; exists (src, dst); auto).
  assert (clean_pair src' dst = true) as Hc.
  { specialize (Hsep _ Hsrc'). rewrite forallb_forall in Hsep. auto. }
  assert (clean_pair src dst = true) as Hc0.
  { specialize (Hsep _ Hsrc). rewrite forallb_forall in Hsep. auto. }
  destruct src as [|o old].
  - apply clean_pair_inv in Hc0 as (_ & Hc0 & _).
    now rewrite str_in_nil in Hc0.
  - now apply str_in_replace_clean.
Qed.

Lemma in_keys (mapping : dict) (src : str) :
  In src (keys mapping) -> exists dst, In (src, dst) (items mapping).
Proof.
  unfold keys, items. rewrite in_map_iff. intros [[a b] [E H]].
  simpl in E. subst. eauto.
Qed.

Lemma no_reintroduction_nonempty (mapping : dict) :
  no_reintroduction mapping ->
  forall src, In src (keys mapping) -> src <> [].
Proof.
  intros H src Hsrc E. destruct (in_keys _ _ Hsrc) as [dst Hin].
  specialize (H src dst Hin src Hsrc [] (or_introl eq_refl)).
  subst src. now rewrite str_in_nil in H.
Qed.

(** After one sweep of such a mapping no source is left. *)
Lemma replace_all_clean (mapping : dict) :
  no_reintroduction mapping ->
  forall s src, In src (keys mapping) ->
                str_in src (replace_all s mapping) = false.
Proof.
  intros H s. unfold replace_all, items.
  assert (forall l1 l2, mapping = l1 ++ l2 ->
          forall src, In src (keys l1) ->
            str_in src (fold_left (fun t e => replace t (fst e) (snd e))
                                  l1 s) = false) as G.
  { induction l1 as [|e l1 IH] using rev_ind; intros l2 E src Hsrc.
    - contradiction.
    - rewrite fold_left_app. simpl.
      unfold keys in Hsrc. rewrite map_app in Hsrc.
      assert (In e mapping) as He
          by (rewrite E; apply in_or_app; left; apply in_or_app;
              right; left; reflexivity).
      assert (forall x, In x (keys l1) -> In x (keys mapping)) as Hk.
      { intros x Hx. rewrite E. unfold keys. rewrite !map_app.
        apply in_or_app; left; apply in_or_app; now left. }
      destruct e as [a b]. apply in_app_or in Hsrc as [Hsrc|Hsrc].
      + apply (H a b He src (Hk _ Hsrc)). right.
        apply (IH ([(a, b)] ++ l2)); [now rewrite <- app_assoc in E | auto].
      + simpl in Hsrc. destruct Hsrc as [<-|[]].
        apply (H a b He a); [|now left].
        unfold keys. apply in_map_iff. exists (a, b). auto. }
  intros src Hsrc. apply (G mapping []); [now rewrite app_nil_r | auto].
Qed.

(** A sweep over a text without sources changes nothing. *)
Lemma fold_replace_fixed (l : list (str * str)) (s : str) :
  (forall src, In src (map fst l) -> str_in src s = false) ->
  fold_left (fun t e => replace t (fst e) (snd e)) l s = s.
Proof.
  induction l as [|e l IH]; intros H; [reflexivity|].
  simpl. rewrite replace_absent by (apply H; now left).
  apply IH. intros src Hsrc. apply H. now right.
Qed.

Lemma replace_all_fixed (mapping : dict) (s : str) :
  (forall src, In src (keys mapping) -> str_in src s = false) ->
  replace_all s mapping = s.
Proof. apply fold_replace_fixed. Qed.

Lemma fold_scan_fixed (l : list (str * str)) (s : str) (b : bool) :
  (forall src, In src (map fst l) -> str_in src s = false) ->
  fold_left scan_step l (s, b) = (s, b).
Proof.
  induction l as [|e l IH]; intros H; [reflexivity|].
  simpl. unfold scan_step at 2. simpl.
  rewrite (H (fst e)) by now left.
  apply IH. intros src Hsrc. apply H. now right.
Qed.

Lemma scan_fixed (mapping : dict) (s : str) :
  (forall src, In src (keys mapping) -> str_in src s = false) ->
  scan s mapping = (s, false).
Proof. apply fold_scan_fixed. Qed.

End Separation.

(* ================================================================== *)
(** ** Lemmas on statements and loops                                  *)
(* ================================================================== *)

Section Statements.

Context {A : Type}.

Lemma each_length (body : upd A) (xs : list A) :
  List.length (fst (each body xs)) = List.length xs.
Proof.
  induction xs as [|x xs IH]; simpl; [reflexivity|].
  destruct (body x) as [x' [e|]]; [reflexivity|].
  destruct (each body xs) as [ys e]. simpl in *. now rewrite IH.
Qed.

(** What every turn of a loop keeps between an element and the element
    in its place, the loop keeps, however it ends. *)
Lemma each_Forall2 (R : A -> A -> Prop) (body : upd A) (xs : list A) :
  (forall x, R x x) ->
  (forall x, In x xs -> R x (fst (body x))) ->
  Forall2 R xs (fst (each body xs)).
Proof.
  intros Hrefl. induction xs as [|x xs IH]; intros H; simpl.
  - constructor.
  - pose proof (H x (or_introl eq_refl)) as Hx.
    destruct (body x) as [x' [e|]]; simpl in *.
    + constructor; [exact Hx|].
      clear - Hrefl. induction xs; constructor; auto.
    + specialize (IH (fun y Hy => H y (or_intror Hy))).
      destruct (each body xs) as [ys e]. simpl in *.
      now constructor.
Qed.

(** A loop none of whose turns raises is a map. *)
Lemma each_none (body : upd A) (xs : list A) :
  (forall x, In x xs -> snd (body x) = None) ->
  each body xs = (map (fun x => fst (body x)) xs, None).
Proof.
  induction xs as [|x xs IH]; intros H; simpl; [reflexivity|].
  pose proof (H x (or_introl eq_refl)) as Hx.
  destruct (body x) as [x' [e|]]; simpl in *; [discriminate|].
  now rewrite IH by (intros y Hy; apply H; now right).
Qed.

Lemma each_fixed (body : upd A) (xs : list A) :
  (forall x, In x xs -> body x = (x, None)) ->
  each body xs = (xs, None).
Proof.
  intros H. rewrite each_none.
  - f_equal. rewrite <- (map_id xs) at 2. apply map_ext_in.
    intros x Hx. now rewrite H.
  - intros x Hx. now rewrite H.
Qed.

(** A loop that returns has returned at every turn. *)
Lemma each_returned (body : upd A) (xs : list A) :
  snd (each body xs) = None ->
  forall x, In x xs -> snd (body x) = None.
Proof.
  induction xs as [|x xs IH]; intros H y Hy; [contradiction|].
  simpl in H. destruct (body x) as [x' [e|]] eqn:E; [discriminate|].
  destruct Hy as [<-|Hy]; [now rewrite E|].
  apply IH; [|exact Hy]. now destruct (each body xs).
Qed.

(** What every turn of a loop over the entries keeps, the loop
    keeps. *)
Lemma for_items_inv (R : A -> A -> Prop) (entries : list (str * str))
      (body : str -> str -> upd A) (a : A) :
  (forall x, R x x) ->
  (forall x y z, R x y -> R y z -> R x z) ->
  (forall src dst x, In (src, dst) entries -> R x (fst (body src dst x))) ->
  R a (fst (for_items entries body a)).
Proof.
  intros Hrefl Htrans. revert a.
  induction entries as [|[src dst] l IH]; intros a H; simpl; [auto|].
  pose proof (H src dst a (or_introl eq_refl)) as Ha.
  destruct (body src dst a) as [a' [e|]]; simpl in *; [exact Ha|].
  apply (Htrans _ _ _ Ha). apply IH. intros s d x Hx.
  apply H. now right.
Qed.

Lemma for_items_fixed (entries : list (str * str))
      (body : str -> str -> upd A) (a : A) :
  (forall src dst, In (src, dst) entries -> body src dst a = (a, None)) ->
  for_items entries body a = (a, None).
Proof.
  induction entries as [|[src dst] l IH]; intros H; simpl; [reflexivity|].
  rewrite (H src dst (or_introl eq_refl)). apply IH.
  intros s d Hx. apply H. now right.
Qed.

Lemma for_items_app (l1 l2 : list (str * str))
      (body : str -> str -> upd A) (a : A) :
  for_items (l1 ++ l2) body a
  = match for_items l1 body a with
    | (a', None) => for_items l2 body a'
    | (a', Some e) => (a', Some e)
    end.
Proof.
  revert a; induction l1 as [|[src dst] l1 IH]; intros a; simpl;
    [reflexivity|].
  destruct (body src dst a) as [a' [e|]]; [reflexivity | apply IH].
Qed.

Lemma seq_inv (R : A -> A -> Prop) (s1 s2 : upd A) (a : A) :
  (forall x y z, R x y -> R y z -> R x z) ->
  R a (fst (s1 a)) -> (forall x, R x (fst (s2 x))) ->
  R a (fst (seq s1 s2 a)).
Proof.
  intros Htrans H1 H2. unfold seq.
  destruct (s1 a) as [a' [e|]]; simpl in *; [exact H1|].
  exact (Htrans _ _ _ H1 (H2 a')).
Qed.

End Statements.

Lemma field_inv {A B : Type} (get : A -> B) (set : A -> B -> A)
      (s : upd B) (a : A) :
  fst (field get set s a) = set a (fst (s (get a)))
  /\ snd (field get set s a) = snd (s (get a)).
Proof. unfold field. now destruct (s (get a)). Qed.

Lemma Forall2_refl {A : Type} (R : A -> A -> Prop) (l : list A) :
  (forall x, R x x) -> Forall2 R l l.
Proof. intros H. induction l; constructor; auto. Qed.

Lemma Forall2_trans {A : Type} (R : A -> A -> Prop) (l1 l2 l3 : list A) :
  (forall x y z, R x y -> R y z -> R x z) ->
  Forall2 R l1 l2 -> Forall2 R l2 l3 -> Forall2 R l1 l3.
Proof.
  intros Ht H. revert l3. induction H; intros l3 H3; inversion H3; subst;
    constructor; eauto.
Qed.

Lemma Forall2_map_eq {A B : Type} (g : A -> B) (l l' : list A) :
  Forall2 (fun x y => g x = g y) l l' -> map g l = map g l'.
Proof. induction 1; simpl; congruence. Qed.

Lemma Forall2_nth_error {A : Type} (R : A -> A -> Prop) (l l' : list A)
      (i : nat) (x : A) :
  Forall2 R l l' -> nth_error l i = Some x ->
  exists y, nth_error l' i = Some y /\ R x y.
Proof.
  intros H. revert i. induction H; intros [|i] Hi; simpl in *;
    try discriminate.
  - inversion Hi; subst. eauto.
  - eauto.
Qed.

(* ================================================================== *)
(** ** Lemmas on the text of a run                                     *)
(* ================================================================== *)

Section Writing.

Lemma verbatim_app (a b : str) :
  verbatim (a ++ b) = verbatim a && verbatim b.
Proof. apply forallb_app. Qed.

Lemma verbatim_cons (c : char) (t : str) :
  verbatim (c :: t) = verbatim_char c && verbatim t.
Proof. reflexivity. Qed.

Lemma text_error_verbatim (t : str) :
  verbatim t = true -> text_error t = None.
Proof.
  intros H. unfold text_error.
  assert (existsb surrogate t = false) as ->.
  { induction t as [|c t IH]; [reflexivity|]. simpl in *.
    apply andb_true_iff in H as [Hc Ht]. unfold verbatim_char in Hc.
    rewrite !andb_true_iff, !negb_true_iff in Hc.
    destruct Hc as [[_ ->] _]. now apply IH. }
  assert (forallb xml_char t = true) as ->; [|reflexivity].
  induction t as [|c t IH]; [reflexivity|]. simpl in *.
  apply andb_true_iff in H as [Hc Ht]. unfold verbatim_char in Hc.
  rewrite !andb_true_iff in Hc. destruct Hc as [[-> _] _]. now apply IH.
Qed.

Lemma flush_verbatim (content buf : str) :
  verbatim buf = true -> flush content buf = (content ++ buf, None).
Proof.
  intros H. unfold flush. destruct buf as [|c buf].
  - now rewrite app_nil_r.
  - now rewrite (text_error_verbatim _ H).
Qed.

Lemma append_text_verbatim (t content buf : str) :
  verbatim t = true -> verbatim buf = true ->
  append_text content buf t = (content ++ buf ++ t, None).
Proof.
  revert content buf; induction t as [|c t IH]; intros content buf Ht Hb.
  - simpl. rewrite app_nil_r. now apply flush_verbatim.
  - rewrite verbatim_cons in Ht. apply andb_true_iff in Ht as [Hc Ht].
    simpl. destruct (c =? TAB)%N eqn:Etab.
    + apply N.eqb_eq in Etab. subst c.
      rewrite (flush_verbatim content buf Hb), (IH _ [] Ht eq_refl).
      simpl. now rewrite <- !app_assoc.
    + destruct (c =? LF)%N eqn:Elf.
      * apply N.eqb_eq in Elf. subst c. simpl.
        rewrite (flush_verbatim content buf Hb), (IH _ [] Ht eq_refl).
        simpl. now rewrite <- !app_assoc.
      * assert ((c =? CR)%N = false) as Ecr.
        { unfold verbatim_char in Hc.
          rewrite !andb_true_iff, !negb_true_iff in Hc. tauto. }
        rewrite Ecr. simpl. rewrite IH; auto.
        -- now rewrite <- !app_assoc.
        -- rewrite verbatim_app, Hb. simpl. now rewrite Hc.
Qed.

(** A verbatim string is written as it is. *)
Lemma written_verbatim (t : str) :
  verbatim t = true -> written t = (t, None).
Proof. intros H. now apply (append_text_verbatim t [] []). Qed.

Lemma set_text_verbatim (t : str) (r : run) :
  verbatim t = true -> set_text t r = (retext (fun _ => t) r, None).
Proof. intros H. unfold set_text. now rewrite written_verbatim. Qed.

Lemma set_text_nil (r : run) :
  set_text [] r = (retext (fun _ => []) r, None).
Proof. reflexivity. Qed.

(** Assigning to the text of a run keeps its formatting, however the
    assignment ends. *)
Lemma set_text_style (t : str) (r : run) :
  run_style (fst (set_text t r)) = run_style r.
Proof. unfold set_text. now destruct (written t). Qed.

Lemma retext_same (f : str -> str) (r : run) :
  f (run_text r) = run_text r -> retext f r = r.
Proof. intros H. destruct r. unfold retext. simpl in *. now rewrite H. Qed.

Lemma verbatim_concat (l : list str) :
  (forall t, In t l -> verbatim t = true) -> verbatim (List.concat l) = true.
Proof.
  induction l as [|a l IH]; intros H; simpl; [reflexivity|].
  rewrite verbatim_app, (H a (or_introl eq_refl)). simpl.
  apply IH. intros t Ht. apply H. now right.
Qed.

Lemma verbatim_skipn (k : nat) (s : str) :
  verbatim s = true -> verbatim (skipn k s) = true.
Proof.
  intros H. rewrite <- (firstn_skipn k s), verbatim_app in H.
  now apply andb_true_iff in H as [_ H].
Qed.

(** Replacing by a verbatim target in a verbatim text gives a verbatim
    text. *)
Lemma verbatim_replace (s old new : str) :
  verbatim s = true -> verbatim new = true ->
  verbatim (replace s old new) = true.
Proof.
  intros Hs Hn. destruct old as [|o old].
  - simpl. rewrite verbatim_app, Hn. simpl.
    induction s as [|c s IH]; [reflexivity|].
    rewrite verbatim_cons in Hs. apply andb_true_iff in Hs as [Hc Hs].
    simpl. rewrite Hc, verbatim_app, Hn. simpl. now apply IH.
  - revert Hs.
    apply (replace_ind o old new
             (fun s r => verbatim s = true -> verbatim r = true)).
    + auto.
    + intros s0 r _ IH Hs. rewrite verbatim_app, Hn. simpl.
      apply IH. now apply verbatim_skipn.
    + intros c s0 r _ IH Hs. rewrite verbatim_cons in *.
      apply andb_true_iff in Hs as [Hc Hs]. rewrite Hc. simpl. auto.
Qed.

Lemma verbatim_fold_replace (l : list (str * str)) (s : str) :
  (forall dst, In dst (map snd l) -> verbatim dst = true) ->
  verbatim s = true ->
  verbatim (fold_left (fun t e => replace t (fst e) (snd e)) l s) = true.
Proof.
  revert s; induction l as [|e l IH]; intros s H Hs; [exact Hs|].
  simpl. apply IH.
  - intros dst Hd. apply H. now right.
  - apply verbatim_replace; [exact Hs|]. apply H. now left.
Qed.

Lemma verbatim_replace_all (mapping : dict) (s : str) :
  verbatim_mapping mapping -> verbatim s = true ->
  verbatim (replace_all s mapping) = true.
Proof. intros H. now apply verbatim_fold_replace. Qed.

End Writing.

(* ================================================================== *)
(** ** Lemmas on the runs of a paragraph                               *)
(* ================================================================== *)

Section Runs.

Lemma item_rel_refl (R : run -> run -> Prop) :
  (forall r, R r r) -> forall it, item_rel R it it.
Proof. intros H [r|h]; simpl; auto. Qed.

Lemma item_rel_trans (R : run -> run -> Prop) :
  (forall x y z, R x y -> R y z -> R x z) ->
  forall a b c, item_rel R a b -> item_rel R b c -> item_rel R a c.
Proof.
  intros H [r1|h1] [r2|h2] [r3|h3]; simpl; try tauto; try congruence.
  apply H.
Qed.

Lemma paragraph_rel_refl (R : run -> run -> Prop) (p : paragraph) :
  (forall r, R r r) -> paragraph_rel R p p.
Proof. intros H. apply Forall2_refl. now apply item_rel_refl. Qed.

Lemma paragraph_rel_trans (R : run -> run -> Prop) (p q s : paragraph) :
  (forall x y z, R x y -> R y z -> R x z) ->
  paragraph_rel R p q -> paragraph_rel R q s -> paragraph_rel R p s.
Proof.
  intros H. apply Forall2_trans. now apply item_rel_trans.
Qed.

Lemma direct_runs_rel (R : run -> run -> Prop) (its its' : list item) :
  Forall2 (item_rel R) its its' ->
  Forall2 R (direct_runs its) (direct_runs its').
Proof.
  induction 1 as [|a b l l' Hab _ IH]; simpl; [constructor|].
  destruct a as [r|h], b as [r'|h']; simpl in Hab; try contradiction.
  - now constructor.
  - exact IH.
Qed.

Lemma runs_rel (R : run -> run -> Prop) (p p' : paragraph) :
  paragraph_rel R p p' -> Forall2 R (runs p) (runs p').
Proof. apply direct_runs_rel. Qed.

(** Paragraphs that differ in the texts of their runs only have the
    same formatting. *)
Lemma paragraph_rel_format (p p' : paragraph) :
  paragraph_rel (fun r r' => run_style r = run_style r') p p' ->
  paragraph_format p = paragraph_format p'.
Proof.
  unfold paragraph_rel, paragraph_format.
  induction 1 as [|a b l l' Hab _ IH]; simpl; [reflexivity|].
  destruct a as [r|h], b as [r'|h']; simpl in Hab; try contradiction;
    simpl; congruence.
Qed.

(** What a statement keeps of every run, the loop over the runs keeps
    of the paragraph, however it ends. *)
Lemma on_runs_from_rel (R : run -> run -> Prop) (body : nat -> upd run)
      (its : list item) (i : nat) :
  (forall r, R r r) ->
  (forall j r, In r (direct_runs its) -> R r (fst (body j r))) ->
  Forall2 (item_rel R) its (fst (on_runs_from i body its)).
Proof.
  intros Hrefl. revert i. induction its as [|[r|h] its IH]; intros i H;
    simpl.
  - constructor.
  - pose proof (H i r (or_introl eq_refl)) as Hr.
    destruct (body i r) as [r' [e|]]; simpl in *.
    + constructor; [exact Hr|].
      apply Forall2_refl. now apply item_rel_refl.
    + specialize (IH (S i) (fun j x Hx => H j x (or_intror Hx))).
      destruct (on_runs_from (S i) body its) as [rest e]. simpl in *.
      now constructor.
  - specialize (IH i H).
    destruct (on_runs_from i body its) as [rest e]. simpl in *.
    now constructor.
Qed.

Lemma on_runs_rel (R : run -> run -> Prop) (body : nat -> upd run)
      (p : paragraph) :
  (forall r, R r r) ->
  (forall j r, In r (runs p) -> R r (fst (body j r))) ->
  paragraph_rel R p (fst (on_runs body p)).
Proof.
  intros Hrefl H. unfold on_runs, paragraph_rel.
  rewrite (proj1 (field_inv _ _ _ _)). simpl.
  now apply on_runs_from_rel.
Qed.

(** A loop over the runs none of whose turns raises is a map. *)
Lemma on_runs_from_map (g : run -> run) (body : nat -> upd run)
      (its : list item) (i : nat) :
  (forall j r, i <= j -> In r (direct_runs its) -> body j r = (g r, None)) ->
  on_runs_from i body its = (map (on_run g) its, None).
Proof.
  revert i. induction its as [|[r|h] its IH]; intros i H; simpl.
  - reflexivity.
  - rewrite (H i r (le_n i) (or_introl eq_refl)).
    rewrite (IH (S i)); [reflexivity|].
    intros j x Hj Hx. apply H; [lia | now right].
  - now rewrite (IH i H).
Qed.

Lemma map_on_run_id (g : run -> run) (its : list item) :
  (forall r, In r (direct_runs its) -> g r = r) ->
  map (on_run g) its = its.
Proof.
  induction its as [|[r|h] its IH]; intros H; simpl; [reflexivity| |].
  - rewrite (H r (or_introl eq_refl)), IH; [reflexivity|].
    intros x Hx. apply H. now right.
  - now rewrite IH.
Qed.

Lemma on_runs_from_fixed (body : nat -> upd run) (its : list item)
      (i : nat) :
  (forall j r, i <= j -> In r (direct_runs its) -> body j r = (r, None)) ->
  on_runs_from i body its = (its, None).
Proof.
  intros H. rewrite (on_runs_from_map (fun r => r)); [|exact H].
  now rewrite map_on_run_id.
Qed.

Lemma for_runs_map (g : run -> run) (body : upd run) (p : paragraph) :
  (forall r, In r (runs p) -> body r = (g r, None)) ->
  for_runs body p = (map_runs g p, None).
Proof.
  intros H. unfold for_runs, on_runs, field.
  rewrite (on_runs_from_map g); [reflexivity|]. intros j r _. apply H.
Qed.

Lemma runs_map_runs (g : run -> run) (p : paragraph) :
  runs (map_runs g p) = map g (runs p).
Proof.
  unfold runs, map_runs. simpl.
  induction (children p) as [|[r|h] its IH]; simpl; congruence.
Qed.

Lemma map_runs_id (g : run -> run) (p : paragraph) :
  (forall r, In r (runs p) -> g r = r) -> map_runs g p = p.
Proof.
  intros H. destruct p as [its]. unfold map_runs. simpl. f_equal.
  now apply map_on_run_id.
Qed.

Lemma map_runs_map_runs (g h : run -> run) (p : paragraph) :
  map_runs g (map_runs h p) = map_runs (fun r => g (h r)) p.
Proof.
  unfold map_runs. simpl. f_equal. rewrite map_map. apply map_ext.
  now intros [r|l].
Qed.

Lemma map_runs_ext (g h : run -> run) (p : paragraph) :
  (forall r, In r (runs p) -> g r = h r) -> map_runs g p = map_runs h p.
Proof.
  intros H. unfold map_runs. f_equal. unfold runs in H.
  induction (children p) as [|[r|l] its IH]; simpl in *; [reflexivity| |].
  - rewrite (H r (or_introl eq_refl)), IH; auto.
  - now rewrite IH.
Qed.

Lemma str_in_concat (p : str) (l : list str) (x : str) :
  In x l -> str_in p x = true -> str_in p (List.concat l) = true.
Proof.
  intros Hin H. apply in_split in Hin as [l1 [l2 ->]].
  rewrite concat_app. simpl.
  apply (str_in_middle p (List.concat l1) x (List.concat l2) H).
Qed.

Lemma in_direct_runs (r : run) (its : list item) :
  In r (direct_runs its) <-> In (Text_run r) its.
Proof.
  induction its as [|[x|h] its IH]; simpl; [tauto| |].
  - rewrite IH. split; intros [H|H]; auto; left; congruence.
  - rewrite IH. split; [auto|]. intros [H|H]; [discriminate | auto].
Qed.

(** A source that occurs in a run occurs in the paragraph. *)
Lemma str_in_run (src : str) (p : paragraph) (r : run) :
  In r (runs p) -> str_in src (run_text r) = true ->
  str_in src (paragraph_text p) = true.
Proof.
  intros Hin H. apply (str_in_concat src _ (run_text r)); auto.
  apply in_direct_runs in Hin.
  now apply (in_map item_text _ (Text_run r)).
Qed.

(** A paragraph without hyperlinks: its text is the text of its
    runs. *)
Lemma no_links_text (p : paragraph) :
  no_links p -> paragraph_text p = List.concat (map run_text (runs p)).
Proof.
  unfold no_links, paragraph_text. intros H. rewrite H at 1.
  now rewrite map_map.
Qed.

Lemma direct_runs_map (rs : list run) :
  direct_runs (map Text_run rs) = rs.
Proof. induction rs; simpl; congruence. Qed.

Lemma no_links_map_runs (g : run -> run) (p : paragraph) :
  no_links p -> no_links (map_runs g p).
Proof.
  unfold no_links. intros H. rewrite runs_map_runs.
  unfold map_runs. simpl. rewrite H at 1.
  rewrite !map_map. reflexivity.
Qed.

Lemma no_links_para (l : list string) : no_links (para l).
Proof.
  unfold no_links, para, runs. simpl.
  induction l as [|a l IH]; simpl; congruence.
Qed.

(** The statement on the first run, and the one on the other runs. *)
Lemma first_run_spec (body : upd run) (p : paragraph) :
  first_run body p
  = ({| children := on_first (fun r => fst (body r)) (children p) |},
     match runs p with
     | r0 :: _ => snd (body r0)
     | [] => None
     end).
Proof.
  unfold first_run, on_runs, field, runs, set_children.
  induction (children p) as [|[r|h] its IH]; simpl.
  - reflexivity.
  - destruct (body r) as [r' [e|]]; simpl; [reflexivity|].
    rewrite on_runs_from_fixed; [reflexivity|].
    intros [|j] x Hj _; [lia | reflexivity].
  - destruct (on_runs_from 0 _ its) as [rest e].
    inversion IH; subst. reflexivity.
Qed.

Lemma other_runs_blank (p : paragraph) :
  other_runs (set_text []) p
  = ({| children := on_others blank (children p) |}, None).
Proof.
  unfold other_runs, on_runs, field, set_children.
  induction (children p) as [|[r|h] its IH]; simpl.
  - reflexivity.
  - rewrite (on_runs_from_map blank); [reflexivity|].
    intros [|j] x Hj _; [lia | reflexivity].
  - destruct (on_runs_from 0 _ its) as [rest e].
    inversion IH; subst. reflexivity.
Qed.

Lemma direct_runs_on_first (g : run -> run) (its : list item) :
  direct_runs (on_first g its)
  = match direct_runs its with
    | [] => []
    | r :: rs => g r :: rs
    end.
Proof. induction its as [|[r|h] its IH]; simpl; auto. Qed.

Lemma direct_runs_on_run (g : run -> run) (its : list item) :
  direct_runs (map (on_run g) its) = map g (direct_runs its).
Proof. induction its as [|[r|h] its IH]; simpl; congruence. Qed.

Lemma direct_runs_on_others (g : run -> run) (its : list item) :
  direct_runs (on_others g its)
  = match direct_runs its with
    | [] => []
    | r :: rs => r :: map g rs
    end.
Proof.
  induction its as [|[r|h] its IH]; simpl; auto.
  now rewrite direct_runs_on_run.
Qed.

Lemma on_first_rel (R : run -> run -> Prop) (g : run -> run)
      (its : list item) :
  (forall r, R r r) -> (forall r, R r (g r)) ->
  Forall2 (item_rel R) its (on_first g its).
Proof.
  intros Hrefl H. induction its as [|[r|h] its IH]; simpl.
  - constructor.
  - constructor; [apply H|]. apply Forall2_refl. now apply item_rel_refl.
  - now constructor.
Qed.

Lemma on_run_rel (R : run -> run -> Prop) (g : run -> run)
      (its : list item) :
  (forall r, R r (g r)) -> Forall2 (item_rel R) its (map (on_run g) its).
Proof.
  intros H. induction its as [|[r|h] its IH]; simpl; constructor; simpl;
    auto.
Qed.

Lemma on_others_rel (R : run -> run -> Prop) (g : run -> run)
      (its : list item) :
  (forall r, R r r) -> (forall r, R r (g r)) ->
  Forall2 (item_rel R) its (on_others g its).
Proof.
  intros Hrefl H. induction its as [|[r|h] its IH]; simpl.
  - constructor.
  - constructor; [apply Hrefl|]. now apply on_run_rel.
  - now constructor.
Qed.

End Runs.

(* ================================================================== *)
(** ** Lemmas on the substitution engine: the run-local pass           *)
(* ================================================================== *)

Section RunLocal.

Lemma replace_in_run_style (src dst : str) (r : run) :
  run_style (fst (Translate.replace_in_run src dst r)) = run_style r.
Proof.
  unfold Translate.replace_in_run.
  destruct (str_in src (run_text r)); [apply set_text_style | reflexivity].
Qed.

(** What [replace_in_run] keeps of a run, the run-local pass keeps of
    the paragraph, however it ends. *)
Lemma replace_entry_rel (R : run -> run -> Prop) (src dst : str)
      (p : paragraph) :
  (forall r, R r r) ->
  (forall r, R r (fst (Translate.replace_in_run src dst r))) ->
  paragraph_rel R p (fst (Translate.replace_entry src dst p)).
Proof.
  intros Hrefl H. unfold Translate.replace_entry.
  destruct (str_in src (paragraph_text p)).
  - apply on_runs_rel; auto.
  - now apply paragraph_rel_refl.
Qed.

Lemma run_local_rel (R : run -> run -> Prop) (l : list (str * str))
      (p : paragraph) :
  (forall r, R r r) ->
  (forall x y z, R x y -> R y z -> R x z) ->
  (forall src dst r, In (src, dst) l ->
                     R r (fst (Translate.replace_in_run src dst r))) ->
  paragraph_rel R p (fst (for_items l Translate.replace_entry p)).
Proof.
  intros Hrefl Htrans H.
  apply (for_items_inv (paragraph_rel R)).
  - intros x. now apply paragraph_rel_refl.
  - intros x y z. now apply paragraph_rel_trans.
  - intros src dst x Hin. apply replace_entry_rel; auto.
Qed.

Lemma in_items_keys (mapping : dict) (src dst : str) :
  In (src, dst) (items mapping) -> In src (keys mapping).
Proof.
  unfold items, keys. intros H.
  apply in_map_iff. exists (src, dst). auto.
Qed.

Lemma in_items_values (mapping : dict) (src dst : str) :
  In (src, dst) (items mapping) -> In dst (values mapping).
Proof.
  unfold items, values. intros H.
  apply in_map_iff. exists (src, dst). auto.
Qed.

(** A run without any source is left as it is. *)
Lemma replace_in_run_absent (src dst : str) (r : run) :
  str_in src (run_text r) = false ->
  Translate.replace_in_run src dst r = (r, None).
Proof. intros H. unfold Translate.replace_in_run. now rewrite H. Qed.

(** On a paragraph none of whose runs holds a source, the run-local
    pass does nothing and returns. *)
Lemma run_local_fixed (l : list (str * str)) (p : paragraph) :
  (forall r src, In r (runs p) -> In src (map fst l) ->
                 str_in src (run_text r) = false) ->
  for_items l Translate.replace_entry p = (p, None).
Proof.
  intros H. apply for_items_fixed. intros src dst Hin.
  unfold Translate.replace_entry.
  destruct (str_in src (paragraph_text p)); [|reflexivity].
  unfold for_runs, on_runs, field.
  rewrite on_runs_from_fixed; [now destruct p|].
  intros j r _ Hr. apply replace_in_run_absent. apply H; [exact Hr|].
  apply in_map_iff. exists (src, dst). auto.
Qed.

Lemma translate_fixed (mapping : dict) (p : paragraph) :
  source_free mapping (paragraph_text p) ->
  Translate.replace_in_paragraph p mapping = (p, None).
Proof.
  intros H. apply run_local_fixed. intros r src Hr Hsrc.
  destruct (str_in src (run_text r)) eqn:E; [|reflexivity].
  rewrite <- (H src Hsrc). symmetry. now apply (str_in_run src p r).
Qed.

Lemma retext_retext (f g : str -> str) (r : run) :
  retext g (retext f r) = retext (fun t => g (f t)) r.
Proof. reflexivity. Qed.

Lemma verbatim_map_runs (f : str -> str) (p : paragraph) :
  (forall t, verbatim t = true -> verbatim (f t) = true) ->
  verbatim_paragraph p -> verbatim_paragraph (map_runs (retext f) p).
Proof.
  intros Hf H r Hr. rewrite runs_map_runs in Hr.
  apply in_map_iff in Hr as [r0 [<- Hr0]]. simpl. auto.
Qed.

(** With a verbatim target, on verbatim runs, one turn of the
    run-local loop replaces in every run and returns: the guard on the
    text of the paragraph changes nothing, as a source absent from the
    paragraph is absent from every run. *)
Lemma replace_entry_verbatim (src dst : str) (p : paragraph) :
  verbatim dst = true -> verbatim_paragraph p ->
  Translate.replace_entry src dst p
  = (map_runs (retext (fun t => replace t src dst)) p, None).
Proof.
  intros Hd Hp. unfold Translate.replace_entry.
  destruct (str_in src (paragraph_text p)) eqn:E.
  - apply for_runs_map. intros r Hr. unfold Translate.replace_in_run.
    destruct (str_in src (run_text r)) eqn:Er.
    + apply set_text_verbatim. apply verbatim_replace; auto.
    + f_equal. symmetry. apply retext_same. now apply replace_absent.
  - f_equal. symmetry. apply map_runs_id. intros r Hr.
    apply retext_same. apply replace_absent.
    destruct (str_in src (run_text r)) eqn:Er; [|reflexivity].
    rewrite <- E. symmetry. now apply (str_in_run src p r).
Qed.

Lemma run_local_verbatim (l : list (str * str)) (p : paragraph) :
  (forall dst, In dst (map snd l) -> verbatim dst = true) ->
  verbatim_paragraph p ->
  for_items l Translate.replace_entry p
  = (map_runs
       (retext (fun t => fold_left (fun t e => replace t (fst e) (snd e))
                                   l t)) p,
     None).
Proof.
  revert p; induction l as [|[src dst] l IH]; intros p Hl Hp.
  - simpl. f_equal. symmetry. apply map_runs_id. intros r _.
    now apply retext_same.
  - simpl. rewrite replace_entry_verbatim; auto.
    2:{ apply Hl. now left. }
    rewrite IH.
    + now rewrite map_runs_map_runs.
    + intros d Hd. apply Hl. now right.
    + apply verbatim_map_runs; [|exact Hp].
      intros t Ht. apply verbatim_replace; auto. apply Hl. now left.
Qed.

(** The run-local pass sweeps the mapping over every run by itself. *)
Lemma run_local_pass (mapping : dict) (p : paragraph) :
  verbatim_mapping mapping -> verbatim_paragraph p ->
  Translate.replace_in_paragraph p mapping
  = (map_runs (retext (fun t => replace_all t mapping)) p, None).
Proof. intros Hm Hp. now apply run_local_verbatim. Qed.

End RunLocal.

(* ================================================================== *)
(** ** Lemmas on the substitution engine: the rebuild pass             *)
(* ================================================================== *)

Section Rebuild.

Lemma set_text_snd (t : str) (r : run) :
  snd (set_text t r) = snd (written t).
Proof. unfold set_text. now destruct (written t). Qed.

Lemma set_text_fst (t : str) (r : run) :
  fst (set_text t r) = retext (fun _ => fst (written t)) r.
Proof. unfold set_text. now destruct (written t). Qed.

(** The write of the rebuild pass: when the first assignment raises,
    the other runs keep their texts. *)
Lemma rebuild_spec (t : str) (p : paragraph) :
  Structured.rebuild t p
  = match runs p with
    | [] => (p, None)
    | _ :: _ =>
        match snd (written t) with
        | None =>
            ({| children :=
                  on_others blank
                    (on_first (retext (fun _ => fst (written t)))
                              (children p)) |}, None)
        | Some e =>
            ({| children :=
                  on_first (retext (fun _ => fst (written t)))
                           (children p) |}, Some e)
        end
    end.
Proof.
  unfold Structured.rebuild, seq.
  destruct (runs p) as [|r0 rest] eqn:E; [reflexivity|].
  rewrite first_run_spec, E, set_text_snd.
  assert (on_first (fun r => fst (set_text t r)) (children p)
          = on_first (retext (fun _ => fst (written t))) (children p))
    as ->.
  { induction (children p) as [|[r|h] its IH]; simpl; [reflexivity| |].
    - now rewrite set_text_fst.
    - now rewrite IH. }
  destruct (snd (written t)); [reflexivity|].
  now rewrite other_runs_blank.
Qed.

(** The rebuild pass changes the texts of runs and nothing else,
    however it ends. *)
Lemma rebuild_rel (R : run -> run -> Prop) (t : str) (p : paragraph) :
  (forall r, R r r) ->
  (forall x y z, R x y -> R y z -> R x z) ->
  (forall f r, R r (retext f r)) ->
  paragraph_rel R p (fst (Structured.rebuild t p)).
Proof.
  intros Hrefl Htrans H. rewrite rebuild_spec.
  destruct (runs p) as [|r0 rest]; [now apply paragraph_rel_refl|].
  unfold paragraph_rel.
  destruct (snd (written t)); simpl.
  - apply on_first_rel; auto.
  - eapply Forall2_trans; [now apply item_rel_trans| |].
    + apply on_first_rel; [exact Hrefl|]. intros r. apply H.
    + apply on_others_rel; [exact Hrefl|]. intros r. apply H.
Qed.

Lemma rebuild_loop_rel (R : run -> run -> Prop) (mapping : dict)
      (l : list (str * str)) (p : paragraph) :
  (forall r, R r r) ->
  (forall x y z, R x y -> R y z -> R x z) ->
  (forall f r, R r (retext f r)) ->
  paragraph_rel R p
    (fst (for_items l (Structured.rebuild_entry mapping) p)).
Proof.
  intros Hrefl Htrans H.
  apply (for_items_inv (paragraph_rel R)).
  - intros x. now apply paragraph_rel_refl.
  - intros x y z. now apply paragraph_rel_trans.
  - intros src dst x _. unfold Structured.rebuild_entry.
    destruct (str_in src (paragraph_text x)).
    + now apply rebuild_rel.
    + now apply paragraph_rel_refl.
Qed.

(** Both scripts keep the formatting of a paragraph, however they
    end. *)
Lemma translate_paragraph_format (mapping : dict) (p : paragraph) :
  paragraph_format (fst (Translate.replace_in_paragraph p mapping))
  = paragraph_format p.
Proof.
  symmetry. apply paragraph_rel_format.
  apply run_local_rel; try congruence.
  intros src dst r _. symmetry. apply replace_in_run_style.
Qed.

Lemma structured_paragraph_format (mapping : dict) (p : paragraph) :
  paragraph_format (fst (Structured.replace_in_paragraph p mapping))
  = paragraph_format p.
Proof.
  symmetry. apply paragraph_rel_format.
  unfold Structured.replace_in_paragraph.
  apply (seq_inv (paragraph_rel (fun r r' => run_style r = run_style r'))).
  - intros x y z. apply paragraph_rel_trans. congruence.
  - apply run_local_rel; try congruence.
    intros src dst r _. symmetry. apply replace_in_run_style.
  - intros x. apply rebuild_loop_rel; try congruence. reflexivity.
Qed.

(** On a paragraph whose text holds no source, the rebuild loop does
    nothing and returns; so does it on a paragraph without runs. *)
Lemma rebuild_loop_fixed (mapping : dict) (l : list (str * str))
      (p : paragraph) :
  (forall src, In src (map fst l) -> str_in src (paragraph_text p) = false) ->
  for_items l (Structured.rebuild_entry mapping) p = (p, None).
Proof.
  intros H. apply for_items_fixed. intros src dst Hin.
  unfold Structured.rebuild_entry. rewrite H; [reflexivity|].
  apply in_map_iff. exists (src, dst). auto.
Qed.

Lemma rebuild_loop_no_runs (mapping : dict) (l : list (str * str))
      (p : paragraph) :
  runs p = [] ->
  for_items l (Structured.rebuild_entry mapping) p = (p, None).
Proof.
  intros H. apply for_items_fixed. intros src dst _.
  unfold Structured.rebuild_entry.
  destruct (str_in src (paragraph_text p)); [|reflexivity].
  rewrite rebuild_spec. now rewrite H.
Qed.

Lemma structured_fixed (mapping : dict) (p : paragraph) :
  source_free mapping (paragraph_text p) ->
  Structured.replace_in_paragraph p mapping = (p, None).
Proof.
  intros H. unfold Structured.replace_in_paragraph, seq.
  fold (Translate.replace_in_paragraph p mapping).
  rewrite (translate_fixed mapping p H).
  now apply rebuild_loop_fixed.
Qed.

(** The write of the rebuild pass on a paragraph without hyperlinks,
    for a verbatim text. *)
Lemma rebuild_verbatim (t : str) (p : paragraph) :
  verbatim t = true -> no_links p -> runs p <> [] ->
  exists p',
    Structured.rebuild t p = (p', None)
    /\ no_links p' /\ runs p' <> []
    /\ paragraph_text p' = t
    /\ (verbatim_paragraph p')
    /\ (forall r, In r (tl (runs p')) -> run_text r = []).
Proof.
  intros Ht Hp Hr. rewrite rebuild_spec, (written_verbatim t Ht).
  destruct (runs p) as [|r0 rest] eqn:E; [contradiction|]. simpl.
  eexists. split; [reflexivity|].
  unfold no_links, runs, paragraph_text, verbatim_paragraph. simpl.
  rewrite Hp, E. simpl. rewrite direct_runs_on_run, direct_runs_map.
  repeat split.
  - now rewrite !map_map.
  - discriminate.
  - rewrite !map_map. simpl.
    clear. induction rest as [|a rest IH]; simpl;
      [apply app_nil_r | exact IH].
  - intros r [<-|Hin]; [exact Ht|].
    apply in_map_iff in Hin as [x [<- _]]. reflexivity.
  - intros r Hin. apply in_map_iff in Hin as [x [<- _]]. reflexivity.
Qed.

Lemma verbatim_paragraph_text (p : paragraph) :
  no_links p -> verbatim_paragraph p -> verbatim (paragraph_text p) = true.
Proof.
  intros Hl Hp. rewrite (no_links_text p Hl). apply verbatim_concat.
  intros t Ht. apply in_map_iff in Ht as [r [<- Hr]]. now apply Hp.
Qed.

(** The rebuild loop on a paragraph without hyperlinks that has a run:
    it returns, and at every entry whose source occurs in the text the
    text becomes the sweep of the mapping over it. *)
Lemma rebuild_loop_no_links (mapping : dict) (l : list (str * str))
      (p : paragraph) :
  verbatim_mapping mapping ->
  no_links p -> verbatim_paragraph p -> runs p <> [] ->
  exists p',
    for_items l (Structured.rebuild_entry mapping) p = (p', None)
    /\ no_links p' /\ verbatim_paragraph p' /\ runs p' <> []
    /\ paragraph_text p'
       = fold_left
           (fun t e => if str_in (fst e) t then replace_all t mapping
                       else t)
           l (paragraph_text p).
Proof.
  intros Hm. revert p.
  induction l as [|[src dst] l IH]; intros p Hl Hp Hr.
  - exists p. simpl. auto.
  - simpl. unfold Structured.rebuild_entry at 1.
    destruct (str_in src (paragraph_text p)) eqn:E.
    + destruct (rebuild_verbatim (replace_all (paragraph_text p) mapping) p)
        as (p1 & E1 & Hl1 & Hr1 & Ht1 & Hp1 & _); auto.
      { apply verbatim_replace_all; [exact Hm|].
        now apply verbatim_paragraph_text. }
      rewrite E1.
      destruct (IH p1 Hl1 Hp1 Hr1) as (p' & E' & Hl' & Hp' & Hr' & Ht').
      exists p'. rewrite Ht1 in Ht'. auto.
    + apply IH; auto.
Qed.

End Rebuild.

(* ================================================================== *)
(** ** Lemmas on the substitution engine: texts without sources, and
       the final pass                                                  *)
(* ================================================================== *)

Section Clean.

Lemma str_in_nil_false (src : str) : src <> [] -> str_in src [] = false.
Proof. destruct src; [contradiction | reflexivity]. Qed.

(** After the rebuild loop of a mapping that brings no source back, no
    source is left in the text. *)
Lemma rebuild_text_clean (mapping : dict) (t : str) :
  no_reintroduction mapping ->
  source_free mapping (rebuild_text mapping t).
Proof.
  intros H. unfold rebuild_text, items.
  set (f := fun (t : str) (e : str * str) =>
              if str_in (fst e) t then replace_all t mapping else t).
  assert (forall l1 l2, mapping = l1 ++ l2 ->
          forall src, In src (keys l1) ->
                      str_in src (fold_left f l1 t) = false) as G.
  { induction l1 as [|e l1 IH] using rev_ind; intros l2 E src Hsrc.
    - contradiction.
    - rewrite fold_left_app. simpl.
      set (q := fold_left f l1 t) in *.
      unfold keys in Hsrc. rewrite map_app in Hsrc.
      unfold f at 1. destruct (str_in (fst e) q) eqn:Eq.
      + apply replace_all_clean; [exact H|].
        rewrite E. unfold keys. rewrite !map_app.
        apply in_or_app; left. exact Hsrc.
      + apply in_app_or in Hsrc as [Hsrc|Hsrc].
        * apply (IH ([e] ++ l2)); [now rewrite <- app_assoc in E | auto].
        * simpl in Hsrc. destruct Hsrc as [<-|[]]. exact Eq. }
  intros src Hsrc. apply (G mapping []); [now rewrite app_nil_r | auto].
Qed.

(** [replace_in_paragraph] of [pdf_translator_structured.py] on a
    paragraph without hyperlinks, for verbatim texts and targets: it
    returns, and the text of the paragraph is the text the run-local
    pass leaves, taken through the rebuild loop. *)
Lemma structured_no_links (mapping : dict) (p : paragraph) :
  verbatim_mapping mapping -> no_links p -> verbatim_paragraph p ->
  exists p',
    Structured.replace_in_paragraph p mapping = (p', None)
    /\ no_links p' /\ verbatim_paragraph p'
    /\ paragraph_text p'
       = match runs p with
         | [] => []
         | _ :: _ =>
             rebuild_text mapping
               (paragraph_text
                  (fst (Translate.replace_in_paragraph p mapping)))
         end.
Proof.
  intros Hm Hl Hp. unfold Structured.replace_in_paragraph, seq.
  fold (Translate.replace_in_paragraph p mapping).
  rewrite (run_local_pass mapping p Hm Hp). simpl fst.
  set (q := map_runs (retext (fun t => replace_all t mapping)) p).
  assert (no_links q) as Hlq by now apply no_links_map_runs.
  assert (verbatim_paragraph q) as Hpq.
  { apply verbatim_map_runs; [|exact Hp].
    intros t Ht. now apply verbatim_replace_all. }
  assert (runs q = map (retext (fun t => replace_all t mapping)) (runs p))
    as Hrq by apply runs_map_runs.
  destruct (runs p) as [|r0 rest] eqn:E.
  - rewrite rebuild_loop_no_runs by exact Hrq.
    exists q. repeat split; auto.
    rewrite (no_links_text q Hlq), Hrq. reflexivity.
  - destruct (rebuild_loop_no_links mapping (items mapping) q)
      as (p' & E' & Hl' & Hp' & _ & Ht'); auto.
    { rewrite Hrq. discriminate. }
    exists p'. auto.
Qed.

Lemma structured_clean (mapping : dict) (p : paragraph) :
  no_reintroduction mapping ->
  verbatim_mapping mapping -> no_links p -> verbatim_paragraph p ->
  exists p',
    Structured.replace_in_paragraph p mapping = (p', None)
    /\ no_links p' /\ verbatim_paragraph p'
    /\ source_free mapping (paragraph_text p').
Proof.
  intros H Hm Hl Hp.
  destruct (structured_no_links mapping p Hm Hl Hp)
    as (p' & E & Hl' & Hp' & Ht).
  exists p'. repeat split; auto. rewrite Ht.
  destruct (runs p).
  - intros src Hsrc. apply str_in_nil_false.
    now apply (no_reintroduction_nonempty mapping H).
  - now apply rebuild_text_clean.
Qed.

End Clean.

Section FinalPass.

(** The scan is the sweep: its guard [if src in original_text] only
    feeds the flag. *)
Lemma fold_scan_fst (l : list (str * str)) (t : str) (b : bool) :
  fst (fold_left scan_step l (t, b))
  = fold_left (fun t e => replace t (fst e) (snd e)) l t.
Proof.
  revert t b; induction l as [|e l IH]; intros t b; [reflexivity|].
  simpl. unfold scan_step at 2. simpl.
  destruct (str_in (fst e) t) eqn:E.
  - apply IH.
  - rewrite (replace_absent t (fst e) (snd e) E). apply IH.
Qed.

Lemma fold_scan_flag (l : list (str * str)) (t : str) :
  snd (fold_left scan_step l (t, true)) = true.
Proof.
  revert t; induction l as [|e l IH]; intros t; [reflexivity|].
  simpl. unfold scan_step at 2. simpl.
  destruct (str_in (fst e) t); apply IH.
Qed.

Lemma fold_scan_unmodified (l : list (str * str)) (t : str) :
  snd (fold_left scan_step l (t, false)) = false ->
  fold_left (fun t e => replace t (fst e) (snd e)) l t = t.
Proof.
  revert t; induction l as [|e l IH]; intros t H; [reflexivity|].
  simpl in *. unfold scan_step at 2 in H. simpl in H.
  destruct (str_in (fst e) t) eqn:E.
  - rewrite fold_scan_flag in H. discriminate.
  - rewrite (replace_absent t (fst e) (snd e) E). now apply IH.
Qed.

Lemma scan_sweep (t : str) (mapping : dict) :
  fst (scan t mapping) = replace_all t mapping
  /\ (snd (scan t mapping) = false -> replace_all t mapping = t).
Proof.
  split; [apply fold_scan_fst | apply fold_scan_unmodified].
Qed.

(** The final pass on one paragraph, case by case. *)
Lemma final_pass_paragraph_cases (mapping : dict) (p : paragraph) :
  Structured.final_pass_paragraph mapping p
  = if truthy (paragraph_text p) && snd (scan (paragraph_text p) mapping)
    then
      let t := replace_all (paragraph_text p) mapping in
      match runs p with
      | _ :: _ =>
          ({| children :=
                on_first (retext (fun _ => fst (written t)))
                         (map (on_run blank) (children p)) |},
           snd (written t))
      | [] => add_run t p
      end
    else (p, None).
Proof.
  unfold Structured.final_pass_paragraph.
  destruct (truthy (paragraph_text p)); [|reflexivity].
  destruct (scan_sweep (paragraph_text p) mapping) as [E1 _].
  destruct (scan (paragraph_text p) mapping) as [t modified].
  simpl in E1. subst t. simpl. destruct modified; [|reflexivity].
  unfold seq. rewrite (for_runs_map blank) by (intros; apply set_text_nil).
  rewrite runs_map_runs.
  destruct (runs p) as [|r0 rest] eqn:E; simpl.
  - rewrite map_runs_id; [reflexivity|]. rewrite E. intros r [].
  - rewrite first_run_spec, runs_map_runs, E. simpl.
    rewrite set_text_snd. f_equal. f_equal. unfold map_runs. simpl.
    induction (map (on_run blank) (children p)) as [|[r|h] its IH];
      simpl; [reflexivity| |].
    + now rewrite set_text_fst.
    + now rewrite IH.
Qed.

Lemma final_pass_fixed (mapping : dict) (p : paragraph) :
  source_free mapping (paragraph_text p) ->
  Structured.final_pass_paragraph mapping p = (p, None).
Proof.
  intros H. rewrite final_pass_paragraph_cases, (scan_fixed _ _ H).
  simpl. now rewrite andb_false_r.
Qed.

(** The final pass changes the texts of the runs of a paragraph that
    has a run, and nothing else. *)
Lemma final_pass_paragraph_format (mapping : dict) (p : paragraph) :
  runs p <> [] ->
  paragraph_format (fst (Structured.final_pass_paragraph mapping p))
  = paragraph_format p.
Proof.
  intros Hr. rewrite final_pass_paragraph_cases.
  destruct (truthy (paragraph_text p) && snd (scan (paragraph_text p) mapping));
    [|reflexivity].
  cbv zeta. destruct (runs p) as [|r0 rest]; [contradiction|]. simpl.
  symmetry. apply paragraph_rel_format. unfold paragraph_rel. simpl.
  eapply Forall2_trans; [apply item_rel_trans; congruence| |].
  - apply (on_run_rel _ blank). reflexivity.
  - apply on_first_rel; reflexivity.
Qed.

Lemma truthy_text_runs (p : paragraph) :
  no_links p -> truthy (paragraph_text p) = true -> runs p <> [].
Proof.
  intros Hl H E. rewrite (no_links_text p Hl), E in H. discriminate.
Qed.

Lemma concat_blank (rest : list run) :
  List.concat (map run_text (map blank rest)) = [].
Proof. induction rest; simpl; auto. Qed.

(** The final pass on a paragraph without hyperlinks, for verbatim
    texts and targets: it returns, and a text that is not empty
    becomes the sweep of the mapping over it. *)
Lemma final_pass_no_links (mapping : dict) (p : paragraph) :
  verbatim_mapping mapping -> no_links p -> verbatim_paragraph p ->
  exists p',
    Structured.final_pass_paragraph mapping p = (p', None)
    /\ no_links p'
    /\ paragraph_text p'
       = if truthy (paragraph_text p)
         then replace_all (paragraph_text p) mapping
         else paragraph_text p.
Proof.
  intros Hm Hl Hp. rewrite final_pass_paragraph_cases.
  destruct (truthy (paragraph_text p)) eqn:T; simpl.
  2:{ exists p. auto. }
  destruct (scan_sweep (paragraph_text p) mapping) as [_ E2].
  destruct (snd (scan (paragraph_text p) mapping)).
  2:{ exists p. rewrite E2; auto. }
  pose proof (truthy_text_runs p Hl T) as Hr.
  destruct (runs p) as [|r0 rest] eqn:E; [contradiction|].
  rewrite written_verbatim.
  2:{ apply verbatim_replace_all; [exact Hm|].
      now apply verbatim_paragraph_text. }
  eexists. split; [reflexivity|].
  unfold no_links, runs, paragraph_text. simpl.
  rewrite Hl, E. simpl. rewrite direct_runs_on_run, direct_runs_map.
  split.
  - now rewrite !map_map.
  - rewrite !map_map. simpl.
    match goal with |- ?t ++ _ = _ => generalize t end.
    intros t. clear. induction rest as [|a rest IH]; simpl;
      [apply app_nil_r | exact IH].
Qed.

End FinalPass.

(* ================================================================== *)
(** ** The substitution engine: the properties of the specification   *)
(* ================================================================== *)

(** Two sweeps of a mapping that brings no source back are one sweep. *)
Lemma replace_all_idempotent (mapping : dict) (s : str) :
  no_reintroduction mapping ->
  replace_all (replace_all s mapping) mapping = replace_all s mapping.
Proof.
  intros H. apply replace_all_fixed. intros src Hsrc.
  now apply replace_all_clean.
Qed.

(** The run-local pass a second time finds no source in any run. *)
Lemma translate_twice (mapping : dict) (p : paragraph) :
  no_reintroduction mapping ->
  verbatim_mapping mapping -> verbatim_paragraph p ->
  exists p1,
    Translate.replace_in_paragraph p mapping = (p1, None)
    /\ Translate.replace_in_paragraph p1 mapping = (p1, None).
Proof.
  intros H Hm Hp. rewrite (run_local_pass mapping p Hm Hp).
  eexists. split; [reflexivity|].
  apply run_local_fixed. intros r src Hr Hsrc.
  rewrite runs_map_runs in Hr. apply in_map_iff in Hr as [r0 [<- _]].
  simpl. now apply replace_all_clean.
Qed.

Lemma structured_twice (mapping : dict) (p : paragraph) :
  no_reintroduction mapping ->
  verbatim_mapping mapping -> verbatim_paragraph p -> no_links p ->
  exists p1,
    Structured.replace_in_paragraph p mapping = (p1, None)
    /\ Structured.replace_in_paragraph p1 mapping = (p1, None).
Proof.
  intros H Hm Hp Hl.
  destruct (structured_clean mapping p H Hm Hl Hp) as (p1 & E & _ & _ & Hc).
  exists p1. split; [exact E|]. now apply structured_fixed.
Qed.

(** C1, as the claim states it, fails: the target ["b"] does not contain
    the source ["ab"], the source occurs in the paragraph of the one run
    ["aaaaab"], and [replace_in_paragraph] and the final pass return and
    leave the text ["aab"], in which the source still occurs. *)
Lemma C1_counterexample :
  let mapping := [entry "ab" "b"] in
  let p := para ["aaaaab"]%string in
  no_target_contains_source mapping
  /\ In (lit "ab", lit "b") (items mapping)
  /\ paragraph_text p = List.concat (map run_text (runs p))
  /\ str_in (lit "ab") (paragraph_text p) = true
  /\ Structured.substitute p mapping = (para ["aab"]%string, None)
  /\ str_in (lit "ab")
       (paragraph_text (fst (Structured.substitute p mapping))) = true.
Proof.
  cbv zeta. split; [|repeat split; try reflexivity; now left].
  intros src dst [<-|[]] [<-|[]]. reflexivity.
Qed.

(** C1 (amended): no-match-left.  For a paragraph whose text is the
    text of its runs (it has no hyperlink), when no target of the
    mapping contains or creates a source of the mapping, and the texts
    of the runs and the targets are strings a run keeps as they are,
    [replace_in_paragraph] and the final pass return, and every source
    of the mapping that occurred in the text of the paragraph is gone
    from it. *)
Theorem C1_no_match_left (mapping : dict) (p : paragraph) (src dst : str) :
  no_reintroduction mapping ->
  verbatim_mapping mapping -> verbatim_paragraph p -> no_links p ->
  In (src, dst) (items mapping) ->
  str_in src (paragraph_text p) = true ->
  exists p',
    Structured.substitute p mapping = (p', None)
    /\ str_in src (paragraph_text p') = false.
Proof.
  intros H Hm Hp Hl Hin _. unfold Structured.substitute, seq.
  destruct (structured_clean mapping p H Hm Hl Hp) as (p1 & E & _ & _ & Hc).
  rewrite E, (final_pass_fixed mapping _ Hc).
  exists p1. split; [reflexivity|].
  apply Hc. now apply (in_items_keys mapping src dst).
Qed.

Lemma verbatim_para (l : list string) :
  forallb (fun s => verbatim (lit s)) l = true ->
  verbatim_paragraph (para l).
Proof.
  intros H r Hr. unfold para, runs in Hr. simpl in Hr.
  rewrite forallb_forall in H.
  induction l as [|a l IH]; simpl in Hr; [contradiction|].
  destruct Hr as [<-|Hr].
  - apply H. now left.
  - apply IH; [|exact Hr]. intros x Hx. apply H. now right.
Qed.

Lemma verbatim_entries (mapping : dict) :
  forallb verbatim (values mapping) = true -> verbatim_mapping mapping.
Proof. intros H dst Hd. rewrite forallb_forall in H. now apply H. Qed.

Lemma C1_no_match_left_witness :
  exists p',
    Structured.substitute (para ["Inv"; "oice #123"]%string)
                          [entry "Invoice" "Factura"] = (p', None)
    /\ str_in (lit "Invoice") (paragraph_text p') = false.
Proof.
  apply (C1_no_match_left [entry "Invoice" "Factura"]
           (para ["Inv"; "oice #123"]%string) (lit "Invoice") (lit "Factura")).
  - apply separated_no_reintroduction. vm_compute. reflexivity.
  - apply verbatim_entries. vm_compute. reflexivity.
  - apply verbatim_para. vm_compute. reflexivity.
  - apply no_links_para.
  - simpl. left. reflexivity.
  - vm_compute. reflexivity.
Defined.

(** C2, as the claim states it, fails for [replace_in_paragraph] of
    [translate.py], which the claim names too: no run of the paragraph
    contains ["Invoice"], so the run-local pass, the only one that
    script has, rewrites nothing, and the text stays
    ["Invoice #123"]. *)
Lemma C2_counterexample :
  let mapping := [entry "Invoice" "Factura"] in
  let p := para ["Inv"; "oice #123"]%string in
  Translate.replace_in_paragraph p mapping = (p, None)
  /\ paragraph_text (fst (Translate.replace_in_paragraph p mapping))
     = lit "Invoice #123"
  /\ paragraph_text (fst (Translate.replace_in_paragraph p mapping))
     <> lit "Factura #123".
Proof.
  cbv zeta. repeat split; try reflexivity. vm_compute. discriminate.
Qed.

(** C2 (amended): run-straddling coverage.  In the paragraph of the runs
    ["Inv"] and ["oice #123"] no run contains ["Invoice"].
    [replace_in_paragraph] of [pdf_translator_structured.py] with the
    mapping of ["Invoice"] to ["Factura"] returns and makes the text
    ["Factura #123"]: the rebuild pass fires, the first run takes the
    whole text and the second is blank.  [replace_in_paragraph] of
    [translate.py], which has no rebuild pass, returns and leaves the
    paragraph as it is. *)
Theorem C2_run_straddling :
  let mapping := [entry "Invoice" "Factura"] in
  let p := para ["Inv"; "oice #123"]%string in
  forallb (fun r => negb (str_in (lit "Invoice") (run_text r))) (runs p)
  = true
  /\ str_in (lit "Invoice") (paragraph_text p) = true
  /\ Structured.replace_in_paragraph p mapping
     = (para ["Factura #123"%string; EmptyString], None)
  /\ paragraph_text (fst (Structured.replace_in_paragraph p mapping))
     = lit "Factura #123"
  /\ Translate.replace_in_paragraph p mapping = (p, None).
Proof. cbv zeta. repeat split; reflexivity. Qed.

(** C3, as the claim states it, fails for [replace_in_paragraph] of
    [pdf_translator_structured.py]: the mapping of ["Invoice"] to
    ["Factura"] brings no source back, and on the paragraph of the run
    ["See "], a hyperlink with the text ["Invoice"] and the run
    [" now"] the first call leaves the text ["See Factura nowInvoice"]
    (the rebuild pass writes the whole text into the first run and
    cannot touch the hyperlink) and the second call leaves
    ["See Factura nowFacturaInvoice"]. *)
Lemma C3_counterexample :
  let mapping := [entry "Invoice" "Factura"] in
  let once := Structured.replace_in_paragraph linked mapping in
  let twice := Structured.replace_in_paragraph (fst once) mapping in
  no_reintroduction mapping
  /\ snd once = None /\ snd twice = None
  /\ paragraph_text linked = lit "See Invoice now"
  /\ paragraph_text (fst once) = lit "See Factura nowInvoice"
  /\ paragraph_text (fst twice) = lit "See Factura nowFacturaInvoice"
  /\ paragraph_text (fst twice) <> paragraph_text (fst once).
Proof.
  cbv zeta. split.
  - apply separated_no_reintroduction. vm_compute. reflexivity.
  - repeat split; try reflexivity. vm_compute. discriminate.
Qed.

(** C3 (amended): idempotence.  When no target of the mapping contains
    or creates a source of the mapping, and the texts of the runs and
    the targets are strings a run keeps as they are:
    [replace_in_paragraph] of [translate.py] returns, and applied again
    to the paragraph it leaves, it returns and changes nothing; so does
    [replace_in_paragraph] of [pdf_translator_structured.py] on a
    paragraph without hyperlinks.  The text after two calls is then the
    text after one. *)
Theorem C3_idempotent (mapping : dict) (p : paragraph) :
  no_reintroduction mapping ->
  verbatim_mapping mapping -> verbatim_paragraph p ->
  (exists p1,
      Translate.replace_in_paragraph p mapping = (p1, None)
      /\ Translate.replace_in_paragraph p1 mapping = (p1, None)
      /\ paragraph_text
           (fst (Translate.replace_in_paragraph
                   (fst (Translate.replace_in_paragraph p mapping)) mapping))
         = paragraph_text (fst (Translate.replace_in_paragraph p mapping)))
  /\ (no_links p ->
      exists p1,
        Structured.replace_in_paragraph p mapping = (p1, None)
        /\ Structured.replace_in_paragraph p1 mapping = (p1, None)
        /\ paragraph_text
             (fst (Structured.replace_in_paragraph
                     (fst (Structured.replace_in_paragraph p mapping))
                     mapping))
           = paragraph_text (fst (Structured.replace_in_paragraph p mapping))).
Proof.
  intros H Hm Hp. split.
  - destruct (translate_twice mapping p H Hm Hp) as (p1 & E1 & E2).
    exists p1. rewrite E1. simpl. rewrite E2. auto.
  - intros Hl.
    destruct (structured_twice mapping p H Hm Hp Hl) as (p1 & E1 & E2).
    exists p1. rewrite E1. simpl. rewrite E2. auto.
Qed.

Lemma C3_idempotent_witness :
  let mapping := [entry "Invoice" "Factura"; entry "Sum" "TOTAL"] in
  (exists p1,
      Translate.replace_in_paragraph linked mapping = (p1, None)
      /\ Translate.replace_in_paragraph p1 mapping = (p1, None))
  /\ (exists p1,
         Structured.replace_in_paragraph
           (para ["Inv"; "oice #123 Sum"]%string) mapping = (p1, None)
         /\ Structured.replace_in_paragraph p1 mapping = (p1, None)).
Proof.
  cbv zeta.
  assert (no_reintroduction
            [entry "Invoice" "Factura"; entry "Sum" "TOTAL"]) as H
      by (apply separated_no_reintroduction; vm_compute; reflexivity).
  assert (verbatim_mapping
            [entry "Invoice" "Factura"; entry "Sum" "TOTAL"]) as Hm
      by (apply verbatim_entries; vm_compute; reflexivity).
  split.
  - destruct (proj1 (C3_idempotent
                       [entry "Invoice" "Factura"; entry "Sum" "TOTAL"]
                       linked H Hm
                       ltac:(intros r [<-|[<-|[]]]; reflexivity)))
      as (p1 & E1 & E2 & _).
    exists p1. auto.
  - destruct (proj2 (C3_idempotent
                       [entry "Invoice" "Factura"; entry "Sum" "TOTAL"]
                       (para ["Inv"; "oice #123 Sum"]%string) H Hm
                       ltac:(apply verbatim_para; vm_compute; reflexivity))
                    (no_links_para _))
      as (p1 & E1 & E2 & _).
    exists p1. auto.
Defined.

(** C4, as the claim states it, fails: with the sources ["cat"] and
    ["a"], in this order, and the paragraph of the runs ["ca"] and ["t"],
    each entry's replace-all on the text ["cat"] in insertion order gives
    ["dog"], and [replace_in_paragraph] gives ["cot"] in both scripts:
    the run-local pass finds ["cat"] in no run and rewrites the ["a"]
    of the first run, after which the rebuild pass finds no source. *)
Lemma C4_counterexample :
  let mapping := [entry "cat" "dog"; entry "a" "o"] in
  let p := para ["ca"; "t"]%string in
  paragraph_text p = lit "cat"
  /\ replace_all (paragraph_text p) mapping = lit "dog"
  /\ Structured.replace_in_paragraph p mapping
     = (para ["co"; "t"]%string, None)
  /\ Translate.replace_in_paragraph p mapping
     = (para ["co"; "t"]%string, None)
  /\ paragraph_text (fst (Structured.replace_in_paragraph p mapping))
     = lit "cot"
  /\ paragraph_text (fst (Structured.replace_in_paragraph p mapping))
     <> replace_all (paragraph_text p) mapping.
Proof. cbv zeta. repeat split; try reflexivity. vm_compute. discriminate. Qed.

(** C4 (amended): order sensitivity.  A sweep applies the entries in
    insertion order, each over the whole of its text, with no preference
    for a longer source: with ["cat"] before ["category"] the text
    ["category"] becomes ["dogegory"].  For texts of runs and targets
    that a run keeps as they are: [replace_in_paragraph] of
    [translate.py] returns, and the text of every run is then the sweep
    of the text of that run, the hyperlinks being left alone; for a
    paragraph without hyperlinks [replace_in_paragraph] of
    [pdf_translator_structured.py] returns, and the text of the
    paragraph is then the text of those swept runs put together and
    taken through the rebuild loop: at every entry, in insertion order,
    whose source occurs in the text as it then is, the whole mapping is
    swept over the text once more. *)
Theorem C4_insertion_order (mapping : dict) (p : paragraph) :
  verbatim_mapping mapping -> verbatim_paragraph p ->
  (forall s src dst rest,
      replace_all s ((src, dst) :: rest)
      = replace_all (replace s src dst) rest)
  /\ replace_all (lit "category") [entry "cat" "dog"; entry "category" "kind"]
     = lit "dogegory"
  /\ Translate.replace_in_paragraph p mapping
     = (map_runs (retext (fun t => replace_all t mapping)) p, None)
  /\ runs (fst (Translate.replace_in_paragraph p mapping))
     = map (retext (fun t => replace_all t mapping)) (runs p)
  /\ (no_links p ->
      exists p',
        Structured.replace_in_paragraph p mapping = (p', None)
        /\ paragraph_text p'
           = match runs p with
             | [] => []
             | _ :: _ =>
                 rebuild_text mapping
                   (List.concat
                      (map (fun r => replace_all (run_text r) mapping)
                           (runs p)))
             end).
Proof.
  intros Hm Hp. split; [reflexivity|]. split; [reflexivity|].
  rewrite (run_local_pass mapping p Hm Hp). split; [reflexivity|].
  split; [apply runs_map_runs|]. intros Hl.
  destruct (structured_no_links mapping p Hm Hl Hp) as (p' & E & _ & _ & Ht).
  exists p'. split; [exact E|]. rewrite Ht.
  destruct (runs p) as [|r0 rest] eqn:Er; [reflexivity|].
  rewrite (run_local_pass mapping p Hm Hp). simpl fst.
  rewrite (no_links_text _ (no_links_map_runs _ p Hl)), runs_map_runs, Er.
  now rewrite map_map.
Qed.

Lemma C4_insertion_order_witness :
  let mapping := [entry "cat" "dog"; entry "category" "kind"] in
  let p := para ["cate"; "gory"]%string in
  Translate.replace_in_paragraph p mapping
  = (para ["doge"; "gory"]%string, None)
  /\ exists p',
       Structured.replace_in_paragraph p mapping = (p', None)
       /\ paragraph_text p' = lit "dogegory".
Proof.
  cbv zeta.
  destruct (C4_insertion_order
              [entry "cat" "dog"; entry "category" "kind"]
              (para ["cate"; "gory"]%string))
    as (_ & _ & H3 & _ & H5).
  - apply verbatim_entries. vm_compute. reflexivity.
  - apply verbatim_para. vm_compute. reflexivity.
  - split; [exact H3|].
    destruct (H5 (no_links_para _)) as (p' & E & Ht).
    exists p'. split; [exact E|]. rewrite Ht. vm_compute. reflexivity.
Defined.

(** C9: the frame of [replace_in_paragraph] in [translate.py].  However
    it ends, it keeps the number of runs and the formatting of every
    run, and a run whose text contains no source of the mapping is left
    as it is; and when no run contains a source, it returns and the
    paragraph and its text are unchanged, also when a source occurs in
    the text across a run boundary. *)
Theorem C9_base_frame (mapping : dict) (p : paragraph) :
  let p' := fst (Translate.replace_in_paragraph p mapping) in
  List.length (runs p') = List.length (runs p)
  /\ map run_style (runs p') = map run_style (runs p)
  /\ (forall i r,
         nth_error (runs p) i = Some r ->
         source_free mapping (run_text r) ->
         nth_error (runs p') i = Some r)
  /\ ((forall r, In r (runs p) -> source_free mapping (run_text r)) ->
      Translate.replace_in_paragraph p mapping = (p, None)
      /\ p' = p /\ paragraph_text p' = paragraph_text p).
Proof.
  cbv zeta.
  assert (map run_style (runs (fst (Translate.replace_in_paragraph p mapping)))
          = map run_style (runs p)) as Hstyle.
  { symmetry. apply Forall2_map_eq. apply runs_rel.
    apply run_local_rel; try congruence.
    intros src dst r _. symmetry. apply replace_in_run_style. }
  split; [|split; [exact Hstyle|split]].
  - apply (f_equal (@List.length nat)) in Hstyle.
    now rewrite !length_map in Hstyle.
  - intros i r Hi Hfree.
    assert (Forall2 (fun r r' => source_free mapping (run_text r) -> r' = r)
                    (runs p)
                    (runs (fst (Translate.replace_in_paragraph p mapping))))
      as HR.
    { apply runs_rel. apply run_local_rel.
      - auto.
      - intros x y z Hxy Hyz Hx. specialize (Hxy Hx). subst y. auto.
      - intros src dst r0 Hin Hr0.
        rewrite replace_in_run_absent; [reflexivity|].
        apply Hr0. now apply (in_items_keys mapping src dst). }
    destruct (Forall2_nth_error _ _ _ i r HR Hi) as (y & Hy & Ry).
    now rewrite Hy, (Ry Hfree).
  - intros H.
    assert (Translate.replace_in_paragraph p mapping = (p, None)) as E.
    { apply run_local_fixed. intros r src Hr Hsrc. now apply (H r Hr). }
    rewrite E. auto.
Qed.

Lemma C9_base_frame_witness :
  let mapping := [entry "Invoice" "Factura"] in
  let p := para ["Inv"; "oice #123"]%string in
  str_in (lit "Invoice") (paragraph_text p) = true
  /\ nth_error (runs (fst (Translate.replace_in_paragraph p mapping))) 1
     = Some (plain "oice #123")
  /\ Translate.replace_in_paragraph p mapping = (p, None)
  /\ paragraph_text (fst (Translate.replace_in_paragraph p mapping))
     = paragraph_text p.
Proof.
  cbv zeta.
  destruct (C9_base_frame [entry "Invoice" "Factura"]
              (para ["Inv"; "oice #123"]%string)) as (_ & _ & H3 & H4).
  split; [reflexivity|]. split.
  - apply H3; [reflexivity|]. intros src [<-|[]]. reflexivity.
  - destruct H4 as (E & _ & Et).
    + intros r [<-|[<-|[]]] src [<-|[]]; reflexivity.
    + split; [exact E | exact Et].
Defined.


(* ================================================================== *)
(** ** The mapping loader                                              *)
(* ================================================================== *)

Section Loader.

Lemma partition_some (s : str) (c : char) (a b : str) :
  partition s c = Some (a, b) <-> s = a ++ c :: b /\ ~ In c a.
Proof.
  revert a; induction s as [|d s IH]; intros a; simpl.
  - split; [discriminate|]. intros [H _]. destruct a; discriminate.
  - destruct (N.eqb d c) eqn:E.
    + apply N.eqb_eq in E. subst d. split.
      * intros H. inversion H; subst. simpl. auto.
      * intros [H Hn]. destruct a as [|x a]; simpl in H.
        -- inversion H; subst. reflexivity.
        -- inversion H; subst. exfalso. apply Hn. now left.
    + apply N.eqb_neq in E. destruct (partition s c) as [[a' b']|] eqn:P.
      * split.
        -- intros H. inversion H; subst.
           destruct (proj1 (IH a') eq_refl) as [-> Hn]. split; [reflexivity|].
           intros [H1|H1]; [congruence | contradiction].
        -- intros [H Hn]. destruct a as [|x a]; simpl in H.
           ++ inversion H; subst. congruence.
           ++ inversion H; subst.
              assert (Some (a', b') = Some (a, b)) as E'.
              { apply IH. split; [reflexivity|]. intros Hin. apply Hn.
                now right. }
              now inversion E'.
      * split; [discriminate|]. intros [H Hn].
        destruct a as [|x a]; simpl in H.
        -- inversion H; subst. congruence.
        -- inversion H; subst.
           assert (None = Some (a, b)) as E'.
           { apply IH. split; [reflexivity|]. intros Hin. apply Hn.
             now right. }
           discriminate.
Qed.

Lemma partition_none (s : str) (c : char) :
  partition s c = None <-> ~ In c s.
Proof.
  induction s as [|d s IH]; simpl.
  - tauto.
  - destruct (N.eqb d c) eqn:E.
    + apply N.eqb_eq in E. split; [discriminate | intros H; tauto].
    + apply N.eqb_neq in E. destruct (partition s c) as [[a b]|].
      * split; [discriminate|]. intros H. exfalso.
        assert (~ In c s) as H' by tauto.
        apply IH in H'. discriminate.
      * split; [|reflexivity]. intros _ [H|H]; [congruence|].
        now apply (proj1 IH).
Qed.

(** ['=' in line]. *)
Lemma str_in_char (c : char) (s : str) :
  str_in [c] s = true <-> In c s.
Proof.
  rewrite str_in_app. split.
  - intros [u [v ->]]. apply in_or_app. right. now left.
  - intros H. apply in_split in H as [u [v ->]]. now exists u, v.
Qed.

Lemma str_in_char_false (c : char) (s : str) :
  str_in [c] s = false <-> ~ In c s.
Proof.
  rewrite <- str_in_char. destruct (str_in [c] s); split; congruence.
Qed.

(** A line that is empty after stripping or has no ['='] is skipped. *)
Lemma load_line_skip (mapping : dict) (line : str) :
  strip line = [] \/ ~ In EQUALS (strip line) ->
  load_line mapping line = Return mapping.
Proof.
  unfold load_line. intros [H|H].
  - now rewrite H.
  - apply str_in_char_false in H. change (lit "=") with [EQUALS].
    rewrite H. now rewrite orb_true_r.
Qed.

(** Any other line is cut at its first ['=']. *)
Lemma load_line_entry (mapping : dict) (line src dst : str) :
  strip line = src ++ EQUALS :: dst -> ~ In EQUALS src ->
  load_line mapping line = Return (setitem mapping src dst).
Proof.
  intros H Hn. unfold load_line. change (lit "=") with [EQUALS].
  assert (str_in [EQUALS] (strip line) = true) as E.
  { apply str_in_char. rewrite H. apply in_or_app. right. now left. }
  assert (truthy (strip line) = true) as T.
  { rewrite H. destruct src; reflexivity. }
  rewrite E, T. simpl. unfold split1.
  now rewrite (proj2 (partition_some (strip line) EQUALS src dst)
                     (conj H Hn)).
Qed.

(** The unpacking of the split never raises. *)
Lemma load_line_total (mapping : dict) (line : str) :
  exists mapping', load_line mapping line = Return mapping'.
Proof.
  destruct (partition (strip line) EQUALS) as [[a b]|] eqn:P.
  - apply partition_some in P as [H Hn].
    eexists. now apply (load_line_entry mapping line a b).
  - apply partition_none in P. exists mapping.
    apply load_line_skip. now right.
Qed.

Lemma load_lines_total (lines : list str) (mapping : dict) :
  exists mapping', load_lines mapping lines = Return mapping'.
Proof.
  revert mapping; induction lines as [|l lines IH]; intros mapping; simpl.
  - eauto.
  - destruct (load_line_total mapping l) as [m' ->]. apply IH.
Qed.

Lemma get_setitem (d : dict) (k v k' : str) :
  get (setitem d k v) k' = if Str.eqb k k' then Some v else get d k'.
Proof.
  induction d as [|[k0 v0] d IH]; simpl; [reflexivity|].
  destruct (Str.eqb k0 k) eqn:E; simpl.
  - apply eqb_eq in E. subst k0. now destruct (Str.eqb k k').
  - rewrite IH. destruct (Str.eqb k0 k') eqn:E1; [|reflexivity].
    destruct (Str.eqb k k') eqn:E2; [|reflexivity].
    apply eqb_eq in E1, E2. subst. rewrite eqb_refl in E. discriminate.
Qed.

Lemma get_in_keys (d : dict) (k : str) (v : str) :
  get d k = Some v -> In k (keys d).
Proof.
  induction d as [|[k0 v0] d IH]; simpl; [discriminate|].
  destruct (Str.eqb k0 k) eqn:E.
  - apply eqb_eq in E. auto.
  - auto.
Qed.

(** A key once set stays in the mapping through the later lines. *)
Lemma load_line_keeps (mapping mapping' : dict) (line k v : str) :
  get mapping k = Some v ->
  load_line mapping line = Return mapping' ->
  exists v', get mapping' k = Some v'.
Proof.
  intros Hk H.
  destruct (partition (strip line) EQUALS) as [[a b]|] eqn:P.
  - apply partition_some in P as [E Hn].
    rewrite (load_line_entry mapping line a b E Hn) in H.
    inversion H; subst. rewrite get_setitem.
    destruct (Str.eqb a k); eauto.
  - apply partition_none in P.
    rewrite (load_line_skip mapping line (or_intror P)) in H.
    inversion H; subst. eauto.
Qed.

Lemma load_lines_keeps (lines : list str) (mapping : dict) (k v : str) :
  get mapping k = Some v ->
  exists mapping' v',
    load_lines mapping lines = Return mapping' /\ get mapping' k = Some v'.
Proof.
  revert mapping v; induction lines as [|l lines IH]; intros mapping v Hk.
  - simpl. eauto.
  - simpl. destruct (load_line_total mapping l) as [m' E]. rewrite E.
    destruct (load_line_keeps mapping m' l k v Hk E) as [v' Hv'].
    now apply (IH m' v').
Qed.

(** The loader sets the entries of the lines, in their order. *)
Lemma load_lines_entries (lines : list str) (mapping : dict) :
  load_lines mapping lines
  = Return (set_entries mapping (flat_map line_entry lines)).
Proof.
  revert mapping; induction lines as [|l lines IH]; intros mapping;
    [reflexivity|].
  simpl. unfold set_entries. rewrite fold_left_app.
  fold (set_entries mapping (line_entry l)).
  fold (set_entries (set_entries mapping (line_entry l))
                    (flat_map line_entry lines)).
  rewrite <- IH. unfold line_entry.
  destruct (partition (strip l) EQUALS) as [[a b]|] eqn:P.
  - apply partition_some in P as [E Hn].
    now rewrite (load_line_entry mapping l a b E Hn).
  - apply partition_none in P.
    now rewrite (load_line_skip mapping l (or_intror P)).
Qed.

End Loader.

(** C5: the contract of [load_mapping].  A line that is empty after
    stripping or has no ['='] leaves the mapping as it is; any other line
    is cut at its first ['='] and sets the text before it, as it is, to
    the text after it, as it is; the loader never raises on a text; each
    script's [load_mapping] returns the mapping of the text of the file,
    which is the entries of its lines set in their order; and the text ["foo=bar\n\nbaz\nqux=quux\n"] gives the mapping of
    ["foo"] to ["bar"] and of ["qux"] to ["quux"]. *)
Theorem C5_load_mapping :
  (forall mapping line,
      (strip line = [] \/ ~ In EQUALS (strip line) ->
       load_line mapping line = Return mapping)
      /\ (forall src dst,
             strip line = src ++ EQUALS :: dst -> ~ In EQUALS src ->
             load_line mapping line = Return (setitem mapping src dst)))
  /\ (forall content,
         load_text content
         = Return (set_entries empty
                     (flat_map line_entry (readlines content))))
  /\ (forall w c cs content,
         lookup (files w) (c :: cs) = Some (File (Text content)) ->
         Translate.load_mapping (c :: cs) w = (w, load_text content)
         /\ Structured.load_mapping (c :: cs) w = (w, load_text content))
  /\ load_text (lit "foo=bar" ++ [LF; LF] ++ lit "baz" ++ [LF]
                ++ lit "qux=quux" ++ [LF])
     = Return [entry "foo" "bar"; entry "qux" "quux"].
Proof.
  split; [|split; [|split]].
  - intros mapping line. split.
    + apply load_line_skip.
    + apply load_line_entry.
  - intros content. apply load_lines_entries.
  - intros w c cs content H.
    unfold Translate.load_mapping, Structured.load_mapping, bind, read_text,
      lift.
    rewrite H. split; reflexivity.
  - reflexivity.
Qed.

Lemma C5_load_mapping_witness :
  load_line [] (lit " a = b=c " ++ [LF]) = Return [(lit "a ", lit " b=c")]
  /\ load_line [entry "x" "y"] (lit "no separator" ++ [CR; LF])
     = Return [entry "x" "y"].
Proof.
  destruct C5_load_mapping as [H _]. split.
  - apply (proj2 (H [] (lit " a = b=c " ++ [LF])) (lit "a ") (lit " b=c")).
    + reflexivity.
    + vm_compute. intros [E|[E|[]]]; discriminate.
  - apply (proj1 (H [entry "x" "y"] (lit "no separator" ++ [CR; LF]))).
    right. vm_compute.
    intros H'. repeat (destruct H' as [H'|H']; [discriminate|]). exact H'.
Defined.

(** C10: the empty source.  A line that after stripping begins with
    ['='] sets the empty string to the text after the ['=']; a text with
    such a line gives a mapping that has the empty string as a key; and
    the engine takes this mapping: the empty source occurs in every
    text, and the target is put around every character. *)
Theorem C10_empty_source :
  (forall mapping line dst,
      strip line = EQUALS :: dst ->
      load_line mapping line = Return (setitem mapping [] dst)
      /\ get (setitem mapping [] dst) [] = Some dst)
  /\ (forall content line dst,
         In line (readlines content) -> strip line = EQUALS :: dst ->
         exists mapping dst',
           load_text content = Return mapping
           /\ get mapping [] = Some dst' /\ In [] (keys mapping))
  /\ load_text (lit "=bar" ++ [LF]) = Return [([], lit "bar")]
  /\ Translate.replace_in_paragraph (para ["ab"]%string) [([], lit "-")]
     = (para ["-a-b-"]%string, None)
  /\ paragraph_text
       (fst (Translate.replace_in_paragraph (para ["ab"]%string)
                                            [([], lit "-")]))
     = lit "-a-b-".
Proof.
  split; [|split; [|split; [|split]]].
  - intros mapping line dst H. split.
    + apply (load_line_entry mapping line [] dst H). intros [].
    + now rewrite get_setitem.
  - intros content line dst Hin H. unfold load_text.
    generalize (readlines content) (empty : dict) Hin.
    clear Hin. intros lines. induction lines as [|l lines IH];
      intros m Hin; [contradiction|].
    simpl. destruct Hin as [->|Hin].
    + rewrite (load_line_entry m line [] dst H) by (intros []).
      destruct (load_lines_keeps lines (setitem m [] dst) [] dst)
        as (m' & v' & E & Hv).
      { now rewrite get_setitem. }
      exists m', v'. repeat split; auto. now apply (get_in_keys m' [] v').
    + destruct (load_line_total m l) as [m1 ->]. now apply IH.
  - reflexivity.
  - reflexivity.
  - reflexivity.
Qed.

Lemma C10_empty_source_witness :
  load_line [entry "a" "b"] (lit "  =bar " ++ [LF])
  = Return [entry "a" "b"; ([], lit "bar")]
  /\ exists mapping dst',
       load_text (lit "a=b" ++ [LF] ++ lit "=bar" ++ [LF]) = Return mapping
       /\ get mapping [] = Some dst' /\ In [] (keys mapping).
Proof.
  destruct C10_empty_source as (H1 & H2 & _). split.
  - apply (proj1 (H1 [entry "a" "b"] (lit "  =bar " ++ [LF]) (lit "bar")
                     eq_refl)).
  - apply (H2 (lit "a=b" ++ [LF] ++ lit "=bar" ++ [LF])
              (lit "=bar" ++ [LF]) (lit "bar")).
    + vm_compute. right. left. reflexivity.
    + reflexivity.
Defined.


(* ================================================================== *)
(** ** Files: where the translated document goes                       *)
(* ================================================================== *)

Section Files.

Lemma path_eqb_eq (p q : path) : path_eqb p q = true <-> p = q.
Proof.
  revert q; induction p as [|a p IH]; intros [|b q]; simpl;
    try (split; [discriminate | discriminate]); try tauto.
  rewrite andb_true_iff, eqb_eq, IH.
  split; [intros [-> ->]; reflexivity | intros H; inversion H; auto].
Qed.

Lemma path_eqb_refl (p : path) : path_eqb p p = true.
Proof. now apply path_eqb_eq. Qed.

Lemma path_eqb_neq (p q : path) : p <> q -> path_eqb p q = false.
Proof.
  intros H. destruct (path_eqb p q) eqn:E; [|reflexivity].
  apply path_eqb_eq in E. contradiction.
Qed.

Lemma lookup_store_same (f : filesystem) (p : path) (n : node) :
  lookup (store f p n) p = Some n.
Proof.
  induction f as [|[q m] f IH]; simpl.
  - now rewrite path_eqb_refl.
  - destruct (path_eqb q p) eqn:E; simpl; rewrite E; auto.
Qed.

Lemma lookup_store_other (f : filesystem) (p q : path) (n : node) :
  p <> q -> lookup (store f p n) q = lookup f q.
Proof.
  intros H. induction f as [|[q0 m] f IH]; simpl.
  - now rewrite path_eqb_neq.
  - destruct (path_eqb q0 p) eqn:E; simpl.
    + apply path_eqb_eq in E. subst q0. now rewrite path_eqb_neq.
    + now rewrite IH.
Qed.

(** [mkdir] keeps every entry that was there. *)
Lemma mkdir_from_keeps (todo done : path) (f f' : filesystem)
      (o : outcome unit) (q : path) (n : node) :
  mkdir_from done todo f = (f', o) ->
  lookup f q = Some n -> lookup f' q = Some n.
Proof.
  revert done f; induction todo as [|c todo IH]; intros done f H Hq;
    simpl in H.
  - inversion H; subst. exact Hq.
  - destruct (lookup f (done ++ [c])) as [[|x]|] eqn:E.
    + eapply IH; eauto.
    + inversion H; subst. exact Hq.
    + eapply IH; [exact H|].
      rewrite lookup_store_other; [exact Hq|].
      intros E'. rewrite E' in E. congruence.
Qed.

(** After a [mkdir] that returns, every directory on the way is
    there. *)
Lemma mkdir_from_dirs (todo done : path) (f f' : filesystem) :
  mkdir_from done todo f = (f', Return tt) ->
  forall k, 1 <= k <= List.length todo ->
            lookup f' (done ++ firstn k todo) = Some Dir.
Proof.
  revert done f; induction todo as [|c todo IH]; intros done f H k Hk;
    simpl in *; [lia|].
  destruct k as [|k]; [lia|]. simpl.
  replace (done ++ c :: firstn k todo)
    with ((done ++ [c]) ++ firstn k todo)
    by (now rewrite <- app_assoc).
  destruct (lookup f (done ++ [c])) as [[|x]|] eqn:E.
  - destruct k as [|k].
    + simpl. rewrite app_nil_r.
      eapply mkdir_from_keeps; eauto.
    + eapply IH; eauto. lia.
  - discriminate.
  - destruct k as [|k].
    + simpl. rewrite app_nil_r.
      eapply mkdir_from_keeps; eauto. apply lookup_store_same.
    + eapply IH; eauto. lia.
Qed.

(** [mkdir] changes nothing but the directories on the way. *)
Lemma mkdir_from_other (todo done : path) (f f' : filesystem)
      (o : outcome unit) (q : path) :
  mkdir_from done todo f = (f', o) ->
  (forall k, q <> done ++ firstn k todo) ->
  lookup f' q = lookup f q.
Proof.
  revert done f; induction todo as [|c todo IH]; intros done f H Hq;
    simpl in H.
  - now inversion H.
  - assert (forall k, q <> (done ++ [c]) ++ firstn k todo) as Hq'.
    { intros k. rewrite <- app_assoc. exact (Hq (S k)). }
    assert (done ++ [c] <> q) as Hq1.
    { intros E. apply (Hq' 0). now rewrite app_nil_r. }
    destruct (lookup f (done ++ [c])) as [[|x]|] eqn:E.
    + eapply IH; eauto.
    + now inversion H.
    + rewrite (IH _ _ H Hq'). now apply lookup_store_other.
Qed.

(** [mkdir] returns when no file is in the way. *)
Lemma mkdir_from_returns (todo done : path) (f : filesystem) :
  (forall k c, lookup f (done ++ firstn k todo) <> Some (File c)) ->
  exists f', mkdir_from done todo f = (f', Return tt).
Proof.
  revert done f; induction todo as [|c todo IH]; intros done f H; simpl.
  - eauto.
  - destruct (lookup f (done ++ [c])) as [[|x]|] eqn:E.
    + apply IH. intros k x. rewrite <- app_assoc. exact (H (S k) x).
    + exfalso. exact (H 1 x E).
    + apply IH. intros k x.
      destruct (firstn k todo) as [|c' rest] eqn:Ek.
      * rewrite app_nil_r, lookup_store_same. discriminate.
      * rewrite lookup_store_other.
        -- rewrite <- Ek, <- app_assoc. exact (H (S k) x).
        -- intros E'. apply (f_equal (@List.length str)) in E'.
           rewrite !length_app in E'. simpl in E'. lia.
Qed.

Lemma mkdir_is_dir (p : path) (f f' : filesystem) :
  mkdir_from [] p f = (f', Return tt) ->
  forall k, is_dir f' (firstn k p) = true.
Proof.
  intros H k. unfold is_dir.
  destruct (firstn k p) as [|c q] eqn:E; [reflexivity|].
  assert (1 <= Nat.min k (List.length p) <= List.length p) as Hk.
  { split; [|lia]. destruct k; [discriminate|].
    destruct p; [discriminate | simpl; lia]. }
  pose proof (mkdir_from_dirs p [] f f' H _ Hk) as G. simpl in G.
  assert (firstn (Nat.min k (List.length p)) p = firstn k p) as E'.
  { destruct (Nat.le_ge_cases k (List.length p)).
    - now rewrite Nat.min_l.
    - rewrite Nat.min_r by lia. now rewrite !firstn_all2 by lia. }
  rewrite E', E in G. now rewrite G.
Qed.

(** The name of a path is its stem followed by its suffix. *)
Lemma stem_suffix (p : path) : stem p ++ suffix p = name p.
Proof.
  unfold stem, suffix, rsplit_dot.
  destruct (partition (rev (name p)) DOT) as [[a b]|] eqn:E.
  - destruct (truthy (rev b) && truthy (rev a)); [|apply app_nil_r].
    apply partition_some in E as [E _].
    rewrite <- (rev_involutive (name p)), E, rev_app_distr. simpl.
    now rewrite <- app_assoc.
  - apply app_nil_r.
Qed.

Lemma translated_name_neq (p : path) : translated_name p <> name p.
Proof.
  unfold translated_name. rewrite <- stem_suffix. intros H.
  apply (f_equal (@List.length char)) in H.
  rewrite !length_app in H. simpl in H. lia.
Qed.

Lemma name_joinpath (d : path) (n : str) : name (joinpath d n) = n.
Proof. unfold name, joinpath. apply last_last. Qed.

Lemma parent_joinpath (d : path) (n : str) : parent (joinpath d n) = d.
Proof. unfold parent, joinpath. apply removelast_last. Qed.

(** The output path is never the input path. *)
Lemma output_path_neq (doc_path output_dir : path) :
  joinpath output_dir (translated_name doc_path) <> doc_path.
Proof.
  intros H. apply (f_equal name) in H. rewrite name_joinpath in H.
  now apply translated_name_neq in H.
Qed.

Lemma joinpath_cons (d : path) (n : str) :
  exists c q, joinpath d n = c :: q.
Proof. unfold joinpath. destruct d; simpl; eauto. Qed.

Lemma joinpath_not_prefix (d : path) (n : str) (k : nat) :
  joinpath d n <> firstn k d.
Proof.
  intros H. apply (f_equal (@List.length str)) in H.
  unfold joinpath in H. rewrite length_app, length_firstn in H.
  simpl in H. lia.
Qed.

(** What [save] does when it returns. *)
Lemma save_inv (d : document) (p : path) (w w' : world) :
  save d p w = (w', Return tt) ->
  files w' = store (files w) p (File (Docx d))
  /\ console w' = console w.
Proof.
  unfold save. destruct p as [|c q]; [discriminate|].
  destruct (is_dir (files w) (parent (c :: q))); [|discriminate].
  destruct (lookup (files w) (c :: q)) as [[|x]|]; try discriminate;
    intros H; inversion H; subst; auto.
Qed.

(** [save] writes at its path and nowhere else. *)
Lemma save_other (d : document) (p q : path) (w w' : world)
      (o : outcome unit) :
  save d p w = (w', o) -> p <> q ->
  lookup (files w') q = lookup (files w) q.
Proof.
  unfold save. intros H Hpq. destruct p as [|c p']; [now inversion H|].
  destruct (is_dir (files w) (parent (c :: p'))); [|now inversion H].
  destruct (lookup (files w) (c :: p')) as [[|x]|]; inversion H; subst;
    simpl; auto using lookup_store_other.
Qed.

Lemma Document_inv (p : path) (w w' : world) (o : outcome document) :
  Document p w = (w', o) ->
  w' = w
  /\ (forall d, o = Return d ->
                lookup (files w) p = Some (File (Docx d))).
Proof.
  unfold Document. destruct p as [|c q].
  - intros H; inversion H; subst. split; [reflexivity | discriminate].
  - destruct (lookup (files w) (c :: q)) as [[|[d| |]]|];
      intros H; inversion H; subst; split; try reflexivity;
      try discriminate.
    intros d' E. now inversion E.
Qed.

Lemma is_dir_store_other (f : filesystem) (p q : path) (n : node) :
  p <> q -> is_dir (store f p n) q = is_dir f q.
Proof.
  intros H. unfold is_dir. destruct q; [reflexivity|].
  now rewrite lookup_store_other.
Qed.

End Files.


Section Persist.

Variable markup_pass : document -> dict -> document * list warning.

Lemma for_each_print {A : Type} (f : A -> msg) (l : list A) (w : world) :
  for_each l (fun t => print (f t)) w
  = ({| files := files w; console := console w ++ map f l |}, Return tt).
Proof.
  revert w; induction l as [|a l IH]; intros w; simpl.
  - unfold ret. rewrite app_nil_r. now destruct w.
  - unfold bind, print at 1. rewrite IH. simpl.
    now rewrite <- app_assoc.
Qed.

(** The raw-markup pass returns and leaves the files alone. *)
Lemma raw_markup_pass_inv (doc : document) (mapping : dict) (w : world) :
  exists l,
    Structured.raw_markup_pass markup_pass doc mapping w
    = ({| files := files w; console := console w ++ l |},
       Return (fst (markup_pass doc mapping)))
    /\ Forall (fun m => is_loop_msg m = false) l.
Proof.
  unfold Structured.raw_markup_pass.
  destruct (markup_pass doc mapping) as [doc' warnings]. simpl.
  exists (map warning_msg warnings). split.
  - unfold bind. now rewrite for_each_print.
  - apply Forall_forall. intros m Hm. apply in_map_iff in Hm as [t [<- _]].
    now destruct t.
Qed.

(** So does the final pass, with the document as its loop left it. *)
Lemma final_pass_inv (doc : document) (mapping : dict) (w : world) :
  exists l,
    Structured.final_pass doc mapping w
    = ({| files := files w; console := console w ++ l |},
       Return (fst (Structured.final_pass_loop mapping doc)))
    /\ Forall (fun m => is_loop_msg m = false) l.
Proof.
  unfold Structured.final_pass.
  destruct (Structured.final_pass_loop mapping doc) as [doc' [e|]]; simpl.
  - exists [MsgFinalWarning e]. split; [reflexivity|].
    now constructor.
  - exists []. split; [|constructor].
    unfold ret. rewrite app_nil_r. now destruct w.
Qed.

(** What [translate_document] of [translate.py] does, whatever its
    outcome. *)
Lemma translate_document_cases
      (doc_path : path) (mapping : dict) (output_dir : path) (w : world) :
  let out := joinpath output_dir (translated_name doc_path) in
  (exists e,
      Translate.translate_document doc_path mapping output_dir w
      = (w, Raise e))
  \/ exists doc doc' f1 o1,
       lookup (files w) doc_path = Some (File (Docx doc))
       /\ Translate.translate_tree doc mapping = (doc', None)
       /\ mkdir_from [] output_dir (files w) = (f1, o1)
       /\ let w1 := {| files := f1; console := console w |} in
          match o1 with
          | Raise e =>
              Translate.translate_document doc_path mapping output_dir w
              = (w1, Raise e)
          | Return _ =>
              exists w2 o2,
                save doc' out w1 = (w2, o2)
                /\ Translate.translate_document
                     doc_path mapping output_dir w
                   = (w2, match o2 with
                          | Return _ => Return out
                          | Raise e => Raise e
                          end)
          end.
Proof.
  cbv zeta. unfold Translate.translate_document, bind, changed.
  destruct (Document doc_path w) as [w0 [doc|e]] eqn:ED;
    apply Document_inv in ED as [-> Hdoc].
  2:{ left. eauto. }
  specialize (Hdoc doc eq_refl).
  destruct (Translate.translate_tree doc mapping) as [doc' [e|]] eqn:ET.
  { left. eauto. }
  right. unfold mkdir.
  destruct (mkdir_from [] output_dir (files w)) as [f1 o1] eqn:EM.
  exists doc, doc', f1, o1. repeat split; auto.
  destruct o1 as [[]|e]; [|reflexivity].
  destruct (save _ _ _) as [w2 o2] eqn:ES.
  exists w2, o2. split; [reflexivity|]. now destruct o2 as [[]|e].
Qed.

(** The same for [translate_document_preserve_formatting]: the console
    may have grown by the lines of the raw-markup pass, of the final
    pass and of the save. *)
Lemma translate_document_preserve_formatting_cases
      (doc_path : path) (mapping : dict) (output_dir : path) (w : world) :
  let out := joinpath output_dir (translated_name doc_path) in
  let run :=
    Structured.translate_document_preserve_formatting
      markup_pass doc_path mapping output_dir w in
  (exists e, run = (w, Raise e))
  \/ exists doc f1 o1 l,
       lookup (files w) doc_path = Some (File (Docx doc))
       /\ snd (Structured.substitute_tree doc mapping) = None
       /\ mkdir_from [] output_dir (files w) = (f1, o1)
       /\ Forall (fun m => is_loop_msg m = false) l
       /\ let w1 := {| files := f1; console := console w ++ l |} in
          match o1 with
          | Raise e => run = (w1, Raise e)
          | Return _ =>
              exists w2 o2,
                save (structured_result markup_pass doc mapping) out w1
                = (w2, o2)
                /\ match o2 with
                   | Return _ =>
                       run = ({| files := files w2;
                                 console := console w2 ++ [MsgSaved out] |},
                              Return out)
                   | Raise e => run = (w2, Raise e)
                   end
          end.
Proof.
  cbv zeta.
  remember (Structured.translate_document_preserve_formatting
              markup_pass doc_path mapping output_dir w)
    as run eqn:Erun.
  unfold Structured.translate_document_preserve_formatting in Erun.
  unfold bind at 1 in Erun.
  destruct (Document doc_path w) as [w0 [doc|e]] eqn:ED;
    apply Document_inv in ED as [-> Hdoc].
  2:{ left. eauto. }
  specialize (Hdoc doc eq_refl). unfold bind at 1, changed in Erun.
  destruct (Structured.substitute_tree doc mapping) as [doc1 [e|]] eqn:ET.
  { left. eauto. }
  right.
  destruct (raw_markup_pass_inv doc1 mapping w) as [l1 [ER Hl1]].
  unfold bind at 1 in Erun. rewrite ER in Erun.
  destruct (final_pass_inv (fst (markup_pass doc1 mapping)) mapping
              {| files := files w; console := console w ++ l1 |})
    as [l2 [EF Hl2]].
  unfold bind at 1 in Erun. rewrite EF in Erun. simpl in Erun.
  assert (fst (Structured.final_pass_loop mapping
                 (fst (markup_pass doc1 mapping)))
          = structured_result markup_pass doc mapping) as Eres.
  { unfold structured_result. now rewrite ET. }
  rewrite Eres, <- app_assoc in Erun.
  unfold bind at 1, mkdir in Erun. simpl in Erun.
  destruct (mkdir_from [] output_dir (files w)) as [f1 o1] eqn:EM.
  exists doc, f1, o1, (l1 ++ l2).
  split; [exact Hdoc|]. split; [now rewrite ET|].
  split; [reflexivity|]. split; [now apply Forall_app|].
  destruct o1 as [[]|e]; [|exact Erun].
  unfold bind at 1 in Erun.
  destruct (save _ _ _) as [w2 o2] eqn:ES.
  exists w2, o2. split; [reflexivity|].
  destruct o2 as [[]|e]; exact Erun.
Qed.

(** [mkdir] and [save] return when no file stands where a directory
    is to be and no directory stands where the output is to go. *)
Lemma mkdir_save_returns (d : document) (output_dir : path) (n : str)
      (w : world) :
  (forall k c, lookup (files w) (firstn k output_dir) <> Some (File c)) ->
  lookup (files w) (joinpath output_dir n) <> Some Dir ->
  exists f1 w2,
    mkdir_from [] output_dir (files w) = (f1, Return tt)
    /\ save d (joinpath output_dir n)
            {| files := f1; console := console w |} = (w2, Return tt).
Proof.
  intros Hd Ho.
  destruct (mkdir_from_returns output_dir [] (files w) Hd) as [f1 EM].
  exists f1. unfold save.
  destruct (joinpath_cons output_dir n) as (c & q & Ej). rewrite Ej.
  rewrite <- Ej, parent_joinpath. simpl.
  pose proof (mkdir_is_dir output_dir (files w) f1 EM
                (List.length output_dir)) as Hdir.
  rewrite firstn_all in Hdir. rewrite Hdir.
  rewrite (mkdir_from_other output_dir [] (files w) f1 _ _ EM
             (joinpath_not_prefix output_dir n)).
  destruct (lookup (files w) (joinpath output_dir n)) as [[|x]|];
    [contradiction| |]; eauto.
Qed.

(** [translate_document] returns when the input is a document, the
    loops over it return, no file stands where a directory is to be
    and no directory stands where the output is to go. *)
Lemma translate_document_returns
      (c : str) (q : path) (mapping : dict) (output_dir : path)
      (w : world) (doc doc' : document) :
  let doc_path := c :: q in
  let out := joinpath output_dir (translated_name doc_path) in
  lookup (files w) doc_path = Some (File (Docx doc)) ->
  Translate.translate_tree doc mapping = (doc', None) ->
  (forall k x, lookup (files w) (firstn k output_dir) <> Some (File x)) ->
  lookup (files w) out <> Some Dir ->
  exists w',
    Translate.translate_document doc_path mapping output_dir w
    = (w', Return out).
Proof.
  cbv zeta. intros Hdoc Ht Hd Ho.
  destruct (mkdir_save_returns doc'
              output_dir (translated_name (c :: q)) w Hd Ho)
    as (f1 & w2 & EM & ES).
  exists w2.
  unfold Translate.translate_document, bind, Document, changed, mkdir.
  rewrite Hdoc, Ht, EM, ES. reflexivity.
Qed.

Lemma translate_document_preserve_formatting_returns
      (c : str) (q : path) (mapping : dict) (output_dir : path)
      (w : world) (doc : document) :
  let doc_path := c :: q in
  let out := joinpath output_dir (translated_name doc_path) in
  lookup (files w) doc_path = Some (File (Docx doc)) ->
  snd (Structured.substitute_tree doc mapping) = None ->
  (forall k x, lookup (files w) (firstn k output_dir) <> Some (File x)) ->
  lookup (files w) out <> Some Dir ->
  exists w',
    Structured.translate_document_preserve_formatting
      markup_pass doc_path mapping output_dir w
    = (w', Return out).
Proof.
  cbv zeta. intros Hdoc Ht Hd Ho.
  destruct (translate_document_preserve_formatting_cases
              (c :: q) mapping output_dir w)
    as [[e E] | (doc' & f1 & o1 & l & Hdoc' & _ & EM & _ & Hrun)].
  - exfalso. revert E.
    unfold Structured.translate_document_preserve_formatting.
    unfold bind at 1, Document. rewrite Hdoc.
    unfold bind at 1, changed.
    destruct (Structured.substitute_tree doc mapping) as [doc1 [e1|]];
      [discriminate|].
    destruct (raw_markup_pass_inv doc1 mapping w) as [l1 [ER _]].
    unfold bind at 1. rewrite ER.
    destruct (final_pass_inv (fst (markup_pass doc1 mapping)) mapping
                {| files := files w; console := console w ++ l1 |})
      as [l2 [EF _]].
    unfold bind at 1. rewrite EF. simpl.
    unfold bind at 1, mkdir. simpl.
    destruct (mkdir_from [] output_dir (files w)) as [f1 [[]|e1]] eqn:EM.
    + unfold bind at 1.
      destruct (mkdir_save_returns
                  (fst (Structured.final_pass_loop mapping
                          (fst (markup_pass doc1 mapping))))
                  output_dir (translated_name (c :: q))
                  {| files := files w;
                     console := (console w ++ l1) ++ l2 |}
                  Hd Ho) as (f1' & w2 & EM' & ES).
      simpl in EM'. rewrite EM in EM'. inversion EM'; subst f1'.
      simpl in ES. rewrite ES. unfold bind, print, ret. simpl.
      intros E. inversion E.
    + destruct (mkdir_from_returns output_dir [] (files w) Hd)
        as [f1' EM']. congruence.
  - cbv zeta in Hrun. rewrite Hdoc in Hdoc'. inversion Hdoc'; subst doc'.
    destruct (mkdir_save_returns
                (structured_result markup_pass doc mapping)
                output_dir (translated_name (c :: q))
                {| files := files w; console := console w ++ l |}
                Hd Ho) as (f1' & w2 & EM' & ES).
    simpl in EM'. rewrite EM in EM'. inversion EM'; subst o1 f1'.
    destruct Hrun as (w2' & o2 & ES' & E). simpl in ES.
    rewrite ES in ES'. inversion ES'; subst w2' o2. eauto.
Qed.

End Persist.

(** C6: the output path.  When [translate_document], of either script,
    returns, it returns the path of the output directory followed by the
    stem of the input name, ["_translated"] and the suffix of the input
    name; after it the output directory and every directory above it are
    there; and the file at the returned path holds the document that was
    loaded from the input path, as the loops of the script, which have
    returned, and the later passes have changed it. *)
Theorem C6_output_path
        (doc_path : path) (mapping : dict) (output_dir : path)
        (w w' : world) (r : path) :
  (Translate.translate_document doc_path mapping output_dir w
   = (w', Return r) ->
   r = joinpath output_dir
         (stem doc_path ++ lit "_translated" ++ suffix doc_path)
   /\ (forall k, is_dir (files w') (firstn k output_dir) = true)
   /\ exists doc,
        lookup (files w) doc_path = Some (File (Docx doc))
        /\ snd (Translate.translate_tree doc mapping) = None
        /\ lookup (files w') r
           = Some (File (Docx (fst (Translate.translate_tree doc mapping)))))
  /\ (forall markup_pass,
         Structured.translate_document_preserve_formatting
           markup_pass doc_path mapping output_dir w
         = (w', Return r) ->
         r = joinpath output_dir
               (stem doc_path ++ lit "_translated" ++ suffix doc_path)
         /\ (forall k, is_dir (files w') (firstn k output_dir) = true)
         /\ exists doc,
              lookup (files w) doc_path = Some (File (Docx doc))
              /\ snd (Structured.substitute_tree doc mapping) = None
              /\ lookup (files w') r
                 = Some (File (Docx (structured_result
                                       markup_pass doc mapping)))).
Proof.
  split.
  - intros H.
    destruct (translate_document_cases doc_path mapping output_dir w)
      as [[e E] | (doc & doc' & f1 & o1 & Hdoc & ET & EM & Hrun)];
      [congruence|].
    cbv zeta in Hrun. destruct o1 as [[]|e]; [|congruence].
    destruct Hrun as (w2 & o2 & ES & E). rewrite E in H.
    destruct o2 as [[]|e]; [|congruence]. inversion H; subst w' r.
    apply save_inv in ES as [Ef _]. simpl in Ef.
    split; [reflexivity|]. split.
    + intros k. rewrite Ef, is_dir_store_other.
      * now apply (mkdir_is_dir output_dir (files w)).
      * apply joinpath_not_prefix.
    + exists doc. split; [exact Hdoc|]. rewrite ET. split; [reflexivity|].
      rewrite Ef. apply lookup_store_same.
  - intros markup_pass H.
    destruct (translate_document_preserve_formatting_cases
                markup_pass doc_path mapping output_dir w)
      as [[e E] | (doc & f1 & o1 & l & Hdoc & ET & EM & _ & Hrun)];
      [congruence|].
    cbv zeta in Hrun. destruct o1 as [[]|e]; [|congruence].
    destruct Hrun as (w2 & o2 & ES & E).
    destruct o2 as [[]|e]; [|congruence]. rewrite E in H.
    inversion H; subst w' r.
    apply save_inv in ES as [Ef _]. simpl in Ef. simpl.
    split; [reflexivity|]. split.
    + intros k. rewrite Ef, is_dir_store_other.
      * now apply (mkdir_is_dir output_dir (files w)).
      * apply joinpath_not_prefix.
    + exists doc. split; [exact Hdoc|]. split; [exact ET|].
      rewrite Ef. apply lookup_store_same.
Qed.

(** C7: the source file.  Whatever [translate_document], of either
    script, does and however it ends, the entry at the input path is
    after it what it was before. *)
Theorem C7_source_untouched
        (doc_path : path) (mapping : dict) (output_dir : path) (w : world) :
  lookup
    (files (fst (Translate.translate_document
                   doc_path mapping output_dir w))) doc_path
  = lookup (files w) doc_path
  /\ forall markup_pass,
       lookup
         (files (fst (Structured.translate_document_preserve_formatting
                        markup_pass doc_path mapping output_dir w)))
         doc_path
       = lookup (files w) doc_path.
Proof.
  split.
  - destruct (translate_document_cases doc_path mapping output_dir w)
      as [[e E] | (doc & doc' & f1 & o1 & Hdoc & _ & EM & Hrun)].
    + now rewrite E.
    + cbv zeta in Hrun.
      pose proof (mkdir_from_keeps output_dir [] (files w) f1 o1
                    doc_path _ EM Hdoc) as Hk.
      destruct o1 as [[]|e].
      * destruct Hrun as (w2 & o2 & ES & E). rewrite E. simpl.
        rewrite (save_other _ _ doc_path _ _ _ ES
                            (output_path_neq doc_path output_dir)).
        simpl. congruence.
      * rewrite Hrun. simpl. congruence.
  - intros markup_pass.
    destruct (translate_document_preserve_formatting_cases
                markup_pass doc_path mapping output_dir w)
      as [[e E] | (doc & f1 & o1 & l & Hdoc & _ & EM & _ & Hrun)].
    + now rewrite E.
    + cbv zeta in Hrun.
      pose proof (mkdir_from_keeps output_dir [] (files w) f1 o1
                    doc_path _ EM Hdoc) as Hk.
      destruct o1 as [[]|e].
      * destruct Hrun as (w2 & o2 & ES & E).
        pose proof (save_other _ _ doc_path _ _ _ ES
                      (output_path_neq doc_path output_dir)) as Hs.
        simpl in Hs.
        destruct o2 as [[]|e]; rewrite E; simpl; congruence.
      * rewrite Hrun. simpl. congruence.
Qed.


Lemma C6_output_path_witness :
  let doc_path := [lit "invoice"; lit "invoice_2024.docx"] in
  let output_dir := [lit "translated"] in
  let r := [lit "translated"; lit "invoice_2024_translated.docx"] in
  let w1 := fst (Translate.translate_document
                   doc_path sample_mapping output_dir sample_world) in
  let w2 := fst (Structured.translate_document_preserve_formatting
                   no_markup
                   doc_path sample_mapping output_dir sample_world) in
  (r = joinpath output_dir
         (stem doc_path ++ lit "_translated" ++ suffix doc_path)
   /\ is_dir (files w1) output_dir = true)
  /\ (r = joinpath output_dir
            (stem doc_path ++ lit "_translated" ++ suffix doc_path)
      /\ is_dir (files w2) output_dir = true).
Proof.
  cbv zeta. split.
  - destruct (proj1 (C6_output_path
                       [lit "invoice"; lit "invoice_2024.docx"]
                       sample_mapping [lit "translated"] sample_world
                       (fst (Translate.translate_document
                               [lit "invoice"; lit "invoice_2024.docx"]
                               sample_mapping [lit "translated"]
                               sample_world))
                       [lit "translated";
                        lit "invoice_2024_translated.docx"]))
      as (H1 & H2 & _).
    + vm_compute. reflexivity.
    + split; [exact H1 | exact (H2 1)].
  - destruct (proj2 (C6_output_path
                       [lit "invoice"; lit "invoice_2024.docx"]
                       sample_mapping [lit "translated"] sample_world
                       (fst (Structured.translate_document_preserve_formatting
                               no_markup
                               [lit "invoice"; lit "invoice_2024.docx"]
                               sample_mapping [lit "translated"]
                               sample_world))
                       [lit "translated";
                        lit "invoice_2024_translated.docx"])
                    no_markup)
      as (H1 & H2 & _).
    + vm_compute. reflexivity.
    + split; [exact H1 | exact (H2 1)].
Defined.

(* ================================================================== *)
(** ** The loops over the input files                                  *)
(* ================================================================== *)

Section Quiet.

Lemma quiet_same {A} (m : io A) :
  (forall w, console (fst (m w)) = console w) -> quiet m.
Proof.
  intros H w w' o E. exists []. split; [|constructor].
  specialize (H w). rewrite E in H. simpl in H.
  now rewrite app_nil_r.
Qed.

Lemma quiet_ret {A} (a : A) : quiet (ret a).
Proof. apply quiet_same. reflexivity. Qed.

Lemma quiet_raise {A} (e : exn) : quiet (@raise A e).
Proof. apply quiet_same. reflexivity. Qed.

Lemma quiet_lift {A} (o : outcome A) : quiet (lift o).
Proof. apply quiet_same. reflexivity. Qed.

Lemma quiet_changed {A} (r : A * option exn) : quiet (changed r).
Proof. apply quiet_same. intros w. now destruct r as [a [e|]]. Qed.

Lemma quiet_get_files : quiet get_files.
Proof. apply quiet_same. reflexivity. Qed.

Lemma quiet_put_files (f : filesystem) : quiet (put_files f).
Proof. apply quiet_same. reflexivity. Qed.

Lemma quiet_mkdir (p : path) : quiet (mkdir p).
Proof.
  apply quiet_same. intros w. unfold mkdir.
  now destruct (mkdir_from [] p (files w)).
Qed.

Lemma quiet_Document (p : path) : quiet (Document p).
Proof.
  apply quiet_same. intros w. unfold Document. destruct p; [reflexivity|].
  now destruct (lookup (files w) (s :: p)) as [[|[| |]]|].
Qed.

Lemma quiet_save (d : document) (p : path) : quiet (save d p).
Proof.
  apply quiet_same. intros w. unfold save. destruct p; [reflexivity|].
  destruct (is_dir (files w) (parent (s :: p))); [|reflexivity].
  now destruct (lookup (files w) (s :: p)) as [[|]|].
Qed.

Lemma quiet_read_text (p : path) : quiet (read_text p).
Proof.
  apply quiet_same. intros w. unfold read_text. destruct p; [reflexivity|].
  now destruct (lookup (files w) (s :: p)) as [[|[| |]]|].
Qed.

Lemma quiet_unlink (p : path) : quiet (unlink p).
Proof.
  apply quiet_same. intros w. unfold unlink. destruct p; [reflexivity|].
  now destruct (lookup (files w) (s :: p)) as [[|]|].
Qed.

Lemma quiet_print (m : msg) : is_loop_msg m = false -> quiet (print m).
Proof.
  intros H w w' o E. unfold print in E. inversion E; subst. simpl.
  exists [m]. split; [reflexivity|]. now constructor.
Qed.

Lemma quiet_bind {A B} (m : io A) (k : A -> io B) :
  quiet m -> (forall a, quiet (k a)) -> quiet (bind m k).
Proof.
  intros Hm Hk w w' o E. unfold bind in E.
  destruct (m w) as [w1 [a|e]] eqn:Em.
  - destruct (Hm _ _ _ Em) as [l1 [E1 F1]].
    destruct (Hk a _ _ _ E) as [l2 [E2 F2]].
    exists (l1 ++ l2). split.
    + now rewrite E2, E1, app_assoc.
    + now apply Forall_app.
  - inversion E; subst. eauto.
Qed.

Lemma quiet_try_except {A} (m : io A) (h : exn -> io A) :
  quiet m -> (forall e, quiet (h e)) -> quiet (try_except m h).
Proof.
  intros Hm Hh w w' o E. unfold try_except in E.
  destruct (m w) as [w1 [a|e]] eqn:Em.
  - inversion E; subst. eauto.
  - destruct (Hm _ _ _ Em) as [l1 [E1 F1]].
    destruct (Hh e _ _ _ E) as [l2 [E2 F2]].
    exists (l1 ++ l2). split.
    + now rewrite E2, E1, app_assoc.
    + now apply Forall_app.
Qed.

Lemma quiet_for_each {A} (l : list A) (body : A -> io unit) :
  (forall a, quiet (body a)) -> quiet (for_each l body).
Proof.
  intros H. induction l as [|a l IH]; simpl.
  - apply quiet_ret.
  - apply quiet_bind; auto.
Qed.

Variable Converter : path -> path -> filesystem -> filesystem * outcome unit.
Variable markup_pass : document -> dict -> document * list warning.

Lemma quiet_convert (pdf_path docx_path : path) :
  quiet (Structured.convert_pdf_to_docx_preserve_structure
           Converter pdf_path docx_path).
Proof.
  unfold Structured.convert_pdf_to_docx_preserve_structure.
  apply quiet_try_except.
  - apply quiet_bind; [apply quiet_get_files|]. intros f.
    destruct (Converter pdf_path docx_path f) as [f' o].
    repeat (apply quiet_bind; [|intros ?]);
      auto using quiet_put_files, quiet_lift, quiet_print, quiet_ret.
  - intros e. apply quiet_bind; [|intros ?];
      auto using quiet_print, quiet_ret.
Qed.

Lemma quiet_load_mapping (mapping_file : path) :
  quiet (Structured.load_mapping mapping_file).
Proof.
  unfold Structured.load_mapping.
  apply quiet_bind; [apply quiet_read_text|]. intros. apply quiet_lift.
Qed.

Lemma quiet_raw_markup_pass (doc : document) (mapping : dict) :
  quiet (Structured.raw_markup_pass markup_pass doc mapping).
Proof.
  intros w w' o E.
  destruct (raw_markup_pass_inv markup_pass doc mapping w)
    as [l [E' Hl]].
  rewrite E' in E. inversion E; subst. simpl. eauto.
Qed.

Lemma quiet_final_pass (doc : document) (mapping : dict) :
  quiet (Structured.final_pass doc mapping).
Proof.
  intros w w' o E.
  destruct (final_pass_inv doc mapping w) as [l [E' Hl]].
  rewrite E' in E. inversion E; subst. simpl. eauto.
Qed.

Lemma quiet_translate (doc_path : path) (mapping : dict)
      (output_dir : path) :
  quiet (Structured.translate_document_preserve_formatting
           markup_pass doc_path mapping output_dir).
Proof.
  unfold Structured.translate_document_preserve_formatting.
  apply quiet_bind; [apply quiet_Document|]. intros doc.
  apply quiet_bind; [apply quiet_changed|]. intros doc1.
  apply quiet_bind; [apply quiet_raw_markup_pass|]. intros doc2.
  apply quiet_bind; [apply quiet_final_pass|]. intros doc3.
  repeat (apply quiet_bind; [|intros ?]);
    auto using quiet_mkdir, quiet_save, quiet_print, quiet_ret.
Qed.

Lemma quiet_process (pdf_path mapping_file output_dir : path) :
  quiet (Structured.process_pdf_to_structured_docx
           Converter markup_pass
           pdf_path mapping_file output_dir).
Proof.
  unfold Structured.process_pdf_to_structured_docx.
  apply quiet_bind; [now apply quiet_print|]. intros _.
  apply quiet_bind; [now apply quiet_print|]. intros _.
  apply quiet_bind; [apply quiet_convert|]. intros ok.
  destruct ok; simpl.
  - apply quiet_bind; [now apply quiet_print|]. intros _.
    apply quiet_bind; [apply quiet_load_mapping|]. intros mapping.
    apply quiet_bind; [now apply quiet_print|]. intros _.
    apply quiet_bind; [now apply quiet_print|]. intros _.
    apply quiet_bind; [apply quiet_translate|]. intros r.
    apply quiet_bind; [|intros; apply quiet_ret].
    apply quiet_try_except; [|intros; apply quiet_ret].
    apply quiet_bind; [apply quiet_unlink|]. intros. now apply quiet_print.
  - apply quiet_bind; [now apply quiet_print|]. intros. apply quiet_ret.
Qed.

Lemma filter_quiet (l : list msg) :
  Forall (fun x => is_loop_msg x = false) l -> filter is_loop_msg l = [].
Proof.
  induction 1 as [|x l Hx _ IH]; simpl; [reflexivity|]. now rewrite Hx.
Qed.

(** One turn of the loop of [main] returns, whatever happens to the
    file, after the line that names the file and one line of
    outcome. *)
Lemma main_step_spec (mapping_file output_dir pdf_path : path)
      (w : world) :
  exists w' o,
    Structured.main_step Converter markup_pass
      mapping_file output_dir pdf_path w = (w', Return tt)
    /\ reports pdf_path o
    /\ filter is_loop_msg (console w')
       = filter is_loop_msg (console w)
         ++ [MsgProcessing (name pdf_path); o].
Proof.
  unfold Structured.main_step.
  unfold bind at 1, print at 1. unfold bind at 1, print at 1.
  unfold bind at 1, print at 1. simpl.
  set (w3 := {| files := files w;
                console := ((console w ++ [MsgRule])
                            ++ [MsgProcessing (name pdf_path)])
                           ++ [MsgRule] |}).
  assert (filter is_loop_msg (console w3)
          = filter is_loop_msg (console w)
            ++ [MsgProcessing (name pdf_path)]) as E3.
  { unfold w3. simpl. rewrite !filter_app. simpl.
    now rewrite !app_nil_r. }
  unfold try_except, bind.
  destruct (Structured.process_pdf_to_structured_docx
              Converter markup_pass
              pdf_path mapping_file output_dir w3) as [w4 res] eqn:EP.
  destruct (quiet_process _ _ _ _ _ _ EP) as [l [E4 F4]].
  assert (filter is_loop_msg (console w4)
          = filter is_loop_msg (console w)
            ++ [MsgProcessing (name pdf_path)]) as E4'.
  { rewrite E4, filter_app, (filter_quiet l F4), app_nil_r. exact E3. }
  destruct res as [[r|]|e]; unfold print; simpl;
    eexists; eexists; (split; [reflexivity|]); simpl;
    rewrite filter_app, E4'; simpl; rewrite <- app_assoc; simpl;
    (split; [|reflexivity]); unfold reports; eauto.
Qed.

Lemma main_loop_spec (pdf_files : list path)
      (mapping_file output_dir : path) (w : world) :
  exists w' outcomes,
    Structured.main_loop Converter markup_pass
      pdf_files mapping_file output_dir w = (w', Return tt)
    /\ Forall2 reports pdf_files outcomes
    /\ filter is_loop_msg (console w')
       = filter is_loop_msg (console w) ++ loop_lines pdf_files outcomes.
Proof.
  unfold Structured.main_loop. revert w.
  induction pdf_files as [|p ps IH]; intros w; simpl.
  - exists w, []. repeat split; [constructor | now rewrite app_nil_r].
  - destruct (main_step_spec mapping_file output_dir p w)
      as (w1 & o & E1 & R1 & F1).
    destruct (IH w1) as (w' & os & E2 & R2 & F2).
    exists w', (o :: os). unfold bind. rewrite E1. split; [exact E2|].
    split; [now constructor|].
    rewrite F2, F1, <- app_assoc. reflexivity.
Qed.

(** One turn of the loop of [main]: the job of the file is run, its
    exception is caught, and the line of its outcome is printed. *)
Lemma main_step_after_job (mapping_file output_dir pdf_path : path)
      (w : world) :
  Structured.main_step Converter markup_pass
    mapping_file output_dir pdf_path w
  = (after_job Converter markup_pass mapping_file output_dir w pdf_path,
     Return tt).
Proof.
  unfold Structured.main_step, after_job, say.
  unfold bind at 1, print at 1. unfold bind at 1, print at 1.
  unfold bind at 1, print at 1. simpl.
  unfold try_except, bind.
  destruct (Structured.process_pdf_to_structured_docx
              Converter markup_pass pdf_path mapping_file output_dir _)
    as [w4 [[r|]|e]]; reflexivity.
Qed.

Lemma main_loop_fold (pdf_files : list path)
      (mapping_file output_dir : path) (w : world) :
  Structured.main_loop Converter markup_pass
    pdf_files mapping_file output_dir w
  = (fold_left (after_job Converter markup_pass mapping_file output_dir)
               pdf_files w,
     Return tt).
Proof.
  unfold Structured.main_loop. revert w.
  induction pdf_files as [|p ps IH]; intros w; simpl; [reflexivity|].
  unfold bind. now rewrite main_step_after_job, IH.
Qed.

End Quiet.

(** In [translate.py] the exception of a file ends the loop: the result
    is the one of that file, and the files after it are not looked at. *)
Lemma base_loop_stops (pre post : list path) (d : path) (mapping : dict)
      (output_dir : path) (w w1 w2 : world) (e : exn) :
  Translate.main_loop pre mapping output_dir w = (w1, Return tt) ->
  Translate.translate_document d mapping output_dir w1 = (w2, Raise e) ->
  Translate.main_loop (pre ++ d :: post) mapping output_dir w
  = (w2, Raise e).
Proof.
  unfold Translate.main_loop. revert w.
  induction pre as [|p pre IH]; intros w H1 H2; simpl in *.
  - unfold ret in H1. inversion H1; subst. unfold bind. now rewrite H2.
  - unfold bind in *.
    destruct (Translate.translate_document p mapping output_dir w)
      as [w0 [r|e0]]; [|discriminate].
    unfold ret in *. simpl in *. now apply IH.
Qed.

(** C8, as the claim states it, fails for [main] of [translate.py]: the
    directory lists a file that is no archive before a document; [main]
    raises at the first, and the second, which [translate_document] would
    translate, is left without its output. *)
Lemma C8_counterexample :
  let broken := [lit "invoice"; lit "broken.docx"] in
  let good := [lit "invoice"; lit "invoice_2024.docx"] in
  let output := [lit "translated"; lit "invoice_2024_translated.docx"] in
  glob (files sample_world) [lit "invoice"] (lit ".docx") = [broken; good]
  /\ Translate.main sample_world = (sample_world, Raise BadZipFile)
  /\ lookup (files (fst (Translate.main sample_world))) output = None
  /\ snd (Translate.translate_document
            good sample_mapping [lit "translated"] sample_world)
     = Return output.
Proof. cbv zeta. repeat split; vm_compute; reflexivity. Qed.

(** C8 (amended): the batch.  In [main] of
    [pdf_translator_structured.py] the loop over the files returns for
    every list of files, whatever the converter and the document library
    do and whatever fails, and it is the turns of the files one after
    the other: each file, in order, is announced, its job is run on the
    world the files before it have left, and the line of its outcome is
    printed (success with the name of the result, failure of the
    conversion, or the exception that was caught); so a file that fails
    does not keep the files after it from their turn.  On the console
    every file has the line that names it and one line of outcome.  So
    does [main] itself once the input directory and the mapping file are
    there.  In [main] of [translate.py], which has no handler, the
    exception raised for a file ends the loop and leaves it: the files
    after it are not processed. *)
Theorem C8_batch_continuation :
  (forall Converter markup_pass pdf_files mapping_file output_dir w,
      Structured.main_loop Converter markup_pass
        pdf_files mapping_file output_dir w
      = (fold_left (after_job Converter markup_pass mapping_file output_dir)
                   pdf_files w,
         Return tt))
  /\ (forall Converter markup_pass pre d post mapping_file output_dir w,
         exists w1,
           Structured.main_loop Converter markup_pass
             pre mapping_file output_dir w = (w1, Return tt)
           /\ Structured.main_loop Converter markup_pass
                (pre ++ d :: post) mapping_file output_dir w
              = Structured.main_loop Converter markup_pass
                  post mapping_file output_dir
                  (after_job Converter markup_pass mapping_file output_dir
                             w1 d))
  /\ (forall Converter markup_pass pdf_files mapping_file output_dir w,
         exists w' outcomes,
           Structured.main_loop Converter markup_pass
             pdf_files mapping_file output_dir w = (w', Return tt)
           /\ Forall2 reports pdf_files outcomes
           /\ filter is_loop_msg (console w')
              = filter is_loop_msg (console w)
                ++ loop_lines pdf_files outcomes)
  /\ (forall Converter markup_pass w,
         exists_ (files w) [lit "invoice"] = true ->
         exists_ (files w) [lit "words.txt"] = true ->
         let pdf_files := glob (files w) [lit "invoice"] (lit ".pdf") in
         Structured.main Converter markup_pass w
         = (match pdf_files with
            | [] => say w MsgNoPdf
            | _ :: _ =>
                fold_left
                  (after_job Converter markup_pass
                             [lit "words.txt"] [lit "translated"])
                  pdf_files
                  (say w (MsgFound (List.length pdf_files)))
            end,
            Return tt))
  /\ (forall pre post d mapping output_dir w w1 w2 e,
         Translate.main_loop pre mapping output_dir w = (w1, Return tt) ->
         Translate.translate_document d mapping output_dir w1
         = (w2, Raise e) ->
         Translate.main_loop (pre ++ d :: post) mapping output_dir w
         = (w2, Raise e)).
Proof.
  split; [|split; [|split; [|split]]].
  - intros. apply main_loop_fold.
  - intros Converter markup_pass pre d post mapping_file output_dir w.
    eexists. split; [apply main_loop_fold|].
    rewrite !main_loop_fold, fold_left_app. reflexivity.
  - intros. apply main_loop_spec.
  - intros Converter markup_pass w H1 H2. cbv zeta.
    unfold Structured.main, bind at 1, get_files.
    rewrite H1, H2. change (negb true) with false. cbv iota.
    destruct (glob (files w) [lit "invoice"] (lit ".pdf")) as [|p ps] eqn:G.
    + reflexivity.
    + unfold bind, print. now rewrite main_loop_fold.
  - intros. eapply base_loop_stops; eauto.
Qed.

Lemma C8_batch_continuation_witness :
  Translate.main_loop
    ([] ++ [lit "invoice"; lit "broken.docx"]
        :: [[lit "invoice"; lit "invoice_2024.docx"]])
    sample_mapping [lit "translated"] sample_world
  = (sample_world, Raise BadZipFile)
  /\ Structured.main sample_converter no_markup
       {| files := [ ([lit "invoice"], Dir);
                     ([lit "invoice"; lit "bad.pdf"], File (Other []));
                     ([lit "invoice"; lit "ok.pdf"], File (Other []));
                     ([lit "words.txt"],
                      File (Text (lit "Invoice=Factura" ++ [LF]))) ];
          console := [] |}
     = (fold_left
          (after_job sample_converter no_markup
                     [lit "words.txt"] [lit "translated"])
          [[lit "invoice"; lit "bad.pdf"]; [lit "invoice"; lit "ok.pdf"]]
          (say {| files := [ ([lit "invoice"], Dir);
                             ([lit "invoice"; lit "bad.pdf"],
                              File (Other []));
                             ([lit "invoice"; lit "ok.pdf"],
                              File (Other []));
                             ([lit "words.txt"],
                              File (Text (lit "Invoice=Factura" ++ [LF]))) ];
                  console := [] |}
               (MsgFound 2)),
        Return tt).
Proof.
  destruct C8_batch_continuation as (_ & _ & _ & H4 & H5). split.
  - apply (H5 [] _ _ _ _ sample_world sample_world).
    + vm_compute. reflexivity.
    + vm_compute. reflexivity.
  - apply (H4 sample_converter no_markup); reflexivity.
Defined.

(** The batch of the example, run: the conversion of [bad.pdf] fails and
    is reported, and [ok.pdf] is still converted and translated. *)
Example batch_goes_on :
  let w := {| files := [ ([lit "invoice"], Dir);
                         ([lit "invoice"; lit "bad.pdf"], File (Other []));
                         ([lit "invoice"; lit "ok.pdf"], File (Other []));
                         ([lit "words.txt"],
                          File (Text (lit "Invoice=Factura" ++ [LF]))) ];
              console := [] |} in
  let w' := fst (Structured.main sample_converter no_markup w) in
  filter is_loop_msg (console w')
  = [ MsgProcessing (lit "bad.pdf"); MsgFailed (lit "bad.pdf");
      MsgProcessing (lit "ok.pdf");
      MsgSuccess (lit "ok.pdf") (lit "ok_structured_translated.docx") ]
  /\ lookup (files w')
            [lit "translated"; lit "ok_structured_translated.docx"]
     = Some (File (Docx {| paragraphs :=
                             [para ["Factura #123"%string; EmptyString]];
                           tables := [];
                           sections := [] |})).
Proof. cbv zeta. split; vm_compute; reflexivity. Qed.


(* ================================================================== *)
(** ** Further properties: the mapping loader                          *)
(* ================================================================== *)

Section LoaderMore.

Lemma get_set_entries (entries : list (str * str)) (mapping : dict)
      (k : str) :
  get (set_entries mapping entries) k
  = match last_target entries k with
    | Some v => Some v
    | None => get mapping k
    end.
Proof.
  revert mapping; induction entries as [|[a b] es IH]; intros mapping;
    [reflexivity|].
  unfold set_entries in *. simpl. rewrite IH, get_setitem.
  destruct (last_target es k); [reflexivity|].
  now destruct (Str.eqb a k).
Qed.

Lemma mem_in (k : str) (seen : list str) : mem k seen = true <-> In k seen.
Proof.
  unfold mem. rewrite existsb_exists. split.
  - intros [x [Hx E]]. apply eqb_eq in E. now subst.
  - intros H. exists k. split; [exact H | apply eqb_refl].
Qed.

Lemma keys_setitem (mapping : dict) (a b : str) :
  keys (setitem mapping a b)
  = if mem a (keys mapping) then keys mapping else keys mapping ++ [a].
Proof.
  unfold keys, mem.
  induction mapping as [|[k v] m IH]; simpl; [reflexivity|].
  destruct (Str.eqb k a) eqn:E; simpl; [reflexivity|].
  rewrite IH. now destruct (existsb _ (map fst m)).
Qed.

Lemma first_occurrences_ext (l : list str) (s1 s2 : list str) :
  (forall x, mem x s1 = mem x s2) ->
  first_occurrences l s1 = first_occurrences l s2.
Proof.
  revert s1 s2; induction l as [|a l IH]; intros s1 s2 H; simpl;
    [reflexivity|].
  rewrite <- (H a). destruct (mem a s1); [now apply IH|].
  f_equal. apply IH. intros x. unfold mem in *. simpl. now rewrite H.
Qed.

Lemma keys_set_entries (entries : list (str * str)) (mapping : dict) :
  keys (set_entries mapping entries)
  = keys mapping ++ first_occurrences (map fst entries) (keys mapping).
Proof.
  revert mapping; induction entries as [|[a b] es IH]; intros mapping.
  - simpl. now rewrite app_nil_r.
  - unfold set_entries in *. simpl. rewrite IH, keys_setitem.
    destruct (mem a (keys mapping)) eqn:E; [reflexivity|].
    rewrite <- app_assoc. simpl. do 2 f_equal.
    apply first_occurrences_ext. intros x. unfold mem.
    rewrite existsb_app. simpl. now rewrite orb_false_r, orb_comm.
Qed.

Lemma first_occurrences_fresh (l seen : list str) :
  NoDup (first_occurrences l seen)
  /\ forall x, In x (first_occurrences l seen) -> ~ In x seen.
Proof.
  revert seen; induction l as [|a l IH]; intros seen; simpl.
  - split; [constructor | intros x []].
  - destruct (mem a seen) eqn:E; [apply IH|].
    destruct (IH (a :: seen)) as [N F]. split.
    + constructor; [|exact N]. intros Hin. apply (F a Hin). now left.
    + intros x [<-|Hx].
      * intros Hin. apply mem_in in Hin. congruence.
      * intros Hin. apply (F x Hx). now right.
Qed.

End LoaderMore.

(** X1: a source given by several lines of the mapping file takes the
    target of the last of them; a source given by no line is not a key
    of the loaded mapping. *)
Theorem X1_load_mapping_last_wins (content : str) (k : str) :
  exists mapping,
    load_text content = Return mapping
    /\ get mapping k
       = last_target (flat_map line_entry (readlines content)) k.
Proof.
  eexists. split; [apply load_lines_entries|].
  rewrite get_set_entries. now destruct (last_target _ k).
Qed.

(** X2: the loaded mapping holds every source once, and its sources come
    in the order in which the lines of the file first give them: a line
    that gives a source again changes its target and not its place. *)
Theorem X2_load_mapping_order (content : str) :
  exists mapping,
    load_text content = Return mapping
    /\ keys mapping
       = first_occurrences
           (map fst (flat_map line_entry (readlines content))) []
    /\ NoDup (keys mapping).
Proof.
  eexists. split; [apply load_lines_entries|].
  rewrite keys_set_entries. simpl. split; [reflexivity|].
  apply first_occurrences_fresh.
Qed.

Example load_mapping_duplicates :
  load_text (lit "a=1" ++ [LF] ++ lit "b=2" ++ [LF] ++ lit "a=3" ++ [LF])
  = Return [entry "a" "3"; entry "b" "2"].
Proof. reflexivity. Qed.

(* ================================================================== *)
(** ** Further properties: the passes over a paragraph                 *)
(* ================================================================== *)

Section PassesMore.

Lemma structured_style_rel (mapping : dict) (p : paragraph) :
  paragraph_rel (fun r r' => run_style r = run_style r')
                p (fst (Structured.replace_in_paragraph p mapping)).
Proof.
  unfold Structured.replace_in_paragraph.
  apply (seq_inv (paragraph_rel (fun r r' => run_style r = run_style r'))).
  - intros x y z. apply paragraph_rel_trans. congruence.
  - apply run_local_rel; try congruence.
    intros src dst r _. symmetry. apply replace_in_run_style.
  - intros x. apply rebuild_loop_rel; try congruence. reflexivity.
Qed.

(** A paragraph that differs from one without hyperlinks in its runs
    only has no hyperlinks. *)
Lemma no_links_rel (R : run -> run -> Prop) (p p' : paragraph) :
  paragraph_rel R p p' -> no_links p -> no_links p'.
Proof.
  unfold paragraph_rel, no_links, runs. intros H Hl.
  revert Hl. generalize (direct_runs (children p)). intros rs Hl.
  rewrite Hl in H. clear Hl. revert H.
  generalize (children p'). clear. intros its'. revert its'.
  induction rs as [|r rs IH]; intros its' H; inversion H; subst.
  - reflexivity.
  - destruct y as [r'|h]; simpl in *; [|contradiction].
    f_equal. now apply IH.
Qed.

(** After a write of the rebuild pass that returns, all the runs after
    the first are blank. *)
Lemma rebuild_tail_blank (t : str) (p : paragraph) :
  runs p <> [] ->
  snd (Structured.rebuild t p) = None ->
  forall r, In r (tl (runs (fst (Structured.rebuild t p)))) ->
            run_text r = [].
Proof.
  rewrite rebuild_spec. destruct (runs p) as [|r0 rest] eqn:E;
    [contradiction|]. intros _.
  destruct (snd (written t)); [discriminate|]. intros _ r. simpl.
  unfold runs. simpl.
  rewrite direct_runs_on_others, direct_runs_on_first.
  fold (runs p). rewrite E. simpl.
  intros H. apply in_map_iff in H as [x [<- _]]. reflexivity.
Qed.

Lemma rebuild_entry_tail_blank (mapping : dict) (src dst : str)
      (p : paragraph) :
  (forall r, In r (tl (runs p)) -> run_text r = []) ->
  snd (Structured.rebuild_entry mapping src dst p) = None ->
  forall r,
    In r (tl (runs (fst (Structured.rebuild_entry mapping src dst p)))) ->
    run_text r = [].
Proof.
  intros H. unfold Structured.rebuild_entry.
  destruct (str_in src (paragraph_text p)); [|intros _; exact H].
  destruct (runs p) as [|r0 rest] eqn:E.
  - rewrite rebuild_spec, E. simpl. rewrite E. intros _ r [].
  - apply rebuild_tail_blank. rewrite E. discriminate.
Qed.

Lemma rebuild_loop_tail_blank (mapping : dict) (l : list (str * str))
      (p : paragraph) :
  (forall r, In r (tl (runs p)) -> run_text r = []) ->
  snd (for_items l (Structured.rebuild_entry mapping) p) = None ->
  forall r,
    In r (tl (runs (fst (for_items l (Structured.rebuild_entry mapping)
                                   p)))) ->
    run_text r = [].
Proof.
  revert p; induction l as [|[src dst] l IH]; intros p H; [intros _; exact H|].
  simpl.
  pose proof (rebuild_entry_tail_blank mapping src dst p H) as H1.
  destruct (Structured.rebuild_entry mapping src dst p) as [p1 [e|]];
    [discriminate|].
  simpl in H1. apply IH. now apply H1.
Qed.

Lemma rebuild_entry_fired (mapping : dict) (src dst : str)
      (p p1 : paragraph) :
  str_in src (paragraph_text p) = true ->
  Structured.rebuild_entry mapping src dst p = (p1, None) ->
  forall r, In r (tl (runs p1)) -> run_text r = [].
Proof.
  intros E. unfold Structured.rebuild_entry. rewrite E. intros H.
  destruct (runs p) as [|r0 rest] eqn:Er.
  - rewrite rebuild_spec, Er in H. inversion H; subst p1.
    rewrite Er. intros r [].
  - pose proof (rebuild_tail_blank (replace_all (paragraph_text p) mapping)
                                   p) as Hb.
    rewrite H in Hb. apply Hb; [rewrite Er; discriminate | reflexivity].
Qed.

(** The rebuild loop either never fires, or, when it returns, leaves
    all the runs after the first blank. *)
Lemma rebuild_loop_cases (mapping : dict) (l : list (str * str))
      (p : paragraph) :
  (for_items l (Structured.rebuild_entry mapping) p = (p, None)
   /\ forall e, In e l -> str_in (fst e) (paragraph_text p) = false)
  \/ (snd (for_items l (Structured.rebuild_entry mapping) p) = None ->
      forall r,
        In r (tl (runs (fst (for_items l (Structured.rebuild_entry mapping)
                                       p)))) ->
        run_text r = []).
Proof.
  induction l as [|[src dst] l IH].
  - left. split; [reflexivity | intros e []].
  - destruct (str_in src (paragraph_text p)) eqn:E.
    + right. simpl.
      destruct (Structured.rebuild_entry mapping src dst p)
        as [p1 [e|]] eqn:EX; [discriminate|].
      intros Hs. apply rebuild_loop_tail_blank; [|exact Hs].
      now apply (rebuild_entry_fired mapping src dst p p1).
    + assert (Structured.rebuild_entry mapping src dst p = (p, None)) as EX
          by (unfold Structured.rebuild_entry; now rewrite E).
      simpl. rewrite EX.
      destruct IH as [[E1 E2]|IH]; [left | now right].
      split; [exact E1|]. intros e' [<-|H]; auto.
Qed.

End PassesMore.

(** X3: [replace_in_paragraph] of [pdf_translator_structured.py] neither
    adds nor removes a run and leaves the formatting of every run as it
    was, however it ends: the rebuild pass writes into the first run and
    blanks the others.  The hyperlinks of the paragraph stay as they
    are. *)
Theorem X3_structured_keeps_runs (mapping : dict) (p : paragraph) :
  map run_style (runs (fst (Structured.replace_in_paragraph p mapping)))
  = map run_style (runs p)
  /\ List.length (runs (fst (Structured.replace_in_paragraph p mapping)))
     = List.length (runs p)
  /\ paragraph_format (fst (Structured.replace_in_paragraph p mapping))
     = paragraph_format p.
Proof.
  assert (map run_style
              (runs (fst (Structured.replace_in_paragraph p mapping)))
          = map run_style (runs p)) as E.
  { symmetry. apply Forall2_map_eq. apply runs_rel.
    apply structured_style_rel. }
  split; [exact E|]. split.
  - apply (f_equal (@List.length nat)) in E.
    now rewrite !length_map in E.
  - apply structured_paragraph_format.
Qed.

(** X4: the final pass on a paragraph.  A paragraph with an empty text
    is left as it is.  A paragraph that has a run keeps its runs and
    hyperlinks, each run with its formatting, however the pass ends.  A
    paragraph without runs, whose text is then all in hyperlinks, gets a
    new run with the swept text at its end when the scan has changed the
    text, and is left as it is otherwise.  On a paragraph without
    hyperlinks, for texts and targets that a run keeps as they are, the
    pass returns, and a text that is not empty becomes one sweep of the
    mapping over it. *)
Theorem X4_final_pass_paragraph (mapping : dict) (p : paragraph) :
  (paragraph_text p = [] ->
   Structured.final_pass_paragraph mapping p = (p, None))
  /\ (runs p <> [] ->
      paragraph_format (fst (Structured.final_pass_paragraph mapping p))
      = paragraph_format p)
  /\ (runs p = [] ->
      Structured.final_pass_paragraph mapping p
      = if truthy (paragraph_text p) && snd (scan (paragraph_text p) mapping)
        then add_run (replace_all (paragraph_text p) mapping) p
        else (p, None))
  /\ (verbatim_mapping mapping -> no_links p -> verbatim_paragraph p ->
      snd (Structured.final_pass_paragraph mapping p) = None
      /\ paragraph_text (fst (Structured.final_pass_paragraph mapping p))
         = if truthy (paragraph_text p)
           then replace_all (paragraph_text p) mapping
           else paragraph_text p).
Proof.
  split; [|split; [|split]].
  - intros H. rewrite final_pass_paragraph_cases, H. reflexivity.
  - apply final_pass_paragraph_format.
  - intros H. rewrite final_pass_paragraph_cases, H. reflexivity.
  - intros Hm Hl Hp.
    destruct (final_pass_no_links mapping p Hm Hl Hp) as (p' & E & _ & Ht).
    rewrite E. auto.
Qed.

Lemma X4_final_pass_paragraph_witness :
  Structured.final_pass_paragraph [entry "ab" "b"]
    {| children := [Link {| link_runs := [plain "aaaab"] |}] |}
  = ({| children := [Link {| link_runs := [plain "aaaab"] |};
                     Text_run (plain "aaab")] |}, None)
  /\ paragraph_text
       (fst (Structured.final_pass_paragraph [entry "ab" "b"]
               (para ["aa"; "aab"]%string)))
     = lit "aaab".
Proof.
  destruct (X4_final_pass_paragraph [entry "ab" "b"]
              {| children := [Link {| link_runs := [plain "aaaab"] |}] |})
    as (_ & _ & H3 & _).
  destruct (X4_final_pass_paragraph [entry "ab" "b"]
              (para ["aa"; "aab"]%string)) as (_ & _ & _ & H4).
  split.
  - rewrite H3 by reflexivity. reflexivity.
  - destruct H4 as [_ Ht].
    + apply verbatim_entries. vm_compute. reflexivity.
    + apply no_links_para.
    + apply verbatim_para. vm_compute. reflexivity.
    + rewrite Ht. vm_compute. reflexivity.
Defined.

(** X5: the rebuild pass against the run-local pass.  When no source of
    the mapping occurs in the text the run-local pass leaves,
    [replace_in_paragraph] of [pdf_translator_structured.py] does what
    [replace_in_paragraph] of [translate.py] does, exception included.
    When the run-local pass returns, a source does occur in the text it
    leaves and the rebuild pass returns, all the runs after the first
    end up blank; in a paragraph without hyperlinks the first run then
    holds the whole text. *)
Theorem X5_rebuild_or_base (mapping : dict) (p : paragraph) :
  (source_free mapping
     (paragraph_text (fst (Translate.replace_in_paragraph p mapping))) ->
   Structured.replace_in_paragraph p mapping
   = Translate.replace_in_paragraph p mapping)
  /\ (forall src,
         In src (keys mapping) ->
         snd (Translate.replace_in_paragraph p mapping) = None ->
         str_in src
           (paragraph_text (fst (Translate.replace_in_paragraph p mapping)))
         = true ->
         snd (Structured.replace_in_paragraph p mapping) = None ->
         (forall r,
             In r (tl (runs (fst (Structured.replace_in_paragraph
                                    p mapping)))) ->
             run_text r = [])
         /\ (no_links p ->
             paragraph_text (fst (Structured.replace_in_paragraph p mapping))
             = match runs (fst (Structured.replace_in_paragraph p mapping))
               with
               | r0 :: _ => run_text r0
               | [] => []
               end)).
Proof.
  split.
  - unfold Structured.replace_in_paragraph, seq.
    fold (Translate.replace_in_paragraph p mapping).
    destruct (Translate.replace_in_paragraph p mapping) as [q [e|]];
      [reflexivity|].
    simpl. intros H. now apply rebuild_loop_fixed.
  - intros src Hsrc Hret Hin Hret'.
    assert (forall r,
               In r (tl (runs (fst (Structured.replace_in_paragraph
                                      p mapping)))) ->
               run_text r = []) as Hblank.
    { revert Hret'. unfold Structured.replace_in_paragraph, seq.
      fold (Translate.replace_in_paragraph p mapping).
      destruct (Translate.replace_in_paragraph p mapping) as [q [e|]];
        [discriminate|].
      simpl in Hin. intros Hret'.
      destruct (rebuild_loop_cases mapping (items mapping) q)
        as [[_ H]|H]; [|now apply H].
      exfalso. unfold keys, items in *.
      apply in_map_iff in Hsrc as [e [<- He]].
      rewrite (H e He) in Hin. discriminate. }
    split; [exact Hblank|]. intros Hl.
    pose proof (no_links_rel _ _ _ (structured_style_rel mapping p) Hl)
      as Hl'.
    rewrite (no_links_text _ Hl').
    destruct (runs (fst (Structured.replace_in_paragraph p mapping)))
      as [|r0 rest]; [reflexivity|].
    simpl in *. assert (List.concat (map run_text rest) = []) as E.
    { clear - Hblank. induction rest as [|r rest IH]; [reflexivity|].
      simpl. rewrite (Hblank r (or_introl eq_refl)). simpl.
      apply IH. intros r' Hr'. apply Hblank. now right. }
    rewrite E. apply app_nil_r.
Qed.

Lemma X5_rebuild_or_base_witness :
  Structured.replace_in_paragraph (para ["Invoice"; " #123"]%string)
                                  sample_mapping
  = Translate.replace_in_paragraph (para ["Invoice"; " #123"]%string)
                                   sample_mapping
  /\ (forall r,
         In r (tl (runs (fst (Structured.replace_in_paragraph
                                (para ["Inv"; "oice #123"]%string)
                                sample_mapping)))) ->
         run_text r = []).
Proof.
  split.
  - apply (proj1 (X5_rebuild_or_base sample_mapping
                    (para ["Invoice"; " #123"]%string))).
    intros src [<-|[]]. vm_compute. reflexivity.
  - apply (proj2 (X5_rebuild_or_base sample_mapping
                    (para ["Inv"; "oice #123"]%string)) (lit "Invoice")).
    + left. reflexivity.
    + reflexivity.
    + vm_compute. reflexivity.
    + reflexivity.
Defined.

(* ================================================================== *)
(** ** Further properties: the passes over a document                  *)
(* ================================================================== *)

Section TreeMore.

Lemma map_id_in {A : Type} (g : A -> A) (l : list A) :
  (forall x, In x l -> g x = x) -> map g l = l.
Proof.
  intros H. rewrite <- (map_id l) at 2. now apply map_ext_in.
Qed.

Lemma each_map {A : Type} (g : A -> A) (body : upd A) (xs : list A) :
  (forall x, In x xs -> body x = (g x, None)) ->
  each body xs = (map g xs, None).
Proof.
  intros H. rewrite each_none.
  - f_equal. apply map_ext_in. intros x Hx. now rewrite H.
  - intros x Hx. now rewrite H.
Qed.

(** What every turn of a loop keeps of the image by [g] of its
    element, the loop keeps of the images, however it ends. *)
Lemma each_image {A B : Type} (g : A -> B) (body : upd A) (xs : list A) :
  (forall x, g (fst (body x)) = g x) ->
  map g (fst (each body xs)) = map g xs.
Proof.
  intros H. symmetry. apply Forall2_map_eq.
  apply each_Forall2; [reflexivity|]. intros x _. symmetry. apply H.
Qed.

Lemma field_eq {A B : Type} (get : A -> B) (set : A -> B -> A)
      (s : upd B) (a : A) (b : B) (e : option exn) :
  s (get a) = (b, e) -> field get set s a = (set a b, e).
Proof. intros H. unfold field. now rewrite H. Qed.

Lemma seq_none {A : Type} (s1 s2 : upd A) (a a1 : A) :
  s1 a = (a1, None) -> seq s1 s2 a = s2 a1.
Proof. intros H. unfold seq. now rewrite H. Qed.

Variable f : upd paragraph.

Lemma in_table_paragraphs (t : table) (r : row) (c : cell)
      (p : paragraph) :
  In r (rows t) -> In c (cells r) -> In p (cell_paragraphs c) ->
  In p (table_paragraphs t).
Proof.
  intros Hr Hc Hp. unfold table_paragraphs. apply in_flat_map.
  exists r. split; [exact Hr|]. apply in_flat_map. eauto.
Qed.

(** A walk none of whose statements raises is a map. *)
Lemma walk_table_none (t : table) :
  (forall p, In p (table_paragraphs t) -> snd (f p) = None) ->
  walk_table f t = (map_table (fun p => fst (f p)) t, None).
Proof.
  intros H. unfold walk_table, map_table. apply field_eq.
  apply each_map. intros r Hr. apply field_eq.
  apply each_map. intros c Hc. apply field_eq.
  apply each_none. intros p Hp. apply H.
  now apply (in_table_paragraphs t r c).
Qed.

Lemma walk_header_footer_none (hf : header_footer) :
  (forall p, In p (header_footer_paragraphs hf) -> snd (f p) = None) ->
  walk_header_footer f hf
  = (map_header_footer (fun p => fst (f p)) hf, None).
Proof.
  intros H. unfold walk_header_footer, map_header_footer, seq, field.
  rewrite each_none.
  2:{ intros p Hp. apply H.
      unfold header_footer_paragraphs. apply in_or_app. now left. }
  simpl. rewrite (each_map (map_table (fun p => fst (f p)))).
  - reflexivity.
  - intros t Ht. apply walk_table_none. intros p Hp. apply H.
    unfold header_footer_paragraphs. apply in_or_app. right.
    apply in_flat_map. eauto.
Qed.

Lemma in_all_body (doc : document) (p : paragraph) :
  In p (paragraphs doc) -> In p (all_paragraphs doc).
Proof. intros H. unfold all_paragraphs. apply in_or_app. now left. Qed.

Lemma in_all_table (doc : document) (t : table) (p : paragraph) :
  In t (tables doc) -> In p (table_paragraphs t) ->
  In p (all_paragraphs doc).
Proof.
  intros Ht Hp. unfold all_paragraphs. apply in_or_app. right.
  apply in_or_app. left. apply in_flat_map. eauto.
Qed.

Lemma in_all_section (doc : document) (s : section) (p : paragraph) :
  In s (sections doc) ->
  In p (header_footer_paragraphs (header s))
  \/ In p (header_footer_paragraphs (footer s)) ->
  In p (all_paragraphs doc).
Proof.
  intros Hs Hp. unfold all_paragraphs. apply in_or_app. right.
  apply in_or_app. right. apply in_flat_map. exists s.
  split; [exact Hs|]. apply in_or_app. exact Hp.
Qed.

Lemma walk_none (doc : document) :
  (forall p, In p (all_paragraphs doc) -> snd (f p) = None) ->
  walk f doc = (map_document (fun p => fst (f p)) doc, None).
Proof.
  intros H. unfold walk, map_document, seq, field.
  rewrite each_none.
  2:{ intros p Hp. apply H. now apply in_all_body. }
  simpl. rewrite (each_map (map_table (fun p => fst (f p)))).
  2:{ intros t Ht. apply walk_table_none. intros p Hp. apply H.
      now apply (in_all_table doc t). }
  simpl.
  rewrite (each_map
             (fun s =>
                {| header := map_header_footer (fun p => fst (f p))
                                               (header s);
                   footer := map_header_footer (fun p => fst (f p))
                                               (footer s) |})).
  - reflexivity.
  - intros s Hs. unfold walk_section, seq, field.
    rewrite walk_header_footer_none.
    2:{ intros p Hp. apply H. apply (in_all_section doc s); auto. }
    simpl. rewrite walk_header_footer_none.
    + reflexivity.
    + intros p Hp. apply H. apply (in_all_section doc s); auto.
Qed.

Lemma map_table_id (g : paragraph -> paragraph) (t : table) :
  (forall p, In p (table_paragraphs t) -> g p = p) -> map_table g t = t.
Proof.
  intros H. destruct t as [rs]. unfold map_table. f_equal. simpl.
  apply map_id_in. intros [cs] Hr. f_equal. simpl.
  apply map_id_in. intros [ps] Hc. f_equal. simpl.
  apply map_id_in. intros p Hp. apply H.
  now apply (in_table_paragraphs {| rows := rs |} {| cells := cs |}
                                 {| cell_paragraphs := ps |}).
Qed.

Lemma map_header_footer_id (g : paragraph -> paragraph)
      (hf : header_footer) :
  (forall p, In p (header_footer_paragraphs hf) -> g p = p) ->
  map_header_footer g hf = hf.
Proof.
  intros H. destruct hf as [ps ts]. unfold map_header_footer. simpl.
  f_equal.
  - apply map_id_in. intros p Hp. apply H.
    unfold header_footer_paragraphs. simpl. apply in_or_app. now left.
  - apply map_id_in. intros t Ht. apply map_table_id. intros p Hp.
    apply H. unfold header_footer_paragraphs. simpl. apply in_or_app.
    right. apply in_flat_map. eauto.
Qed.

Lemma map_document_id (g : paragraph -> paragraph) (doc : document) :
  (forall p, In p (all_paragraphs doc) -> g p = p) ->
  map_document g doc = doc.
Proof.
  intros H. destruct doc as [ps ts ss]. unfold map_document. simpl.
  f_equal.
  - apply map_id_in. intros p Hp. apply H.
    now apply (in_all_body {| paragraphs := ps; tables := ts;
                              sections := ss |}).
  - apply map_id_in. intros t Ht. apply map_table_id. intros p Hp.
    apply H.
    now apply (in_all_table {| paragraphs := ps; tables := ts;
                               sections := ss |} t).
  - apply map_id_in. intros [h ft] Hs. f_equal;
      apply map_header_footer_id; intros p Hp; apply H;
      apply (in_all_section {| paragraphs := ps; tables := ts;
                               sections := ss |}
                            {| header := h; footer := ft |}); auto.
Qed.

(** A walk whose statement leaves every paragraph alone leaves the
    document alone. *)
Lemma walk_fixed (doc : document) :
  (forall p, In p (all_paragraphs doc) -> f p = (p, None)) ->
  walk f doc = (doc, None).
Proof.
  intros H. rewrite walk_none.
  - f_equal. apply map_document_id. intros p Hp. now rewrite H.
  - intros p Hp. now rewrite H.
Qed.

(** A walk whose statement keeps the formatting of every paragraph
    keeps the formatting of the document, however it ends. *)
Hypothesis f_format :
  forall p, paragraph_format (fst (f p)) = paragraph_format p.

Lemma walk_table_format (t : table) :
  table_format (fst (walk_table f t)) = table_format t.
Proof.
  unfold walk_table, table_format.
  rewrite (proj1 (field_inv _ _ _ _)). simpl.
  apply each_image. intros r.
  rewrite (proj1 (field_inv _ _ _ _)). simpl.
  apply each_image. intros c.
  rewrite (proj1 (field_inv _ _ _ _)). simpl.
  now apply each_image.
Qed.

Lemma walk_header_footer_format (hf : header_footer) :
  header_footer_format (fst (walk_header_footer f hf))
  = header_footer_format hf.
Proof.
  unfold walk_header_footer.
  apply (seq_inv (fun a b => header_footer_format b
                             = header_footer_format a)).
  - congruence.
  - rewrite (proj1 (field_inv _ _ _ _)).
    unfold header_footer_format. simpl. f_equal.
    now apply each_image.
  - intros x. rewrite (proj1 (field_inv _ _ _ _)).
    unfold header_footer_format. simpl. f_equal.
    apply each_image. apply walk_table_format.
Qed.

Lemma walk_format (doc : document) :
  document_format (fst (walk f doc)) = document_format doc.
Proof.
  unfold walk.
  apply (seq_inv (fun a b => document_format b = document_format a)).
  - congruence.
  - rewrite (proj1 (field_inv _ _ _ _)).
    unfold document_format. simpl. do 2 f_equal. now apply each_image.
  - intros x.
    apply (seq_inv (fun a b => document_format b = document_format a)).
    + congruence.
    + rewrite (proj1 (field_inv _ _ _ _)).
      unfold document_format. simpl. do 2 f_equal.
      apply each_image. apply walk_table_format.
    + intros y. rewrite (proj1 (field_inv _ _ _ _)).
      unfold document_format. simpl. f_equal.
      apply each_image. intros s. unfold walk_section.
      apply (seq_inv (fun a b =>
                        (header_footer_format (header b),
                         header_footer_format (footer b))
                        = (header_footer_format (header a),
                           header_footer_format (footer a)))).
      * congruence.
      * rewrite (proj1 (field_inv _ _ _ _)). simpl.
        now rewrite walk_header_footer_format.
      * intros z. rewrite (proj1 (field_inv _ _ _ _)). simpl.
        now rewrite walk_header_footer_format.
Qed.

End TreeMore.

Section TreeWalks.

Variable mapping : dict.

(** The loops of both scripts are this walk. *)
Lemma translate_tree_walk (doc : document) :
  Translate.translate_tree doc mapping
  = walk (fun p => Translate.replace_in_paragraph p mapping) doc.
Proof. reflexivity. Qed.

Lemma substitute_tree_walk (doc : document) :
  Structured.substitute_tree doc mapping
  = walk (fun p => Structured.replace_in_paragraph p mapping) doc.
Proof. reflexivity. Qed.

Lemma final_pass_loop_fixed (doc : document) :
  (forall p, In p (paragraphs doc) ->
             source_free mapping (paragraph_text p)) ->
  Structured.final_pass_loop mapping doc = (doc, None).
Proof.
  intros H. unfold Structured.final_pass_loop, field.
  rewrite each_fixed.
  - now destruct doc.
  - intros p Hp. apply final_pass_fixed. now apply H.
Qed.

(** The format of a paragraph after the final pass: as before, or,
    for a paragraph without runs, with one run more. *)
Lemma final_pass_paragraph_format_cases (p : paragraph) :
  paragraph_format (fst (Structured.final_pass_paragraph mapping p))
  = paragraph_format p
  \/ (runs p = []
      /\ paragraph_format (fst (Structured.final_pass_paragraph mapping p))
         = paragraph_format p ++ [inl 0]).
Proof.
  destruct (runs p) as [|r0 rest] eqn:E.
  - rewrite final_pass_paragraph_cases, E.
    destruct (truthy (paragraph_text p)
              && snd (scan (paragraph_text p) mapping));
      [|now left].
    right. split; [reflexivity|]. cbv zeta. unfold add_run.
    destruct (truthy (replace_all (paragraph_text p) mapping)).
    + pose proof (set_text_style (replace_all (paragraph_text p) mapping)
                    {| run_text := []; run_style := 0 |}) as Hs.
      destruct (set_text _ _) as [r' e]. simpl in *.
      unfold paragraph_format. simpl. rewrite map_app. simpl.
      now rewrite Hs.
    + unfold paragraph_format. simpl. now rewrite map_app.
  - left. apply final_pass_paragraph_format. rewrite E. discriminate.
Qed.

End TreeWalks.

(** X7: a document in which no source of the mapping occurs, in the text
    of any paragraph of its body, of its tables, or of its headers and
    footers and their tables, comes out of the loops of
    [translate_document], of the loops of
    [translate_document_preserve_formatting] and of its final pass as it
    went in, and these return. *)
Theorem X7_document_without_sources (mapping : dict) (doc : document) :
  (forall p, In p (all_paragraphs doc) ->
             source_free mapping (paragraph_text p)) ->
  Translate.translate_tree doc mapping = (doc, None)
  /\ Structured.substitute_tree doc mapping = (doc, None)
  /\ Structured.final_pass_loop mapping doc = (doc, None)
  /\ forall w, Structured.final_pass doc mapping w = (w, Return doc).
Proof.
  intros H.
  assert (Structured.final_pass_loop mapping doc = (doc, None)) as EF.
  { apply final_pass_loop_fixed. intros p Hp. apply H.
    now apply in_all_body. }
  split; [|split; [|split]].
  - rewrite translate_tree_walk. apply walk_fixed. intros p Hp.
    apply translate_fixed. now apply H.
  - rewrite substitute_tree_walk. apply walk_fixed. intros p Hp.
    apply structured_fixed. now apply H.
  - exact EF.
  - intros w. unfold Structured.final_pass. now rewrite EF.
Qed.

Lemma X7_document_without_sources_witness :
  Translate.translate_tree sample_doc [entry "Total" "Suma"]
  = (sample_doc, None)
  /\ Structured.substitute_tree sample_doc [entry "Total" "Suma"]
     = (sample_doc, None)
  /\ Structured.final_pass_loop [entry "Total" "Suma"] sample_doc
     = (sample_doc, None).
Proof.
  destruct (X7_document_without_sources [entry "Total" "Suma"] sample_doc)
    as (H1 & H2 & H3 & _).
  - intros p [<-|[]] src [<-|[]]. vm_compute. reflexivity.
  - auto.
Defined.

(** X8: formatting.  The loops of [translate_document] and the loops of
    [translate_document_preserve_formatting] change the texts of runs
    and nothing else, however they end: the document keeps its
    paragraphs, tables, rows, cells, sections, runs and hyperlinks, each
    run with its formatting.  The final pass leaves the tables and the
    sections alone, and every paragraph of the body keeps its runs and
    hyperlinks, but that a paragraph without runs may get one run; so a
    document whose paragraphs of the body all have a run keeps its
    formatting through the final pass too. *)
Theorem X8_formatting_kept (mapping : dict) (doc : document) :
  document_format (fst (Translate.translate_tree doc mapping))
  = document_format doc
  /\ document_format (fst (Structured.substitute_tree doc mapping))
     = document_format doc
  /\ (let doc' := fst (Structured.final_pass_loop mapping doc) in
      tables doc' = tables doc
      /\ sections doc' = sections doc
      /\ Forall2
           (fun p p' =>
              paragraph_format p' = paragraph_format p
              \/ (runs p = []
                  /\ paragraph_format p' = paragraph_format p ++ [inl 0]))
           (paragraphs doc) (paragraphs doc')
      /\ ((forall p, In p (paragraphs doc) -> runs p <> []) ->
          document_format doc' = document_format doc)).
Proof.
  split; [|split].
  - rewrite translate_tree_walk. apply walk_format.
    intros p. apply translate_paragraph_format.
  - rewrite substitute_tree_walk. apply walk_format.
    intros p. apply structured_paragraph_format.
  - cbv zeta. unfold Structured.final_pass_loop.
    rewrite (proj1 (field_inv _ _ _ _)). simpl.
    split; [reflexivity|]. split; [reflexivity|]. split.
    + apply each_Forall2; [now left|]. intros p _.
      apply final_pass_paragraph_format_cases.
    + intros H. unfold document_format. simpl. do 2 f_equal.
      symmetry. apply Forall2_map_eq.
      apply each_Forall2; [reflexivity|]. intros p Hp. symmetry.
      apply final_pass_paragraph_format. now apply H.
Qed.

Lemma X8_formatting_kept_witness :
  document_format
    (fst (Structured.final_pass_loop sample_mapping sample_doc))
  = document_format sample_doc.
Proof.
  apply (proj2 (proj2 (X8_formatting_kept sample_mapping sample_doc))).
  intros p [<-|[]]. discriminate.
Defined.


(* ================================================================== *)
(** ** Further properties: files                                       *)
(* ================================================================== *)

Section FilesMore.

Lemma save_raise (d : document) (p : path) (w w' : world) (e : exn) :
  save d p w = (w', Raise e) -> w' = w.
Proof.
  unfold save. destruct p as [|c q]; [now intros H; inversion H|].
  destruct (is_dir (files w) (parent (c :: q)));
    [|now intros H; inversion H].
  destruct (lookup (files w) (c :: q)) as [[|x]|]; intros H;
    now inversion H.
Qed.

Lemma lookup_remove_same (f : filesystem) (p : path) :
  lookup (remove f p) p = None.
Proof.
  induction f as [|[q n] f IH]; simpl; [reflexivity|].
  destruct (path_eqb q p) eqn:E; [exact IH|]. simpl. now rewrite E.
Qed.

Lemma lookup_remove_other (f : filesystem) (p q : path) :
  p <> q -> lookup (remove f p) q = lookup f q.
Proof.
  intros H. induction f as [|[q0 n] f IH]; simpl; [reflexivity|].
  destruct (path_eqb q0 p) eqn:E; simpl.
  - apply path_eqb_eq in E. subst q0. now rewrite path_eqb_neq.
  - now rewrite IH.
Qed.

Variable markup_pass : document -> dict -> document * list warning.

(** [translate_document] keeps every entry that is not the output. *)
Lemma translate_document_frame
      (doc_path : path) (mapping : dict) (output_dir : path) (w : world)
      (q : path) (n : node) :
  q <> joinpath output_dir (translated_name doc_path) ->
  lookup (files w) q = Some n ->
  lookup (files (fst (Translate.translate_document
                        doc_path mapping output_dir w))) q = Some n.
Proof.
  intros Hq Hn.
  destruct (translate_document_cases doc_path mapping output_dir w)
    as [[e E] | (doc & doc' & f1 & o1 & Hdoc & _ & EM & Hrun)].
  - now rewrite E.
  - cbv zeta in Hrun.
    pose proof (mkdir_from_keeps output_dir [] (files w) f1 o1 q n EM Hn)
      as Hk.
    destruct o1 as [[]|e].
    + destruct Hrun as (w2 & o2 & ES & E). rewrite E. simpl.
      rewrite (save_other _ _ q _ _ _ ES (not_eq_sym Hq)). exact Hk.
    + rewrite Hrun. exact Hk.
Qed.

Lemma translate_document_preserve_formatting_frame
      (doc_path : path) (mapping : dict) (output_dir : path) (w : world)
      (q : path) (n : node) :
  q <> joinpath output_dir (translated_name doc_path) ->
  lookup (files w) q = Some n ->
  lookup (files (fst (Structured.translate_document_preserve_formatting
                        markup_pass
                        doc_path mapping output_dir w))) q = Some n.
Proof.
  intros Hq Hn.
  destruct (translate_document_preserve_formatting_cases
              markup_pass doc_path mapping output_dir w)
    as [[e E] | (doc & f1 & o1 & l & Hdoc & _ & EM & _ & Hrun)].
  - now rewrite E.
  - cbv zeta in Hrun.
    pose proof (mkdir_from_keeps output_dir [] (files w) f1 o1 q n EM Hn)
      as Hk.
    destruct o1 as [[]|e].
    + destruct Hrun as (w2 & o2 & ES & E).
      pose proof (save_other _ _ q _ _ _ ES (not_eq_sym Hq)) as Hs.
      simpl in Hs.
      destruct o2 as [[]|e]; rewrite E; simpl; congruence.
    + rewrite Hrun. exact Hk.
Qed.

(** When [translate_document] raises, the output path is as it was. *)
Lemma translate_document_no_output
      (doc_path : path) (mapping : dict) (output_dir : path)
      (w w' : world) (e : exn) :
  Translate.translate_document doc_path mapping output_dir w
  = (w', Raise e) ->
  lookup (files w') (joinpath output_dir (translated_name doc_path))
  = lookup (files w) (joinpath output_dir (translated_name doc_path)).
Proof.
  intros H.
  destruct (translate_document_cases doc_path mapping output_dir w)
    as [[e0 E] | (doc & doc' & f1 & o1 & Hdoc & _ & EM & Hrun)].
  - rewrite E in H. now inversion H.
  - cbv zeta in Hrun.
    pose proof (mkdir_from_other output_dir [] (files w) f1 o1 _ EM
                  (joinpath_not_prefix output_dir
                     (translated_name doc_path))) as Hm.
    destruct o1 as [[]|e1].
    + destruct Hrun as (w2 & o2 & ES & E). rewrite E in H.
      destruct o2 as [[]|e2]; [discriminate|].
      inversion H; subst w2. apply save_raise in ES. subst w'.
      exact Hm.
    + rewrite Hrun in H. inversion H; subst w'. exact Hm.
Qed.

Lemma translate_document_preserve_formatting_no_output
      (doc_path : path) (mapping : dict) (output_dir : path)
      (w w' : world) (e : exn) :
  Structured.translate_document_preserve_formatting
    markup_pass doc_path mapping output_dir w
  = (w', Raise e) ->
  lookup (files w') (joinpath output_dir (translated_name doc_path))
  = lookup (files w) (joinpath output_dir (translated_name doc_path)).
Proof.
  intros H.
  destruct (translate_document_preserve_formatting_cases
              markup_pass doc_path mapping output_dir w)
    as [[e0 E] | (doc & f1 & o1 & l & Hdoc & _ & EM & _ & Hrun)].
  - rewrite E in H. now inversion H.
  - cbv zeta in Hrun.
    pose proof (mkdir_from_other output_dir [] (files w) f1 o1 _ EM
                  (joinpath_not_prefix output_dir
                     (translated_name doc_path))) as Hm.
    destruct o1 as [[]|e1].
    + destruct Hrun as (w2 & o2 & ES & E).
      destruct o2 as [[]|e2]; rewrite E in H; [discriminate|].
      inversion H; subst w2. apply save_raise in ES. subst w'.
      exact Hm.
    + rewrite Hrun in H. inversion H; subst w'. exact Hm.
Qed.

End FilesMore.

(** X9: what [translate_document] leaves alone.  Whatever it does and
    however it ends, in either script, every file and directory that was
    there stays as it was, but for the output path: nothing is deleted
    and nothing else is overwritten. *)
Theorem X9_translate_frame
        (doc_path : path) (mapping : dict) (output_dir : path) (w : world)
        (q : path) (n : node) :
  q <> joinpath output_dir (translated_name doc_path) ->
  lookup (files w) q = Some n ->
  lookup (files (fst (Translate.translate_document
                        doc_path mapping output_dir w))) q = Some n
  /\ forall markup_pass,
       lookup (files (fst (Structured.translate_document_preserve_formatting
                             markup_pass
                             doc_path mapping output_dir w))) q = Some n.
Proof.
  intros Hq Hn. split.
  - now apply translate_document_frame.
  - intros. now apply translate_document_preserve_formatting_frame.
Qed.

Lemma X9_translate_frame_witness :
  lookup (files (fst (Translate.translate_document
                        [lit "invoice"; lit "invoice_2024.docx"]
                        sample_mapping [lit "translated"] sample_world)))
         [lit "words.txt"]
  = Some (File (Text (lit "Invoice=Factura" ++ [LF]))).
Proof.
  apply (X9_translate_frame [lit "invoice"; lit "invoice_2024.docx"]
           sample_mapping [lit "translated"] sample_world
           [lit "words.txt"]).
  - vm_compute. discriminate.
  - reflexivity.
Defined.

(** X10: no output on failure.  When [translate_document], of either
    script, raises (the input is no document, a run refuses its new
    text, a file stands in the way of the output directory, or the save
    fails), the output path is as it was before: no translated file is
    written. *)
Theorem X10_no_output_on_failure
        (doc_path : path) (mapping : dict) (output_dir : path)
        (w w' : world) (e : exn) :
  (Translate.translate_document doc_path mapping output_dir w
   = (w', Raise e) ->
   lookup (files w') (joinpath output_dir (translated_name doc_path))
   = lookup (files w) (joinpath output_dir (translated_name doc_path)))
  /\ (forall markup_pass,
         Structured.translate_document_preserve_formatting
           markup_pass doc_path mapping output_dir w
         = (w', Raise e) ->
         lookup (files w') (joinpath output_dir (translated_name doc_path))
         = lookup (files w)
                  (joinpath output_dir (translated_name doc_path))).
Proof.
  split.
  - apply translate_document_no_output.
  - intros. eapply translate_document_preserve_formatting_no_output; eauto.
Qed.

Lemma X10_no_output_on_failure_witness :
  lookup (files (fst (Translate.translate_document
                        [lit "invoice"; lit "broken.docx"] sample_mapping
                        [lit "translated"] sample_world)))
         (joinpath [lit "translated"]
                   (translated_name [lit "invoice"; lit "broken.docx"]))
  = lookup (files sample_world)
           (joinpath [lit "translated"]
                     (translated_name [lit "invoice"; lit "broken.docx"])).
Proof.
  apply (proj1 (X10_no_output_on_failure
                  [lit "invoice"; lit "broken.docx"] sample_mapping
                  [lit "translated"] sample_world
                  (fst (Translate.translate_document
                          [lit "invoice"; lit "broken.docx"] sample_mapping
                          [lit "translated"] sample_world))
                  BadZipFile)).
  vm_compute. reflexivity.
Defined.


(* ================================================================== *)
(** ** Further properties: the conversion and the job of one file      *)
(* ================================================================== *)

Section JobMore.

Variable Converter : path -> path -> filesystem -> filesystem * outcome unit.
Variable markup_pass : document -> dict -> document * list warning.

(** The conversion, whatever the converter does. *)
Lemma convert_spec (pdf_path docx_path : path) (w : world) :
  Structured.convert_pdf_to_docx_preserve_structure
    Converter pdf_path docx_path w
  = match Converter pdf_path docx_path (files w) with
    | (f', Return _) =>
        ({| files := f';
            console := console w ++ [MsgConverted docx_path] |},
         Return true)
    | (f', Raise e) =>
        ({| files := f';
            console := console w ++ [MsgConvertError e] |},
         Return false)
    end.
Proof.
  unfold Structured.convert_pdf_to_docx_preserve_structure,
    try_except, bind, get_files.
  destruct (Converter pdf_path docx_path (files w)) as [f' [[]|e]];
    reflexivity.
Qed.

Lemma rsplit_dot_structured (x : str) :
  rsplit_dot (x ++ lit "_structured.docx")
  = Some (x ++ lit "_structured", lit "docx").
Proof.
  unfold rsplit_dot. rewrite rev_app_distr.
  assert (partition (rev (lit "_structured.docx") ++ rev x) DOT
          = Some (rev (lit "docx"), rev (lit "_structured") ++ rev x))
    as E.
  { apply partition_some. split; [reflexivity|]. vm_compute.
    intros H. repeat (destruct H as [H|H]; [discriminate|]). exact H. }
  rewrite E. rewrite rev_app_distr, !rev_involutive. reflexivity.
Qed.

(** The name of the output of a temporary document. *)
Lemma translated_name_temp (pdf_path output_dir : path) :
  translated_name (temp_docx pdf_path output_dir)
  = stem pdf_path ++ lit "_structured_translated.docx".
Proof.
  unfold translated_name, temp_docx, stem at 1, suffix.
  rewrite name_joinpath, rsplit_dot_structured.
  replace (truthy (stem pdf_path ++ lit "_structured")) with true
    by (destruct (stem pdf_path); reflexivity).
  change (truthy (lit "docx")) with true. cbv iota beta.
  change (true && true) with true. cbv iota.
  rewrite <- app_assoc. reflexivity.
Qed.

Lemma load_mapping_world (mapping_file : path) (w w' : world)
      (o : outcome dict) :
  Structured.load_mapping mapping_file w = (w', o) -> w' = w.
Proof.
  unfold Structured.load_mapping, bind, read_text, lift.
  destruct mapping_file as [|c q]; [now intros H; inversion H|].
  destruct (lookup (files w) (c :: q)) as [[|[d|s|b]]|]; intros H;
    now inversion H.
Qed.

(** The job of a file the converter fails on. *)
Lemma process_failed_conversion
      (pdf_path mapping_file output_dir : path) (w : world)
      (f' : filesystem) (e : exn) :
  Converter pdf_path (temp_docx pdf_path output_dir) (files w)
  = (f', Raise e) ->
  Structured.process_pdf_to_structured_docx
    Converter markup_pass
    pdf_path mapping_file output_dir w
  = ({| files := f';
        console := console w
                   ++ [MsgProcessingPdf pdf_path; MsgStep1;
                       MsgConvertError e; MsgConvertFailed] |},
     Return None).
Proof.
  intros H. unfold Structured.process_pdf_to_structured_docx.
  unfold bind at 1, print at 1. unfold bind at 1, print at 1.
  unfold bind at 1. rewrite convert_spec. simpl files.
  fold (temp_docx pdf_path output_dir). rewrite H. simpl.
  unfold bind, print, ret. simpl. rewrite <- !app_assoc. reflexivity.
Qed.

Lemma bind_eq {A B} (m : io A) (k : A -> io B) (w : world) :
  bind m k w
  = match m w with
    | (w', Return a) => k a w'
    | (w', Raise e) => (w', Raise e)
    end.
Proof. reflexivity. Qed.

Lemma bind_print {B} (m : msg) (k : unit -> io B) (w : world) :
  bind (print m) k w
  = k tt {| files := files w; console := console w ++ [m] |}.
Proof. reflexivity. Qed.

(** The job of a file that comes through. *)
Lemma process_success
      (pdf_path mapping_file output_dir : path) (w w' : world) (r : path) :
  Structured.process_pdf_to_structured_docx
    Converter markup_pass
    pdf_path mapping_file output_dir w = (w', Return (Some r)) ->
  r = joinpath output_dir
        (stem pdf_path ++ lit "_structured_translated.docx")
  /\ lookup (files w') (temp_docx pdf_path output_dir) = None
  /\ exists d, lookup (files w') r = Some (File (Docx d)).
Proof.
  unfold Structured.process_pdf_to_structured_docx.
  rewrite !bind_print, bind_eq, convert_spec. simpl files.
  fold (temp_docx pdf_path output_dir).
  destruct (Converter pdf_path (temp_docx pdf_path output_dir) (files w))
    as [f' [[]|e]];
    [change (negb true) with false | change (negb false) with true];
    cbv iota.
  2:{ rewrite bind_print. unfold ret. discriminate. }
  rewrite bind_print, bind_eq.
  match goal with
  | |- context [Structured.load_mapping mapping_file ?w0] =>
      destruct (Structured.load_mapping mapping_file w0)
        as [wl [mapping|e]] eqn:EL;
      apply load_mapping_world in EL; subst wl
  end.
  2:{ discriminate. }
  rewrite !bind_print, bind_eq.
  match goal with
  | |- context [Structured.translate_document_preserve_formatting
                  _ _ _ _ ?w0] => set (w3 := w0)
  end.
  destruct (translate_document_preserve_formatting_cases
              markup_pass
              (temp_docx pdf_path output_dir) mapping output_dir w3)
    as [[e E] | (doc & f1 & o1 & l & Hdoc & _ & EM & _ & Hrun)].
  { rewrite E. discriminate. }
  cbv zeta in Hrun. destruct o1 as [[]|e].
  2:{ rewrite Hrun. discriminate. }
  destruct Hrun as (w2 & o2 & ES & E). destruct o2 as [[]|e].
  2:{ rewrite E. discriminate. }
  rewrite E. clear E.
  apply save_inv in ES as [Ef Ec]. simpl in Ef, Ec.
  assert (lookup (files w2) (temp_docx pdf_path output_dir)
          = Some (File (Docx doc))) as Htemp.
  { rewrite Ef, lookup_store_other
      by apply output_path_neq.
    eapply mkdir_from_keeps; eauto. }
  rewrite bind_eq. unfold try_except. rewrite bind_eq.
  unfold unlink. simpl files.
  destruct (joinpath_cons output_dir
              (stem pdf_path ++ lit "_structured.docx"))
    as (c & q & Ej).
  fold (temp_docx pdf_path output_dir) in Ej.
  rewrite Ej. rewrite <- Ej. rewrite Htemp.
  unfold print, ret. simpl. intros H. inversion H; subst w' r. simpl.
  split; [now rewrite translated_name_temp|]. split.
  - apply lookup_remove_same.
  - eexists. rewrite lookup_remove_other by
        (apply not_eq_sym; apply output_path_neq).
    rewrite Ef. apply lookup_store_same.
Qed.

End JobMore.


(** X11: the conversion never raises.  Whatever the converter does,
    [convert_pdf_to_docx_preserve_structure] returns; it returns [True]
    when the converter returned and [False] when it raised; and the
    files are as the converter left them. *)
Theorem X11_convert_never_raises
        (Converter : path -> path -> filesystem -> filesystem * outcome unit)
        (pdf_path docx_path : path) (w : world) :
  exists w' ok,
    Structured.convert_pdf_to_docx_preserve_structure
      Converter pdf_path docx_path w = (w', Return ok)
    /\ files w' = fst (Converter pdf_path docx_path (files w))
    /\ (ok = true
        <-> exists u, snd (Converter pdf_path docx_path (files w)) = Return u).
Proof.
  rewrite convert_spec.
  destruct (Converter pdf_path docx_path (files w)) as [f' [u|e]];
    eexists; eexists; (split; [reflexivity|]); simpl;
    (split; [reflexivity|]).
  - split; eauto.
  - split; [discriminate | intros [u H]; discriminate].
Qed.

(** X12: a file the converter fails on.  The job of the file returns
    [None] after four lines on the console; it neither reads the mapping
    file nor translates anything: the files are as the converter left
    them. *)
Theorem X12_failed_conversion
        (Converter : path -> path -> filesystem -> filesystem * outcome unit)
        (markup_pass : document -> dict -> document * list warning)
        (pdf_path mapping_file output_dir : path) (w : world)
        (f' : filesystem) (e : exn) :
  Converter pdf_path
            (joinpath output_dir (stem pdf_path ++ lit "_structured.docx"))
            (files w) = (f', Raise e) ->
  Structured.process_pdf_to_structured_docx
    Converter markup_pass
    pdf_path mapping_file output_dir w
  = ({| files := f';
        console := console w
                   ++ [MsgProcessingPdf pdf_path; MsgStep1;
                       MsgConvertError e; MsgConvertFailed] |},
     Return None).
Proof. apply process_failed_conversion. Qed.

Lemma X12_failed_conversion_witness :
  Structured.process_pdf_to_structured_docx
    sample_converter no_markup
    [lit "invoice"; lit "bad.pdf"] [lit "missing.txt"] [lit "translated"]
    sample_world
  = ({| files := files sample_world;
        console := console sample_world
                   ++ [MsgProcessingPdf [lit "invoice"; lit "bad.pdf"];
                       MsgStep1; MsgConvertError (ConverterError 1);
                       MsgConvertFailed] |},
     Return None).
Proof.
  apply (X12_failed_conversion sample_converter no_markup
           [lit "invoice"; lit "bad.pdf"] [lit "missing.txt"]
           [lit "translated"] sample_world).
  reflexivity.
Defined.

(** X13: a file that comes through.  When the job of a file returns a
    path, the path is the output directory followed by the stem of the
    PDF name and ["_structured_translated.docx"]; a document is there;
    and the temporary document of the conversion is gone. *)
Theorem X13_job_output
        (Converter : path -> path -> filesystem -> filesystem * outcome unit)
        (markup_pass : document -> dict -> document * list warning)
        (pdf_path mapping_file output_dir : path) (w w' : world) (r : path) :
  Structured.process_pdf_to_structured_docx
    Converter markup_pass
    pdf_path mapping_file output_dir w = (w', Return (Some r)) ->
  r = joinpath output_dir
        (stem pdf_path ++ lit "_structured_translated.docx")
  /\ lookup (files w')
            (joinpath output_dir (stem pdf_path ++ lit "_structured.docx"))
     = None
  /\ exists d, lookup (files w') r = Some (File (Docx d)).
Proof. apply process_success. Qed.

Lemma X13_job_output_witness :
  let w' := fst (Structured.process_pdf_to_structured_docx
                   sample_converter no_markup
                   [lit "invoice"; lit "ok.pdf"] [lit "words.txt"]
                   [lit "translated"] sample_world) in
  lookup (files w') [lit "translated"; lit "ok_structured.docx"] = None
  /\ exists d,
       lookup (files w')
              [lit "translated"; lit "ok_structured_translated.docx"]
       = Some (File (Docx d)).
Proof.
  cbv zeta.
  destruct (X13_job_output sample_converter no_markup
              [lit "invoice"; lit "ok.pdf"] [lit "words.txt"]
              [lit "translated"] sample_world
              (fst (Structured.process_pdf_to_structured_docx
                      sample_converter no_markup
                      [lit "invoice"; lit "ok.pdf"] [lit "words.txt"]
                      [lit "translated"] sample_world))
              [lit "translated"; lit "ok_structured_translated.docx"])
    as (_ & H2 & H3).
  - vm_compute. reflexivity.
  - split; [exact H2 | exact H3].
Defined.

(** X14: [main] of [translate.py] before its loop.  When the input
    directory is missing, or when it is there and the mapping file is
    missing (which [main] does not test, and [load_mapping] then fails
    to open), [main] raises [FileNotFoundError] and nothing has
    changed. *)
Theorem X14_translate_main_missing (w : world) :
  exists_ (files w) [lit "invoice"] = false
  \/ lookup (files w) [lit "words.txt"] = None ->
  Translate.main w = (w, Raise FileNotFoundError).
Proof.
  intros H. unfold Translate.main. rewrite bind_eq. unfold get_files.
  destruct (exists_ (files w) [lit "invoice"]) eqn:E; [|reflexivity].
  destruct H as [H|H]; [discriminate|].
  change (negb true) with false. cbv iota. rewrite bind_eq.
  unfold Translate.load_mapping. rewrite bind_eq. unfold read_text.
  now rewrite H.
Qed.

Lemma X14_translate_main_missing_witness :
  Translate.main {| files := [([lit "invoice"], Dir)]; console := [] |}
  = ({| files := [([lit "invoice"], Dir)]; console := [] |},
     Raise FileNotFoundError).
Proof.
  apply X14_translate_main_missing. right. reflexivity.
Defined.

(** X15: [main] of [pdf_translator_structured.py] before its loop.  When
    the input directory or the mapping file is missing, [main] raises
    [FileNotFoundError] and nothing has changed or been printed.  When
    both are there and the directory lists no PDF file, [main] prints
    one line and returns, and the files are as they were. *)
Theorem X15_structured_main_early
        (Converter : path -> path -> filesystem -> filesystem * outcome unit)
        (markup_pass : document -> dict -> document * list warning)
        (w : world) :
  (exists_ (files w) [lit "invoice"] = false
   \/ exists_ (files w) [lit "words.txt"] = false ->
   Structured.main Converter markup_pass w
   = (w, Raise FileNotFoundError))
  /\ (exists_ (files w) [lit "invoice"] = true ->
      exists_ (files w) [lit "words.txt"] = true ->
      glob (files w) [lit "invoice"] (lit ".pdf") = [] ->
      Structured.main Converter markup_pass w
      = ({| files := files w; console := console w ++ [MsgNoPdf] |},
         Return tt)).
Proof.
  unfold Structured.main. rewrite bind_eq. unfold get_files. split.
  - intros [H|H].
    + now rewrite H.
    + rewrite H. now destruct (exists_ (files w) [lit "invoice"]).
  - intros H1 H2 H3. rewrite H1, H2, H3. reflexivity.
Qed.

Lemma X15_structured_main_early_witness :
  Structured.main sample_converter no_markup sample_world
  = ({| files := files sample_world;
        console := console sample_world ++ [MsgNoPdf] |}, Return tt)
  /\ Structured.main sample_converter no_markup
       {| files := [([lit "invoice"], Dir)]; console := [] |}
     = ({| files := [([lit "invoice"], Dir)]; console := [] |},
        Raise FileNotFoundError).
Proof.
  split.
  - apply (proj2 (X15_structured_main_early sample_converter no_markup sample_world)); reflexivity.
  - apply (proj1 (X15_structured_main_early sample_converter no_markup
                    {| files := [([lit "invoice"], Dir)]; console := [] |})).
    right. reflexivity.
Defined.


(* ================================================================== *)
(** ** Further properties: a batch of documents                        *)
(* ================================================================== *)

Section BatchMore.




Variable mapping : dict.
Variable output_dir : path.



End BatchMore.





(* ================================================================== *)
(** ** Further properties: [main] of [translate.py] on documents       *)
(* ================================================================== *)

Section MainMore.









End MainMore.




(* ================================================================== *)
(** ** Further properties: the whole document, and a job that fails    *)
(* ================================================================== *)

Section WalkMore.

Variable g : paragraph -> paragraph.

Lemma flat_map_walk {A B : Type} (h : A -> A) (k : A -> list B)
      (j : B -> B) (l : list A) :
  (forall a, k (h a) = map j (k a)) ->
  flat_map k (map h l) = map j (flat_map k l).
Proof.
  intros H. induction l as [|a l IH]; simpl; [reflexivity|].
  now rewrite map_app, H, IH.
Qed.

(** The paragraphs of a changed table, header or footer are the
    changed paragraphs. *)
Lemma map_table_paragraphs (t : table) :
  table_paragraphs (map_table g t) = map g (table_paragraphs t).
Proof.
  unfold table_paragraphs, map_table. simpl.
  apply flat_map_walk. intros r. simpl.
  apply flat_map_walk. intros c. reflexivity.
Qed.

Lemma map_header_footer_paragraphs (hf : header_footer) :
  header_footer_paragraphs (map_header_footer g hf)
  = map g (header_footer_paragraphs hf).
Proof.
  unfold header_footer_paragraphs, map_header_footer. simpl.
  rewrite map_app. f_equal.
  apply flat_map_walk. intros t. apply map_table_paragraphs.
Qed.

Lemma map_document_paragraphs (doc : document) :
  all_paragraphs (map_document g doc) = map g (all_paragraphs doc).
Proof.
  unfold all_paragraphs, map_document. simpl.
  rewrite !map_app. f_equal. f_equal.
  - apply flat_map_walk. intros t. apply map_table_paragraphs.
  - apply flat_map_walk. intros s. simpl. rewrite map_app.
    f_equal; apply map_header_footer_paragraphs.
Qed.

End WalkMore.

Section DocumentMore.

Variable mapping : dict.
Hypothesis mapping_clean : no_reintroduction mapping.
Hypothesis mapping_verbatim : verbatim_mapping mapping.

(** The loops of [translate_document_preserve_formatting] on a
    document without hyperlinks, of verbatim texts. *)
Lemma substitute_tree_clean (doc : document) :
  (forall p, In p (all_paragraphs doc) ->
             no_links p /\ verbatim_paragraph p) ->
  exists doc',
    Structured.substitute_tree doc mapping = (doc', None)
    /\ forall p, In p (all_paragraphs doc') ->
                 source_free mapping (paragraph_text p).
Proof.
  intros H. eexists. split.
  - rewrite substitute_tree_walk. apply walk_none. intros p Hp.
    destruct (H p Hp) as [Hl Hv].
    destruct (structured_clean mapping p mapping_clean mapping_verbatim
                               Hl Hv) as (p' & E & _).
    now rewrite E.
  - intros p Hp. rewrite map_document_paragraphs in Hp.
    apply in_map_iff in Hp as [p0 [<- Hp0]].
    destruct (H p0 Hp0) as [Hl Hv].
    destruct (structured_clean mapping p0 mapping_clean mapping_verbatim
                               Hl Hv) as (p' & E & _ & _ & Hc).
    now rewrite E.
Qed.

Lemma translate_tree_twice (doc : document) :
  (forall p, In p (all_paragraphs doc) -> verbatim_paragraph p) ->
  exists doc',
    Translate.translate_tree doc mapping = (doc', None)
    /\ Translate.translate_tree doc' mapping = (doc', None).
Proof.
  intros H. eexists. split.
  - rewrite translate_tree_walk. apply walk_none. intros p Hp.
    rewrite (run_local_pass mapping p mapping_verbatim (H p Hp)).
    reflexivity.
  - rewrite translate_tree_walk. apply walk_fixed. intros p Hp.
    rewrite map_document_paragraphs in Hp.
    apply in_map_iff in Hp as [p0 [<- Hp0]].
    destruct (translate_twice mapping p0 mapping_clean mapping_verbatim
                              (H p0 Hp0)) as (p1 & E1 & E2).
    now rewrite E1.
Qed.

End DocumentMore.

(** X18: no source left in the document.  When no target of the mapping
    contains or creates a source of the mapping, no paragraph the script
    visits has a hyperlink, and the texts of their runs and the targets
    are strings a run keeps as they are, the loops of
    [translate_document_preserve_formatting] return, and then no
    paragraph of the document, in the body, in a table, or in a header
    or footer, has a source of the mapping in its text. *)
Theorem X18_document_no_source_left (mapping : dict) (doc : document) :
  no_reintroduction mapping -> verbatim_mapping mapping ->
  (forall p, In p (all_paragraphs doc) ->
             no_links p /\ verbatim_paragraph p) ->
  exists doc',
    Structured.substitute_tree doc mapping = (doc', None)
    /\ forall p, In p (all_paragraphs doc') ->
                 source_free mapping (paragraph_text p).
Proof. intros H Hm Hd. now apply substitute_tree_clean. Qed.

Lemma sample_doc_plain :
  forall p, In p (all_paragraphs sample_doc) ->
            no_links p /\ verbatim_paragraph p.
Proof.
  intros p [<-|[]]. split; [apply no_links_para|].
  apply verbatim_para. vm_compute. reflexivity.
Qed.

Lemma X18_document_no_source_left_witness :
  exists doc',
    Structured.substitute_tree sample_doc sample_mapping = (doc', None)
    /\ forall p, In p (all_paragraphs doc') ->
                 source_free sample_mapping (paragraph_text p).
Proof.
  apply (X18_document_no_source_left sample_mapping sample_doc).
  - apply separated_no_reintroduction. vm_compute. reflexivity.
  - apply verbatim_entries. vm_compute. reflexivity.
  - exact sample_doc_plain.
Defined.

(** X19: translating twice.  When no target of the mapping contains or
    creates a source of the mapping, and the texts of the runs and the
    targets are strings a run keeps as they are: the loops of
    [translate_document] return, and change nothing in the document they
    leave; and when no paragraph has a hyperlink, the loops of
    [translate_document_preserve_formatting] return, and neither they
    nor the final pass change anything in the document they leave. *)
Theorem X19_document_idempotent (mapping : dict) (doc : document) :
  no_reintroduction mapping -> verbatim_mapping mapping ->
  (forall p, In p (all_paragraphs doc) -> verbatim_paragraph p) ->
  (exists doc',
      Translate.translate_tree doc mapping = (doc', None)
      /\ Translate.translate_tree doc' mapping = (doc', None))
  /\ ((forall p, In p (all_paragraphs doc) -> no_links p) ->
      exists doc',
        Structured.substitute_tree doc mapping = (doc', None)
        /\ Structured.substitute_tree doc' mapping = (doc', None)
        /\ Structured.final_pass_loop mapping doc' = (doc', None)).
Proof.
  intros H Hm Hv. split.
  - now apply translate_tree_twice.
  - intros Hl.
    destruct (substitute_tree_clean mapping H Hm doc) as (doc' & E & Hc).
    { intros p Hp. split; [now apply Hl | now apply Hv]. }
    exists doc'. split; [exact E|]. split.
    + rewrite substitute_tree_walk. apply walk_fixed. intros p Hp.
      apply structured_fixed. now apply Hc.
    + apply final_pass_loop_fixed. intros p Hp. apply Hc.
      now apply in_all_body.
Qed.

Lemma X19_document_idempotent_witness :
  (exists doc',
      Translate.translate_tree sample_doc sample_mapping = (doc', None)
      /\ Translate.translate_tree doc' sample_mapping = (doc', None))
  /\ (exists doc',
         Structured.substitute_tree sample_doc sample_mapping = (doc', None)
         /\ Structured.substitute_tree doc' sample_mapping = (doc', None)
         /\ Structured.final_pass_loop sample_mapping doc' = (doc', None)).
Proof.
  destruct (X19_document_idempotent sample_mapping sample_doc) as [H1 H2].
  - apply separated_no_reintroduction. vm_compute. reflexivity.
  - apply verbatim_entries. vm_compute. reflexivity.
  - intros p Hp. now apply sample_doc_plain.
  - split; [exact H1|]. apply H2. intros p Hp. now apply sample_doc_plain.
Defined.

Section LeftoverMore.

Variable Converter : path -> path -> filesystem -> filesystem * outcome unit.
Variable markup_pass : document -> dict -> document * list warning.

(** The job of a file when the mapping file cannot be read after the
    conversion. *)
Lemma process_mapping_unreadable
      (pdf_path mapping_file output_dir : path) (w : world)
      (f' : filesystem) :
  Converter pdf_path (temp_docx pdf_path output_dir) (files w)
  = (f', Return tt) ->
  (forall content,
      lookup f' mapping_file <> Some (File (Text content))) ->
  exists e,
    Structured.process_pdf_to_structured_docx
      Converter markup_pass
      pdf_path mapping_file output_dir w
    = ({| files := f';
          console := console w
                     ++ [MsgProcessingPdf pdf_path; MsgStep1;
                         MsgConverted (temp_docx pdf_path output_dir);
                         MsgStep2] |},
       Raise e).
Proof.
  intros HC Hm. unfold Structured.process_pdf_to_structured_docx.
  rewrite !bind_print, bind_eq, convert_spec. simpl files.
  fold (temp_docx pdf_path output_dir). rewrite HC.
  change (negb true) with false. cbv iota.
  rewrite bind_print, bind_eq. unfold Structured.load_mapping.
  rewrite bind_eq. unfold read_text. simpl files. simpl console.
  rewrite <- !app_assoc. simpl app.
  destruct mapping_file as [|c q]; [eexists; reflexivity|].
  destruct (lookup f' (c :: q)) as [[|[d|s|b]]|] eqn:E;
    try (eexists; reflexivity).
  exfalso. now apply (Hm s).
Qed.

End LeftoverMore.

(** X20: what a failed job leaves behind.  When the converter has
    written its temporary document and the mapping file then cannot be
    read, the job of the file raises after four lines on the console,
    and the files are as the converter left them: the temporary document
    is not removed. *)
Theorem X20_temporary_left_behind
        (Converter : path -> path -> filesystem -> filesystem * outcome unit)
        (markup_pass : document -> dict -> document * list warning)
        (pdf_path mapping_file output_dir : path) (w : world)
        (f' : filesystem) :
  Converter pdf_path
            (joinpath output_dir (stem pdf_path ++ lit "_structured.docx"))
            (files w) = (f', Return tt) ->
  (forall content, lookup f' mapping_file <> Some (File (Text content))) ->
  exists e,
    Structured.process_pdf_to_structured_docx
      Converter markup_pass
      pdf_path mapping_file output_dir w
    = ({| files := f';
          console := console w
                     ++ [MsgProcessingPdf pdf_path; MsgStep1;
                         MsgConverted
                           (joinpath output_dir
                              (stem pdf_path ++ lit "_structured.docx"));
                         MsgStep2] |},
       Raise e).
Proof. apply process_mapping_unreadable. Qed.

Lemma X20_temporary_left_behind_witness :
  let w' := fst (Structured.process_pdf_to_structured_docx
                   sample_converter no_markup
                   [lit "invoice"; lit "ok.pdf"] [lit "missing.txt"]
                   [lit "translated"] sample_world) in
  lookup (files w') [lit "translated"; lit "ok_structured.docx"]
  = Some (File (Docx sample_doc)).
Proof.
  cbv zeta.
  destruct (X20_temporary_left_behind
              sample_converter no_markup
              [lit "invoice"; lit "ok.pdf"] [lit "missing.txt"]
              [lit "translated"] sample_world
              (store (files sample_world)
                     [lit "translated"; lit "ok_structured.docx"]
                     (File (Docx sample_doc))))
    as [e E].
  - reflexivity.
  - intros content. vm_compute. discriminate.
  - rewrite E. vm_compute. reflexivity.
Defined.

(* ================================================================== *)
(** ** Further properties: a target that a run refuses                 *)
(* ================================================================== *)

Section Refusal.

Lemma refused_not_break (c : char) :
  refused c = true ->
  (c =? TAB)%N = false /\ (c =? LF)%N = false /\ (c =? CR)%N = false.
Proof.
  unfold refused, xml_char, surrogate, TAB, LF, CR. intros H.
  repeat split; apply N.eqb_neq; intros ->; vm_compute in H;
    discriminate.
Qed.

Lemma text_error_refused (t : str) :
  existsb refused t = true ->
  text_error t = Some ValueError \/ text_error t = Some UnicodeEncodeError.
Proof.
  intros H. unfold text_error.
  destruct (existsb surrogate t) eqn:Es; [now right|]. left.
  assert (forallb xml_char t = false) as ->; [|reflexivity].
  induction t as [|c t IH]; [discriminate|]. simpl in *.
  apply orb_false_iff in Es as [Ec Es].
  unfold refused in H at 1. rewrite Ec, orb_false_r in H.
  destruct (xml_char c); simpl in *; [auto | reflexivity].
Qed.

Lemma text_error_kind (t : str) (e : exn) :
  text_error t = Some e -> e = ValueError \/ e = UnicodeEncodeError.
Proof.
  unfold text_error. destruct (existsb surrogate t).
  - intros H. inversion H. now right.
  - destruct (forallb xml_char t); [discriminate|].
    intros H. inversion H. now left.
Qed.

Lemma flush_kind (content buf : str) (content' : str) (e : exn) :
  flush content buf = (content', Some e) ->
  e = ValueError \/ e = UnicodeEncodeError.
Proof.
  unfold flush. destruct buf as [|c buf]; [discriminate|].
  destruct (text_error (c :: buf)) eqn:E; [|discriminate].
  intros H. inversion H; subst. now apply (text_error_kind (c :: buf)).
Qed.

Lemma flush_refused (content buf : str) :
  existsb refused buf = true ->
  exists e, snd (flush content buf) = Some e.
Proof.
  intros H. unfold flush. destruct buf as [|c buf]; [discriminate|].
  destruct (text_error_refused (c :: buf) H) as [-> | ->]; simpl; eauto.
Qed.

(** Appending a text with a refused character raises, and raises one
    of the two exceptions of a text element. *)
Lemma append_text_refused (t content buf : str) :
  existsb refused buf || existsb refused t = true ->
  exists e,
    snd (append_text content buf t) = Some e
    /\ (e = ValueError \/ e = UnicodeEncodeError).
Proof.
  revert content buf. induction t as [|c t IH]; intros content buf H.
  - simpl in *. rewrite orb_false_r in H.
    destruct (flush_refused content buf H) as [e He].
    exists e. split; [exact He|].
    destruct (flush content buf) as [c' o] eqn:E. simpl in He. subst o.
    now apply (flush_kind content buf c').
  - simpl.
    assert (forall nl,
               refused c = false ->
               exists e,
                 snd (match flush content buf with
                      | (content', None) =>
                          append_text (content' ++ [nl]) [] t
                      | (content', Some e) => (content', Some e)
                      end) = Some e
                 /\ (e = ValueError \/ e = UnicodeEncodeError)) as G.
    { intros nl Hc. destruct (flush content buf) as [c' [e|]] eqn:E.
      - exists e. split; [reflexivity|].
        now apply (flush_kind content buf c').
      - apply IH. simpl in H. rewrite Hc in H. simpl in H.
        apply orb_true_iff in H as [H|H]; [|exact H].
        destruct (flush_refused content buf H) as [e He].
        rewrite E in He. discriminate. }
    destruct (refused c) eqn:Hc.
    + destruct (refused_not_break c Hc) as (-> & -> & ->). simpl.
      apply IH. rewrite existsb_app. simpl. rewrite Hc.
      now rewrite orb_true_r.
    + destruct (c =? TAB)%N; [now apply G|].
      destruct ((c =? LF) || (c =? CR))%N; [now apply G|].
      apply IH. rewrite existsb_app. simpl. rewrite Hc. simpl.
      rewrite orb_false_r. simpl in H. now rewrite Hc in H.
Qed.

Lemma written_refused (t : str) :
  existsb refused t = true ->
  exists e,
    snd (written t) = Some e /\ (e = ValueError \/ e = UnicodeEncodeError).
Proof. intros H. now apply (append_text_refused t [] []). Qed.

Lemma existsb_in (P : char -> bool) (t : str) (c : char) :
  In c t -> P c = true -> existsb P t = true.
Proof. intros Hin Hc. apply existsb_exists. eauto. Qed.

(** The target stands in the text after a replacement that found its
    source. *)
Lemma replace_holds_target (s old new : str) :
  str_in old s = true -> str_in new (replace s old new) = true.
Proof.
  destruct old as [|o old].
  - intros _. simpl. apply str_in_app. exists [], (flat_map (fun c => c :: new) s).
    reflexivity.
  - apply (replace_ind o old new
             (fun s r => str_in (o :: old) s = true ->
                         str_in new r = true)).
    + discriminate.
    + intros s0 r _ _ _. apply str_in_app. exists [], r. reflexivity.
    + intros c s0 r Hs IH H. cbn [str_in] in H. rewrite Hs in H.
      simpl in H. apply IH in H.
      apply (str_in_middle new [c] r []) in H.
      now rewrite app_nil_r in H.
Qed.

Lemma refused_replace (s old new : str) :
  str_in old s = true -> existsb refused new = true ->
  existsb refused (replace s old new) = true.
Proof.
  intros H Hn. apply replace_holds_target with (new := new) in H.
  apply str_in_app in H as (u & v & ->).
  rewrite !existsb_app, Hn. now rewrite orb_true_r.
Qed.

(** A loop over the runs raises when it comes to a run at which the
    statement raises at every index. *)
Lemma on_runs_from_raises (body : nat -> upd run) (its : list item)
      (i : nat) (r : run) :
  In r (direct_runs its) ->
  (forall j, snd (body j r) <> None) ->
  snd (on_runs_from i body its) <> None.
Proof.
  revert i. induction its as [|[r0|h] its IH]; intros i Hin Hr; simpl.
  - contradiction.
  - destruct (body i r0) as [r' [e|]] eqn:E; [discriminate|].
    destruct Hin as [->|Hin].
    + exfalso. apply (Hr i). now rewrite E.
    + specialize (IH (S i) Hin Hr).
      now destruct (on_runs_from (S i) body its).
  - specialize (IH i Hin Hr). now destruct (on_runs_from i body its).
Qed.

Lemma on_runs_from_kind (P : exn -> Prop) (body : nat -> upd run)
      (its : list item) (i : nat) (e : exn) :
  (forall j r e, snd (body j r) = Some e -> P e) ->
  snd (on_runs_from i body its) = Some e -> P e.
Proof.
  intros H. revert i. induction its as [|[r0|h] its IH]; intros i; simpl.
  - discriminate.
  - pose proof (H i r0) as H0.
    destruct (body i r0) as [r' [e0|]]; simpl in *.
    + intros E. inversion E; subst. now apply H0.
    + specialize (IH (S i)).
      now destruct (on_runs_from (S i) body its).
  - specialize (IH i). now destruct (on_runs_from i body its).
Qed.

Lemma set_text_kind (t : str) (r : run) (e : exn) :
  snd (set_text t r) = Some e -> e = ValueError \/ e = UnicodeEncodeError.
Proof.
  rewrite set_text_snd. unfold written.
  assert (forall t content buf,
             snd (append_text content buf t) = Some e ->
             e = ValueError \/ e = UnicodeEncodeError) as G.
  { clear. induction t as [|c t IH]; intros content buf; simpl.
    - destruct (flush content buf) as [c' o] eqn:E. simpl.
      intros ->. now apply (flush_kind content buf c').
    - destruct (c =? TAB)%N.
      + destruct (flush content buf) as [c' [e0|]] eqn:E; simpl.
        * intros H. inversion H; subst.
          now apply (flush_kind content buf c').
        * apply IH.
      + destruct ((c =? LF) || (c =? CR))%N.
        * destruct (flush content buf) as [c' [e0|]] eqn:E; simpl.
          -- intros H. inversion H; subst.
             now apply (flush_kind content buf c').
          -- apply IH.
        * apply IH. }
  apply G.
Qed.

End Refusal.

(** X21: a target that a run refuses.  When the target of the first
    entry of the mapping holds a character that XML cannot hold (a
    control character other than tab, line feed and carriage return,
    U+FFFE or U+FFFF) or a surrogate, and its source occurs in a run of
    the paragraph, [replace_in_paragraph] of either script raises
    [ValueError] or [UnicodeEncodeError]: the loader lets such a target
    through, and the assignment to the text of the run refuses it. *)
Theorem X21_refused_target
        (src dst : str) (rest : dict) (p : paragraph) (r : run) :
  In r (runs p) ->
  str_in src (run_text r) = true ->
  existsb refused dst = true ->
  (exists e,
      snd (Translate.replace_in_paragraph p ((src, dst) :: rest)) = Some e
      /\ (e = ValueError \/ e = UnicodeEncodeError))
  /\ (exists e,
         snd (Structured.replace_in_paragraph p ((src, dst) :: rest))
         = Some e
         /\ (e = ValueError \/ e = UnicodeEncodeError)).
Proof.
  intros Hin Hsrc Hdst.
  assert (exists e,
             snd (Translate.replace_entry src dst p) = Some e
             /\ (e = ValueError \/ e = UnicodeEncodeError)) as (e & He & Hk).
  { unfold Translate.replace_entry.
    rewrite (str_in_run src p r Hin Hsrc).
    unfold for_runs, on_runs.
    rewrite (proj2 (field_inv _ _ _ _)).
    destruct (snd (on_runs_from 0 (fun _ => Translate.replace_in_run src dst)
                                (children p))) as [e|] eqn:E.
    - exists e. split; [reflexivity|].
      apply (on_runs_from_kind
               (fun e => e = ValueError \/ e = UnicodeEncodeError)
               _ _ _ _ ) with (2 := E).
      intros j x e0. unfold Translate.replace_in_run.
      destruct (str_in src (run_text x)); [apply set_text_kind|discriminate].
    - exfalso. revert E.
      apply (on_runs_from_raises _ _ 0 r Hin). intros _.
      unfold Translate.replace_in_run. rewrite Hsrc, set_text_snd.
      destruct (written_refused (replace (run_text r) src dst))
        as (e & -> & _); [|discriminate].
      now apply refused_replace. }
  assert (snd (Translate.replace_in_paragraph p ((src, dst) :: rest))
          = Some e) as HT.
  { unfold Translate.replace_in_paragraph, items. simpl.
    destruct (Translate.replace_entry src dst p) as [q o]. simpl in He.
    now subst o. }
  split.
  - exists e. auto.
  - exists e. split; [|exact Hk].
    unfold Structured.replace_in_paragraph, seq.
    fold (Translate.replace_in_paragraph p ((src, dst) :: rest)).
    destruct (Translate.replace_in_paragraph p ((src, dst) :: rest))
      as [q o]. simpl in HT. now subst o.
Qed.

Lemma X21_refused_target_witness :
  exists e,
    snd (Translate.replace_in_paragraph
           (para ["Invoice #123"]%string)
           [(lit "Invoice", lit "Fac" ++ [12%N] ++ lit "tura")]) = Some e
    /\ (e = ValueError \/ e = UnicodeEncodeError).
Proof.
  apply (proj1 (X21_refused_target
                  (lit "Invoice") (lit "Fac" ++ [12%N] ++ lit "tura") []
                  (para ["Invoice #123"]%string) (plain "Invoice #123")
                  (or_introl eq_refl) eq_refl eq_refl)).
Defined.

(** The mapping file of the example gives a target with a form feed,
    which the loader keeps; [main] of [translate.py] then raises
    [ValueError] at the document and writes nothing. *)
Example form_feed_in_target :
  let content := lit "Invoice=Fac" ++ [12%N] ++ lit "tura" ++ [LF] in
  let w := {| files :=
                [ ([lit "invoice"], Dir);
                  ([lit "invoice"; lit "a.docx"],
                   File (Docx {| paragraphs := [para ["Invoice #123"]%string];
                                 tables := [];
                                 sections := [] |}));
                  ([lit "words.txt"], File (Text content)) ];
              console := [] |} in
  load_text content
  = Return [(lit "Invoice", lit "Fac" ++ [12%N] ++ lit "tura")]
  /\ Translate.main w = (w, Raise ValueError).
Proof. cbv zeta. split; vm_compute; reflexivity. Qed.

